(** * ApplicationAccessPython: the AccessManager of [access_manager.py]

    A shallow embedding of the [AccessManager] class: its nine stores, its
    public mutation and query methods, the traversal engine with its four
    traversal actions, and the properties of the specification checked
    against them.

    Python sets and dicts are stdpp's [gset] and [gmap].  A method is a
    function from the store to an outcome and a store: an exception leaves
    the store as it is at the point of the [raise], exactly as the mutated
    Python object is left behind.  The recursive traversal takes fuel; the
    theorems give the fuel that is enough. *)

From stdpp Require Import gmap strings list fin_maps relations.

(** ** Errors *)

(** What an error message talks about. *)
Inductive subject := User | Group | EntityType | Entity | Mapping.

(** The exceptions the class raises, by the kind of their message.
    [NotFound] carries the formal parameter named in the message (empty for
    a mapping, whose message names none).  [AttributeError] is what Python
    raises for a call of a method the object does not have. *)
Inductive error :=
| NotFound (what : subject) (parameter_name : string)
| AlreadyExists (what : subject)
| InvalidName (what : subject)
| InvalidArgument
| CircularReference
| AttributeError.

Inductive outcome (R : Type) :=
| Returned (r : R)
| Raised (e : error).
Arguments Returned {R} r.
Arguments Raised {R} e.

#[global] Instance subject_eq_dec : EqDecision subject.
Proof. solve_decision. Defined.
#[global] Instance error_eq_dec : EqDecision error.
Proof. solve_decision. Defined.
#[global] Instance outcome_eq_dec `{EqDecision R} : EqDecision (outcome R).
Proof. solve_decision. Defined.

(** [str.isspace] on the code points a [string] holds: true when there is at
    least one character and all are whitespace. *)
Definition is_whitespace (c : Ascii.ascii) : bool :=
  let n := Ascii.nat_of_ascii c in
  bool_decide (9 ≤ n ≤ 13) || bool_decide (28 ≤ n ≤ 32)
  || bool_decide (n = 133) || bool_decide (n = 160).

Fixpoint all_whitespace (s : string) : bool :=
  match s with
  | EmptyString => true
  | String c rest => is_whitespace c && all_whitespace rest
  end.

Definition isspace (s : string) : bool :=
  match s with
  | EmptyString => false
  | _ => all_whitespace s
  end.

Section AccessManager.
Context `{Countable TUser, Countable TGroup,
          Countable TComponent, Countable TAccess}.

(** ** The stores (the fields set by [__init__]) *)
Record AccessManager := {
  _users : gset TUser;
  _groups : gset TGroup;
  _user_to_group_graph_edges : gmap TUser (gset TGroup);
  _group_to_group_graph_edges : gmap TGroup (gset TGroup);
  _user_to_component_map : gmap TUser (gset (TComponent * TAccess));
  _group_to_component_map : gmap TGroup (gset (TComponent * TAccess));
  _entities : gmap string (gset string);
  _user_to_entity_map : gmap TUser (gmap string (gset string));
  _group_to_entity_map : gmap TGroup (gmap string (gset string));
}.

(** [__init__]: every store empty. *)
Definition __init__ : AccessManager :=
  Build_AccessManager ∅ ∅ ∅ ∅ ∅ ∅ ∅ ∅ ∅.

Definition set_users (f : gset TUser → gset TUser) (s : AccessManager) :=
  Build_AccessManager (f (_users s)) (_groups s)
    (_user_to_group_graph_edges s) (_group_to_group_graph_edges s)
    (_user_to_component_map s) (_group_to_component_map s)
    (_entities s) (_user_to_entity_map s) (_group_to_entity_map s).
Definition set_groups (f : gset TGroup → gset TGroup) (s : AccessManager) :=
  Build_AccessManager (_users s) (f (_groups s))
    (_user_to_group_graph_edges s) (_group_to_group_graph_edges s)
    (_user_to_component_map s) (_group_to_component_map s)
    (_entities s) (_user_to_entity_map s) (_group_to_entity_map s).
Definition set_user_to_group_graph_edges
    (f : gmap TUser (gset TGroup) → gmap TUser (gset TGroup))
    (s : AccessManager) :=
  Build_AccessManager (_users s) (_groups s)
    (f (_user_to_group_graph_edges s)) (_group_to_group_graph_edges s)
    (_user_to_component_map s) (_group_to_component_map s)
    (_entities s) (_user_to_entity_map s) (_group_to_entity_map s).
Definition set_group_to_group_graph_edges
    (f : gmap TGroup (gset TGroup) → gmap TGroup (gset TGroup))
    (s : AccessManager) :=
  Build_AccessManager (_users s) (_groups s)
    (_user_to_group_graph_edges s) (f (_group_to_group_graph_edges s))
    (_user_to_component_map s) (_group_to_component_map s)
    (_entities s) (_user_to_entity_map s) (_group_to_entity_map s).
Definition set_user_to_component_map
    (f : gmap TUser (gset (TComponent * TAccess))
         → gmap TUser (gset (TComponent * TAccess)))
    (s : AccessManager) :=
  Build_AccessManager (_users s) (_groups s)
    (_user_to_group_graph_edges s) (_group_to_group_graph_edges s)
    (f (_user_to_component_map s)) (_group_to_component_map s)
    (_entities s) (_user_to_entity_map s) (_group_to_entity_map s).
Definition set_group_to_component_map
    (f : gmap TGroup (gset (TComponent * TAccess))
         → gmap TGroup (gset (TComponent * TAccess)))
    (s : AccessManager) :=
  Build_AccessManager (_users s) (_groups s)
    (_user_to_group_graph_edges s) (_group_to_group_graph_edges s)
    (_user_to_component_map s) (f (_group_to_component_map s))
    (_entities s) (_user_to_entity_map s) (_group_to_entity_map s).
Definition set_entities
    (f : gmap string (gset string) → gmap string (gset string))
    (s : AccessManager) :=
  Build_AccessManager (_users s) (_groups s)
    (_user_to_group_graph_edges s) (_group_to_group_graph_edges s)
    (_user_to_component_map s) (_group_to_component_map s)
    (f (_entities s)) (_user_to_entity_map s) (_group_to_entity_map s).
Definition set_user_to_entity_map
    (f : gmap TUser (gmap string (gset string))
         → gmap TUser (gmap string (gset string)))
    (s : AccessManager) :=
  Build_AccessManager (_users s) (_groups s)
    (_user_to_group_graph_edges s) (_group_to_group_graph_edges s)
    (_user_to_component_map s) (_group_to_component_map s)
    (_entities s) (f (_user_to_entity_map s)) (_group_to_entity_map s).
Definition set_group_to_entity_map
    (f : gmap TGroup (gmap string (gset string))
         → gmap TGroup (gmap string (gset string)))
    (s : AccessManager) :=
  Build_AccessManager (_users s) (_groups s)
    (_user_to_group_graph_edges s) (_group_to_group_graph_edges s)
    (_user_to_component_map s) (_group_to_component_map s)
    (_entities s) (_user_to_entity_map s) (f (_group_to_entity_map s)).

#[global] Instance AccessManager_eq_dec : EqDecision AccessManager.
Proof. solve_decision. Defined.

(** ** Methods as store transformers *)

(** A method call: the outcome and the store it leaves behind. *)
Definition M (R : Type) : Type := AccessManager → outcome R * AccessManager.

Definition ret {R} (r : R) : M R := λ s, (Returned r, s).
Definition raise {R} (e : error) : M R := λ s, (Raised e, s).
Definition bind {R Q} (m : M R) (k : R → M Q) : M Q :=
  λ s, match m s with
       | (Returned r, s') => k r s'
       | (Raised e, s') => (Raised e, s')
       end.
Definition get : M AccessManager := λ s, (Returned s, s).
Definition modify (f : AccessManager → AccessManager) : M unit :=
  λ s, (Returned (), f s).

(** [d.pop(k)] guarded by [if k in d], as the removal methods write it. *)
Definition pop_if_present `{Countable K} {V} (k : K) (d : gmap K V) : gmap K V :=
  match d !! k with
  | Some _ => delete k d
  | None => d
  end.

(** The row of a dict of sets, read the way the code reads it after
    [if k not in d: d[k] = set()]. *)
Definition row `{Countable K} `{Countable V} (k : K) (d : gmap K (gset V)) : gset V :=
  default ∅ (d !! k).

Notation "x ← m ; k" := (bind m (λ x, k))
  (at level 20, m at level 100, k at level 200, only parsing).
Notation "m ;; k" := (bind m (λ _, k))
  (at level 100, k at level 200, right associativity, only parsing).

(** ** Users and groups *)

Definition add_user (user : TUser) : M unit :=
  s ← get;
  if decide (user ∈ _users s) then raise (AlreadyExists User)
  else modify (set_users (λ us, us ∪ {[user]})).

Definition contains_user (s : AccessManager) (user : TUser) : bool :=
  bool_decide (user ∈ _users s).

Definition remove_user (user : TUser) : M unit :=
  s ← get;
  if decide (user ∉ _users s) then raise (NotFound User "user")
  else
    modify (set_user_to_component_map (pop_if_present user));;
    modify (set_user_to_entity_map (pop_if_present user));;
    modify (set_users (λ us, us ∖ {[user]})).

Definition add_group (group : TGroup) : M unit :=
  s ← get;
  if decide (group ∈ _groups s) then raise (AlreadyExists Group)
  else modify (set_groups (λ gs, gs ∪ {[group]})).

Definition contains_group (s : AccessManager) (group : TGroup) : bool :=
  bool_decide (group ∈ _groups s).

Definition remove_group (group : TGroup) : M unit :=
  s ← get;
  if decide (group ∉ _groups s) then raise (NotFound Group "group")
  else
    modify (set_group_to_component_map (pop_if_present group));;
    modify (set_group_to_entity_map (pop_if_present group));;
    modify (set_groups (λ gs, gs ∖ {[group]})).

(** ** The traversal engine *)

(** A traversal action ([_UserToGroupGraphTraversalActionBase]): an object
    with fields of type [VS] whose [invoke] returns whether to keep
    traversing, or raises, and may assign to the fields. *)
Definition action (VS : Type) : Type := TGroup → VS → outcome bool * VS.

(** The [for next_edge_group in ...] loop of the recursive helper.
    [keep_traversing] is the local variable the loop assigns and tests;
    [recurse] is the recursive call. *)
Fixpoint for_each_edge_group {VS}
    (recurse : TGroup → VS → option (outcome bool * VS))
    (visited_groups : gset TGroup) (edge_groups : list TGroup)
    (keep_traversing : bool) (vs : VS) : option (outcome bool * VS) :=
  match edge_groups with
  | [] => Some (Returned keep_traversing, vs)
  | next_edge_group :: rest =>
    let after_call :=
      if decide (next_edge_group ∉ visited_groups)
      then recurse next_edge_group vs
      else Some (Returned keep_traversing, vs) in
    match after_call with
    | None => None
    | Some (Raised e, vs') => Some (Raised e, vs')
    | Some (Returned keep_traversing', vs') =>
      if keep_traversing'
      then for_each_edge_group recurse visited_groups rest keep_traversing' vs'
      else Some (Returned false, vs')
    end
  end.

(** [_traverse_user_and_group_graph_from_group_recurse].  [None] is fuel
    exhausted.  [visited_groups] is only read: the method never adds to
    it. *)
Fixpoint _traverse_user_and_group_graph_from_group_recurse {VS}
    (fuel : nat) (s : AccessManager) (next_group : TGroup)
    (visited_groups : gset TGroup) (group_action : action VS) (vs : VS)
    : option (outcome bool * VS) :=
  match fuel with
  | 0 => None
  | S fuel' =>
    match group_action next_group vs with
    | (Raised e, vs') => Some (Raised e, vs')
    | (Returned keep_traversing, vs') =>
      match _group_to_group_graph_edges s !! next_group with
      | Some edge_groups =>
        for_each_edge_group
          (λ g, _traverse_user_and_group_graph_from_group_recurse
                  fuel' s g visited_groups group_action)
          visited_groups (elements edge_groups) keep_traversing vs'
      | None => Some (Returned keep_traversing, vs')
      end
    end
  end.

(** The loop of [_traverse_user_and_group_graph_from_user]: the value the
    helper returns is dropped. *)
Fixpoint for_each_user_group {VS}
    (recurse : TGroup → VS → option (outcome bool * VS))
    (edge_groups : list TGroup) (vs : VS) : option (outcome unit * VS) :=
  match edge_groups with
  | [] => Some (Returned (), vs)
  | next_edge_group :: rest =>
    match recurse next_edge_group vs with
    | None => None
    | Some (Raised e, vs') => Some (Raised e, vs')
    | Some (Returned _, vs') => for_each_user_group recurse rest vs'
    end
  end.

Definition _traverse_user_and_group_graph_from_user {VS}
    (fuel : nat) (s : AccessManager) (start_user : TUser)
    (group_action : action VS) (vs : VS) : option (outcome unit * VS) :=
  if decide (start_user ∉ _users s)
  then Some (Raised (NotFound User "start_user"), vs)
  else
    match _user_to_group_graph_edges s !! start_user with
    | Some edge_groups =>
      let visited_groups : gset TGroup := ∅ in
      for_each_user_group
        (λ g, _traverse_user_and_group_graph_from_group_recurse
                fuel s g visited_groups group_action)
        (elements edge_groups) vs
    | None => Some (Returned (), vs)
    end.

(** *** The four traversal actions.  The state is the field [invoke]
    assigns: [_has_access], [_mapped_entities], or nothing. *)

Definition _CheckForAccessTraverserAction
    (application_component : TComponent) (access_level : TAccess)
    (group_to_component_map : gmap TGroup (gset (TComponent * TAccess)))
    : action bool :=
  λ group _has_access,
    match group_to_component_map !! group with
    | Some cas =>
      if decide ((application_component, access_level) ∈ cas)
      then (Returned false, true)
      else (Returned true, _has_access)
    | None => (Returned true, _has_access)
    end.

Definition _CheckForEntityMappingTraverserAction
    (entity_type entity : string)
    (group_to_entity_map : gmap TGroup (gmap string (gset string)))
    : action bool :=
  λ group _has_access,
    match group_to_entity_map !! group with
    | Some by_type =>
      match by_type !! entity_type with
      | Some es =>
        if decide (entity ∈ es)
        then (Returned false, true)
        else (Returned true, _has_access)
      | None => (Returned true, _has_access)
      end
    | None => (Returned true, _has_access)
    end.

Definition _AddMappedEntitiesToSetTraverserAction
    (entity_type : string)
    (group_to_entity_map : gmap TGroup (gmap string (gset string)))
    : action (gset string) :=
  λ group _mapped_entities,
    match group_to_entity_map !! group with
    | Some by_type =>
      match by_type !! entity_type with
      | Some es => (Returned true, _mapped_entities ∪ es)
      | None => (Returned true, _mapped_entities)
      end
    | None => (Returned true, _mapped_entities)
    end.

Definition _CheckForCircularReferenceTraverserAction
    (check_group : TGroup) : action unit :=
  λ group vs,
    if decide (group = check_group)
    then (Raised CircularReference, vs)
    else (Returned true, vs).

(** The action invoked on a sequence of groups in turn, each call seeing
    the fields the previous one left.  It returns whether every call
    returned [True]; a call that raises ends the sequence. *)
Fixpoint invoke_all {VS} (group_action : action VS) (gs : list TGroup) (vs : VS)
    : outcome bool * VS :=
  match gs with
  | [] => (Returned true, vs)
  | g :: rest =>
    match group_action g vs with
    | (Raised e, vs') => (Raised e, vs')
    | (Returned keep_traversing, vs') =>
      match invoke_all group_action rest vs' with
      | (Returned all_rest, vs'') => (Returned (keep_traversing && all_rest), vs'')
      | (Raised e, vs'') => (Raised e, vs'')
      end
    end
  end.

(** ** Edges between users and groups, and between groups *)

Definition add_user_to_group_mapping (user : TUser) (group : TGroup) : M unit :=
  s ← get;
  if decide (user ∉ _users s) then raise (NotFound User "user") else
  if decide (group ∉ _groups s) then raise (NotFound Group "group") else
  match _user_to_group_graph_edges s !! user with
  | Some gs =>
    if decide (group ∈ gs) then raise (AlreadyExists Mapping)
    else modify (set_user_to_group_graph_edges (<[user := gs ∪ {[group]}]>))
  | None =>
    modify (set_user_to_group_graph_edges (<[user := ∅]>));;
    modify (set_user_to_group_graph_edges
              (λ d, <[user := row user d ∪ {[group]}]> d))
  end.

Definition get_user_to_group_mappings (s : AccessManager) (user : TUser)
    : outcome (list TGroup) :=
  if decide (user ∉ _users s) then Raised (NotFound User "user")
  else Returned (elements (row user (_user_to_group_graph_edges s))).

Definition remove_user_to_group_mapping (user : TUser) (group : TGroup) : M unit :=
  s ← get;
  if decide (user ∉ _users s) then raise (NotFound User "user") else
  if decide (group ∉ _groups s) then raise (NotFound Group "group") else
  match _user_to_group_graph_edges s !! user with
  | Some gs =>
    if decide (group ∉ gs) then raise (NotFound Mapping "")
    else modify (set_user_to_group_graph_edges (<[user := gs ∖ {[group]}]>))
  | None => raise (NotFound Mapping "")
  end.

(** The only mutation that traverses, hence the fuel. *)
Definition add_group_to_group_mapping
    (fuel : nat) (from_group to_group : TGroup) (s : AccessManager)
    : option (outcome unit * AccessManager) :=
  if decide (from_group ∉ _groups s)
  then Some (Raised (NotFound Group "from_group"), s) else
  if decide (to_group ∉ _groups s)
  then Some (Raised (NotFound Group "to_group"), s) else
  if decide (from_group = to_group) then Some (Raised InvalidArgument, s) else
  if decide (to_group ∈ row from_group (_group_to_group_graph_edges s))
  then Some (Raised (AlreadyExists Mapping), s) else
  let circular_reference_check_action :=
    _CheckForCircularReferenceTraverserAction from_group in
  match _traverse_user_and_group_graph_from_group_recurse
          fuel s to_group ∅ circular_reference_check_action () with
  | None => None
  | Some (Raised e, _) => Some (Raised e, s)
  | Some (Returned _, _) =>
    Some (Returned (),
          set_group_to_group_graph_edges
            (λ d, <[from_group := row from_group d ∪ {[to_group]}]> d) s)
  end.

Definition get_group_to_group_mappings (s : AccessManager) (group : TGroup)
    : outcome (list TGroup) :=
  if decide (group ∉ _groups s) then Raised (NotFound Group "group")
  else Returned (elements (row group (_group_to_group_graph_edges s))).

Definition remove_group_to_group_mapping (from_group to_group : TGroup) : M unit :=
  s ← get;
  if decide (from_group ∉ _groups s) then raise (NotFound Group "from_group") else
  if decide (to_group ∉ _groups s) then raise (NotFound Group "to_group") else
  match _group_to_group_graph_edges s !! from_group with
  | Some gs =>
    if decide (to_group ∉ gs) then raise (NotFound Mapping "")
    else modify (set_group_to_group_graph_edges
                   (<[from_group := gs ∖ {[to_group]}]>))
  | None => raise (NotFound Mapping "")
  end.

(** ** Application component and access level mappings *)

Definition add_user_to_application_component_and_access_level_mapping
    (user : TUser) (application_component : TComponent)
    (access_level : TAccess) : M unit :=
  s ← get;
  if decide (user ∉ _users s) then raise (NotFound User "user") else
  let component_and_access := (application_component, access_level) in
  match _user_to_component_map s !! user with
  | Some cas =>
    if decide (component_and_access ∈ cas) then raise (AlreadyExists Mapping)
    else ret ()
  | None => modify (set_user_to_component_map (<[user := ∅]>))
  end;;
  modify (set_user_to_component_map
            (λ d, <[user := row user d ∪ {[component_and_access]}]> d)).

Definition get_user_to_application_component_and_access_level_mappings
    (s : AccessManager) (user : TUser)
    : outcome (list (TComponent * TAccess)) :=
  if decide (user ∉ _users s) then Raised (NotFound User "user")
  else Returned (elements (row user (_user_to_component_map s))).

(** After the pair is removed from the row, an emptied row reaches
    [self._user_to_component_map.remove(user)]: a [dict] has no [remove],
    so the call raises [AttributeError] with the pair already gone. *)
Definition remove_user_to_application_component_and_access_level_mapping
    (user : TUser) (application_component : TComponent)
    (access_level : TAccess) : M unit :=
  s ← get;
  if decide (user ∉ _users s) then raise (NotFound User "user") else
  let component_and_access := (application_component, access_level) in
  match _user_to_component_map s !! user with
  | Some cas =>
    if decide (component_and_access ∈ cas) then
      modify (set_user_to_component_map
                (<[user := cas ∖ {[component_and_access]}]>));;
      s' ← get;
      if decide (size (row user (_user_to_component_map s')) = 0)
      then raise AttributeError
      else ret ()
    else raise (NotFound Mapping "")
  | None => raise (NotFound Mapping "")
  end.

Definition add_group_to_application_component_and_access_level_mapping
    (group : TGroup) (application_component : TComponent)
    (access_level : TAccess) : M unit :=
  s ← get;
  if decide (group ∉ _groups s) then raise (NotFound Group "group") else
  let component_and_access := (application_component, access_level) in
  match _group_to_component_map s !! group with
  | Some cas =>
    if decide (component_and_access ∈ cas) then raise (AlreadyExists Mapping)
    else ret ()
  | None => modify (set_group_to_component_map (<[group := ∅]>))
  end;;
  modify (set_group_to_component_map
            (λ d, <[group := row group d ∪ {[component_and_access]}]> d)).

Definition get_group_to_application_component_and_access_level_mappings
    (s : AccessManager) (group : TGroup)
    : outcome (list (TComponent * TAccess)) :=
  if decide (group ∉ _groups s) then Raised (NotFound Group "group")
  else Returned (elements (row group (_group_to_component_map s))).

(** As the user variant, with [self._group_to_component_map.remove(group)]. *)
Definition remove_group_to_application_component_and_access_level_mapping
    (group : TGroup) (application_component : TComponent)
    (access_level : TAccess) : M unit :=
  s ← get;
  if decide (group ∉ _groups s) then raise (NotFound Group "group") else
  let component_and_access := (application_component, access_level) in
  match _group_to_component_map s !! group with
  | Some cas =>
    if decide (component_and_access ∈ cas) then
      modify (set_group_to_component_map
                (<[group := cas ∖ {[component_and_access]}]>));;
      s' ← get;
      if decide (size (row group (_group_to_component_map s')) = 0)
      then raise AttributeError
      else ret ()
    else raise (NotFound Mapping "")
  | None => raise (NotFound Mapping "")
  end.

(** ** Entity types and entities *)

Definition add_entity_type (entity_type : string) : M unit :=
  s ← get;
  if decide (is_Some (_entities s !! entity_type))
  then raise (AlreadyExists EntityType) else
  if bool_decide (String.length entity_type = 0) || isspace entity_type
  then raise (InvalidName EntityType)
  else modify (set_entities (<[entity_type := ∅]>)).

Definition contains_entity_type (s : AccessManager) (entity_type : string) : bool :=
  bool_decide (is_Some (_entities s !! entity_type)).

Definition remove_entity_type (entity_type : string) : M unit :=
  s ← get;
  if decide (_entities s !! entity_type = None)
  then raise (NotFound EntityType "entity_type")
  else
    modify (set_user_to_entity_map (fmap (pop_if_present entity_type)));;
    modify (set_group_to_entity_map (fmap (pop_if_present entity_type)));;
    modify (set_entities (delete entity_type)).

Definition add_entity (entity_type entity : string) : M unit :=
  s ← get;
  match _entities s !! entity_type with
  | None => raise (NotFound EntityType "entity_type")
  | Some es =>
    if decide (entity ∈ es) then raise (AlreadyExists Entity) else
    if bool_decide (String.length entity = 0) || isspace entity
    then raise (InvalidName Entity)
    else modify (set_entities (<[entity_type := es ∪ {[entity]}]>))
  end.

Definition get_entities (s : AccessManager) (entity_type : string)
    : outcome (gset string) :=
  match _entities s !! entity_type with
  | None => Raised (NotFound EntityType "entity_type")
  | Some es => Returned es
  end.

Definition contains_entity (s : AccessManager) (entity_type entity : string) : bool :=
  match _entities s !! entity_type with
  | Some es => bool_decide (entity ∈ es)
  | None => false
  end.

(** The body of the two cascade loops of [remove_entity], on one row. *)
Definition discard_entity (entity_type entity : string)
    (current_entities : gmap string (gset string)) : gmap string (gset string) :=
  match current_entities !! entity_type with
  | Some es =>
    if decide (entity ∈ es)
    then <[entity_type := es ∖ {[entity]}]> current_entities
    else current_entities
  | None => current_entities
  end.

Definition remove_entity (entity_type entity : string) : M unit :=
  s ← get;
  match _entities s !! entity_type with
  | None => raise (NotFound EntityType "entity_type")
  | Some es =>
    if decide (entity ∉ es) then raise (NotFound Entity "entity")
    else
      modify (set_user_to_entity_map (fmap (discard_entity entity_type entity)));;
      modify (set_group_to_entity_map (fmap (discard_entity entity_type entity)));;
      modify (set_entities (<[entity_type := es ∖ {[entity]}]>))
  end.

(** ** Entity mappings *)

(** [d[k][entity_type]] with both levels read as empty when absent. *)
Definition row2 `{Countable K} (k : K) (entity_type : string)
    (d : gmap K (gmap string (gset string))) : gset string :=
  default ∅ (default ∅ (d !! k) !! entity_type).

(** [if k not in d: d[k] = dict()], [if t not in d[k]: d[k][t] = set()],
    [d[k][t].add(entity)]. *)
Definition add_to_row2 `{Countable K} (k : K) (entity_type entity : string)
    (d : gmap K (gmap string (gset string))) : gmap K (gmap string (gset string)) :=
  <[k := <[entity_type := row2 k entity_type d ∪ {[entity]}]>
           (default ∅ (d !! k))]> d.

(** [d[k][t].remove(entity)] where the rows are known to be there. *)
Definition remove_from_row2 `{Countable K} (k : K) (entity_type entity : string)
    (d : gmap K (gmap string (gset string))) : gmap K (gmap string (gset string)) :=
  <[k := <[entity_type := row2 k entity_type d ∖ {[entity]}]>
           (default ∅ (d !! k))]> d.

Definition add_user_to_entity_mapping
    (user : TUser) (entity_type entity : string) : M unit :=
  s ← get;
  if decide (user ∉ _users s) then raise (NotFound User "user") else
  match _entities s !! entity_type with
  | None => raise (NotFound EntityType "entity_type")
  | Some es =>
    if decide (entity ∉ es) then raise (NotFound Entity "entity") else
    if decide (entity ∈ row2 user entity_type (_user_to_entity_map s))
    then raise (AlreadyExists Mapping)
    else modify (set_user_to_entity_map (add_to_row2 user entity_type entity))
  end.

Definition remove_user_to_entity_mapping
    (user : TUser) (entity_type entity : string) : M unit :=
  s ← get;
  if decide (user ∉ _users s) then raise (NotFound User "user") else
  match _entities s !! entity_type with
  | None => raise (NotFound EntityType "entity_type")
  | Some es =>
    if decide (entity ∉ es) then raise (NotFound Entity "entity") else
    match _user_to_entity_map s !! user with
    | None => raise (NotFound Mapping "")
    | Some by_type =>
      match by_type !! entity_type with
      | None => raise (NotFound Mapping "")
      | Some mapped =>
        if decide (entity ∉ mapped) then raise (NotFound Mapping "")
        else modify (set_user_to_entity_map
                       (remove_from_row2 user entity_type entity))
      end
    end
  end.

Definition add_group_to_entity_mapping
    (group : TGroup) (entity_type entity : string) : M unit :=
  s ← get;
  if decide (group ∉ _groups s) then raise (NotFound Group "group") else
  match _entities s !! entity_type with
  | None => raise (NotFound EntityType "entity_type")
  | Some es =>
    if decide (entity ∉ es) then raise (NotFound Entity "entity") else
    if decide (entity ∈ row2 group entity_type (_group_to_entity_map s))
    then raise (AlreadyExists Mapping)
    else modify (set_group_to_entity_map (add_to_row2 group entity_type entity))
  end.

Definition remove_group_to_entity_mapping
    (group : TGroup) (entity_type entity : string) : M unit :=
  s ← get;
  if decide (group ∉ _groups s) then raise (NotFound Group "group") else
  match _entities s !! entity_type with
  | None => raise (NotFound EntityType "entity_type")
  | Some es =>
    if decide (entity ∉ es) then raise (NotFound Entity "entity") else
    match _group_to_entity_map s !! group with
    | None => raise (NotFound Mapping "")
    | Some by_type =>
      match by_type !! entity_type with
      | None => raise (NotFound Mapping "")
      | Some mapped =>
        if decide (entity ∉ mapped) then raise (NotFound Mapping "")
        else modify (set_group_to_entity_map
                       (remove_from_row2 group entity_type entity))
      end
    end
  end.

Definition get_user_to_entity_mappings_for_user_and_entity_type
    (s : AccessManager) (user : TUser) (entity_type : string)
    : outcome (gset string) :=
  if decide (user ∉ _users s) then Raised (NotFound User "user") else
  if decide (_entities s !! entity_type = None)
  then Raised (NotFound EntityType "entity_type")
  else Returned (row2 user entity_type (_user_to_entity_map s)).

Definition get_group_to_entity_mappings_for_group_and_entity_type
    (s : AccessManager) (group : TGroup) (entity_type : string)
    : outcome (gset string) :=
  if decide (group ∉ _groups s) then Raised (NotFound Group "group") else
  if decide (_entities s !! entity_type = None)
  then Raised (NotFound EntityType "entity_type")
  else Returned (row2 group entity_type (_group_to_entity_map s)).

(** ** Generator methods

    [get_user_to_entity_mappings_for_user] and
    [get_group_to_entity_mappings_for_group] contain [yield]: calling them
    runs none of the body and returns a generator object; the body, the
    existence check included, runs when the generator is first advanced,
    on the store as it is then.  The pairs still to yield are kept as a
    list taken when the body starts. *)

Inductive generator (I : Type) :=
| Created (body : AccessManager → outcome (list I))
| Suspended (pending : list I)
| Finished.
Arguments Created {I} body.
Arguments Suspended {I} pending.
Arguments Finished {I}.

(** [next(g)]: [Returned None] is [StopIteration]. *)
Definition next {I} (g : generator I) (s : AccessManager)
    : outcome (option I) * generator I :=
  match g with
  | Created body =>
    match body s with
    | Raised e => (Raised e, Finished)
    | Returned [] => (Returned None, Finished)
    | Returned (x :: pending) => (Returned (Some x), Suspended pending)
    end
  | Suspended [] => (Returned None, Finished)
  | Suspended (x :: pending) => (Returned (Some x), Suspended pending)
  | Finished => (Returned None, Finished)
  end.

(** The two nested [for] loops over [d[k].items()]. *)
Definition entity_pairs (by_type : gmap string (gset string))
    : list (string * string) :=
  '(current_entity_type, es) ← map_to_list by_type;
  (λ current_entity, (current_entity_type, current_entity)) <$> elements es.

Definition get_user_to_entity_mappings_for_user_body (user : TUser)
    (s : AccessManager) : outcome (list (string * string)) :=
  if decide (user ∉ _users s) then Raised (NotFound User "user")
  else
    match _user_to_entity_map s !! user with
    | Some by_type => Returned (entity_pairs by_type)
    | None => Returned []
    end.

Definition get_user_to_entity_mappings_for_user (user : TUser)
    : M (generator (string * string)) :=
  ret (Created (get_user_to_entity_mappings_for_user_body user)).

Definition get_group_to_entity_mappings_for_group_body (group : TGroup)
    (s : AccessManager) : outcome (list (string * string)) :=
  if decide (group ∉ _groups s) then Raised (NotFound Group "group")
  else
    match _group_to_entity_map s !! group with
    | Some by_type => Returned (entity_pairs by_type)
    | None => Returned []
    end.

Definition get_group_to_entity_mappings_for_group (group : TGroup)
    : M (generator (string * string)) :=
  ret (Created (get_group_to_entity_mappings_for_group_body group)).

(** ** Queries.  They leave the store alone, so they are functions of it;
    [None] is fuel exhausted. *)

Definition has_access_to_application_component
    (fuel : nat) (s : AccessManager) (user : TUser)
    (application_component : TComponent) (access_level : TAccess)
    : option (outcome bool) :=
  if decide (user ∉ _users s) then Some (Returned false) else
  if decide ((application_component, access_level)
             ∈ row user (_user_to_component_map s))
  then Some (Returned true) else
  let group_action :=
    _CheckForAccessTraverserAction application_component access_level
      (_group_to_component_map s) in
  match _traverse_user_and_group_graph_from_user fuel s user group_action false with
  | None => None
  | Some (Raised e, _) => Some (Raised e)
  | Some (Returned _, has_access) => Some (Returned has_access)
  end.

Definition has_access_to_entity
    (fuel : nat) (s : AccessManager) (user : TUser)
    (entity_type entity : string) : option (outcome bool) :=
  match _entities s !! entity_type with
  | None => Some (Raised (NotFound EntityType "entity_type"))
  | Some es =>
    if decide (entity ∉ es) then Some (Raised (NotFound Entity "entity")) else
    if decide (user ∉ _users s) then Some (Returned false) else
    if decide (entity ∈ row2 user entity_type (_user_to_entity_map s))
    then Some (Returned true) else
    let group_action :=
      _CheckForEntityMappingTraverserAction entity_type entity
        (_group_to_entity_map s) in
    match _traverse_user_and_group_graph_from_user fuel s user group_action false with
    | None => None
    | Some (Raised e, _) => Some (Raised e)
    | Some (Returned _, _has_access) => Some (Returned _has_access)
    end
  end.

Definition get_accessible_entities
    (fuel : nat) (s : AccessManager) (user : TUser) (entity_type : string)
    : option (outcome (gset string)) :=
  if decide (user ∉ _users s) then Some (Raised (NotFound User "user")) else
  if decide (_entities s !! entity_type = None)
  then Some (Raised (NotFound EntityType "entity_type")) else
  match get_user_to_entity_mappings_for_user_and_entity_type s user entity_type with
  | Raised e => Some (Raised e)
  | Returned user_mapped_entities =>
    let group_action :=
      _AddMappedEntitiesToSetTraverserAction entity_type
        (_group_to_entity_map s) in
    match _traverse_user_and_group_graph_from_user fuel s user group_action ∅ with
    | None => None
    | Some (Raised e, _) => Some (Raised e)
    | Some (Returned _, _mapped_entities) =>
      Some (Returned (user_mapped_entities ∪ _mapped_entities))
    end
  end.

(** ** The public mutation operations, as one type of calls *)

Inductive operation :=
| AddUser (user : TUser)
| RemoveUser (user : TUser)
| AddGroup (group : TGroup)
| RemoveGroup (group : TGroup)
| AddUserToGroupMapping (user : TUser) (group : TGroup)
| RemoveUserToGroupMapping (user : TUser) (group : TGroup)
| AddGroupToGroupMapping (from_group to_group : TGroup)
| RemoveGroupToGroupMapping (from_group to_group : TGroup)
| AddUserToComponentMapping (user : TUser) (c : TComponent) (a : TAccess)
| RemoveUserToComponentMapping (user : TUser) (c : TComponent) (a : TAccess)
| AddGroupToComponentMapping (group : TGroup) (c : TComponent) (a : TAccess)
| RemoveGroupToComponentMapping (group : TGroup) (c : TComponent) (a : TAccess)
| AddEntityType (entity_type : string)
| RemoveEntityType (entity_type : string)
| AddEntity (entity_type entity : string)
| RemoveEntity (entity_type entity : string)
| AddUserToEntityMapping (user : TUser) (entity_type entity : string)
| RemoveUserToEntityMapping (user : TUser) (entity_type entity : string)
| AddGroupToEntityMapping (group : TGroup) (entity_type entity : string)
| RemoveGroupToEntityMapping (group : TGroup) (entity_type entity : string).

Definition call (fuel : nat) (op : operation) (s : AccessManager)
    : option (outcome unit * AccessManager) :=
  match op with
  | AddUser u => Some (add_user u s)
  | RemoveUser u => Some (remove_user u s)
  | AddGroup g => Some (add_group g s)
  | RemoveGroup g => Some (remove_group g s)
  | AddUserToGroupMapping u g => Some (add_user_to_group_mapping u g s)
  | RemoveUserToGroupMapping u g => Some (remove_user_to_group_mapping u g s)
  | AddGroupToGroupMapping f t => add_group_to_group_mapping fuel f t s
  | RemoveGroupToGroupMapping f t => Some (remove_group_to_group_mapping f t s)
  | AddUserToComponentMapping u c a =>
    Some (add_user_to_application_component_and_access_level_mapping u c a s)
  | RemoveUserToComponentMapping u c a =>
    Some (remove_user_to_application_component_and_access_level_mapping u c a s)
  | AddGroupToComponentMapping g c a =>
    Some (add_group_to_application_component_and_access_level_mapping g c a s)
  | RemoveGroupToComponentMapping g c a =>
    Some (remove_group_to_application_component_and_access_level_mapping g c a s)
  | AddEntityType t => Some (add_entity_type t s)
  | RemoveEntityType t => Some (remove_entity_type t s)
  | AddEntity t e => Some (add_entity t e s)
  | RemoveEntity t e => Some (remove_entity t e s)
  | AddUserToEntityMapping u t e => Some (add_user_to_entity_mapping u t e s)
  | RemoveUserToEntityMapping u t e => Some (remove_user_to_entity_mapping u t e s)
  | AddGroupToEntityMapping g t e => Some (add_group_to_entity_mapping g t e s)
  | RemoveGroupToEntityMapping g t e => Some (remove_group_to_entity_mapping g t e s)
  end.

(** The removal that the specification pairs with an addition. *)
Definition corresponding_remove (op : operation) : option operation :=
  match op with
  | AddUser u => Some (RemoveUser u)
  | AddGroup g => Some (RemoveGroup g)
  | AddUserToGroupMapping u g => Some (RemoveUserToGroupMapping u g)
  | AddGroupToGroupMapping f t => Some (RemoveGroupToGroupMapping f t)
  | AddUserToComponentMapping u c a => Some (RemoveUserToComponentMapping u c a)
  | AddGroupToComponentMapping g c a => Some (RemoveGroupToComponentMapping g c a)
  | AddEntityType t => Some (RemoveEntityType t)
  | AddEntity t e => Some (RemoveEntity t e)
  | AddUserToEntityMapping u t e => Some (RemoveUserToEntityMapping u t e)
  | AddGroupToEntityMapping g t e => Some (RemoveGroupToEntityMapping g t e)
  | _ => None
  end.

(** ** Stores compared by what they hold *)

(** Two stores hold the same content when they agree on users, groups and
    declared entities, and every row of every dict holds the same set,
    an absent row being read as an empty one, the way every getter of the
    class reads it. *)
Definition same_content (s1 s2 : AccessManager) : Prop :=
  _users s1 = _users s2 ∧ _groups s1 = _groups s2
  ∧ _entities s1 = _entities s2
  ∧ (∀ u, row u (_user_to_group_graph_edges s1)
          = row u (_user_to_group_graph_edges s2))
  ∧ (∀ g, row g (_group_to_group_graph_edges s1)
          = row g (_group_to_group_graph_edges s2))
  ∧ (∀ u, row u (_user_to_component_map s1)
          = row u (_user_to_component_map s2))
  ∧ (∀ g, row g (_group_to_component_map s1)
          = row g (_group_to_component_map s2))
  ∧ (∀ u t, row2 u t (_user_to_entity_map s1)
            = row2 u t (_user_to_entity_map s2))
  ∧ (∀ g t, row2 g t (_group_to_entity_map s1)
            = row2 g t (_group_to_entity_map s2)).

Definition is_component_mapping (op : operation) : bool :=
  match op with
  | AddUserToComponentMapping _ _ _ | RemoveUserToComponentMapping _ _ _
  | AddGroupToComponentMapping _ _ _ | RemoveGroupToComponentMapping _ _ _ => true
  | _ => false
  end.

(** The row an addition writes to is already in the store; for a
    component mapping, it already holds a pair.  Additions of users,
    groups, entity types and entities write to no row of a dict of
    mappings. *)
Definition writes_existing_row (op : operation) (s : AccessManager) : Prop :=
  match op with
  | AddUserToGroupMapping u _ => is_Some (_user_to_group_graph_edges s !! u)
  | AddGroupToGroupMapping f _ => is_Some (_group_to_group_graph_edges s !! f)
  | AddUserToComponentMapping u _ _ => row u (_user_to_component_map s) ≠ ∅
  | AddGroupToComponentMapping g _ _ => row g (_group_to_component_map s) ≠ ∅
  | AddUserToEntityMapping u t _ =>
    ∃ by_type, _user_to_entity_map s !! u = Some by_type ∧ is_Some (by_type !! t)
  | AddGroupToEntityMapping g t _ =>
    ∃ by_type, _group_to_entity_map s !! g = Some by_type ∧ is_Some (by_type !! t)
  | _ => True
  end.

(** ** The graph of groups, and the invariants of the specification *)

(** [edge d g h]: [h] is in the set stored under [g]. *)
Definition edge (d : gmap TGroup (gset TGroup)) (g h : TGroup) : Prop :=
  ∃ gs, d !! g = Some gs ∧ h ∈ gs.

Definition acyclic (d : gmap TGroup (gset TGroup)) : Prop :=
  ∀ g, ¬ tc (edge d) g g.

(** How a traversal is read off a sequence of visits: the fields end as
    [invoke_all] leaves them, every visited group satisfies [reach], the
    traversal raises what the sequence raises, and when every call
    returned [True] the traversal returned a value satisfying [kept] and
    every group satisfying [reach] was visited. *)
Definition visits_explain {VS R} (group_action : action VS)
    (reach : TGroup → Prop) (kept : R → Prop) (visits : list TGroup)
    (vs : VS) (r : outcome R) (vs' : VS) : Prop :=
  ∃ ra, invoke_all group_action visits vs = (ra, vs')
    ∧ Forall reach visits
    ∧ (∀ e, r = Raised e ↔ ra = Raised e)
    ∧ (ra = Returned true →
       (∃ k, r = Returned k ∧ kept k) ∧ ∀ h, reach h → h ∈ visits).

(** One user-to-group edge followed by zero or more group-to-group edges. *)
Definition reachable_from_user (s : AccessManager) (user : TUser) (g : TGroup) : Prop :=
  ∃ g0, g0 ∈ row user (_user_to_group_graph_edges s)
        ∧ rtc (edge (_group_to_group_graph_edges s)) g0 g.

(** Every entity mapping of a store names a declared entity of a declared
    type. *)
Definition entity_rows_declared `{Countable K} (entities : gmap string (gset string))
    (d : gmap K (gmap string (gset string))) : Prop :=
  ∀ k by_type t es, d !! k = Some by_type → by_type !! t = Some es →
    ∃ declared, entities !! t = Some declared ∧ es ⊆ declared.

(** The global invariants: referential integrity of every store, and a
    group graph with no self-loop and no cycle.  (No duplicates holds of
    sets as such.) *)
Record global_invariants (s : AccessManager) : Prop := {
  inv_user_keys :
    dom (_user_to_group_graph_edges s) ∪ dom (_user_to_component_map s)
      ∪ dom (_user_to_entity_map s) ⊆ _users s;
  inv_user_edge_targets :
    ∀ u gs, _user_to_group_graph_edges s !! u = Some gs → gs ⊆ _groups s;
  inv_group_keys :
    dom (_group_to_group_graph_edges s) ∪ dom (_group_to_component_map s)
      ∪ dom (_group_to_entity_map s) ⊆ _groups s;
  inv_group_edge_targets :
    ∀ g gs, _group_to_group_graph_edges s !! g = Some gs → gs ⊆ _groups s;
  inv_user_entities :
    entity_rows_declared (_entities s) (_user_to_entity_map s);
  inv_group_entities :
    entity_rows_declared (_entities s) (_group_to_entity_map s);
  inv_no_self_loop :
    ∀ g, ¬ edge (_group_to_group_graph_edges s) g g;
  inv_acyclic : acyclic (_group_to_group_graph_edges s);
}.

(** The part of referential integrity that every method keeps, whatever
    its outcome: the keys of the component and entity dicts are users and
    groups of the store, and every mapped entity is declared. *)
Record mapping_rows_valid (s : AccessManager) : Prop := {
  valid_user_components : dom (_user_to_component_map s) ⊆ _users s;
  valid_user_entity_keys : dom (_user_to_entity_map s) ⊆ _users s;
  valid_group_components : dom (_group_to_component_map s) ⊆ _groups s;
  valid_group_entity_keys : dom (_group_to_entity_map s) ⊆ _groups s;
  valid_user_entities :
    entity_rows_declared (_entities s) (_user_to_entity_map s);
  valid_group_entities :
    entity_rows_declared (_entities s) (_group_to_entity_map s);
}.

(** The stores an [AccessManager] can be in: the empty one, and what a
    call of a public mutation leaves behind, whether it returns or raises. *)
Inductive reachable : AccessManager → Prop :=
| reachable_init : reachable __init__
| reachable_call s fuel op r s' :
    reachable s → call fuel op s = Some (r, s') → reachable s'.

(** The invariants in a form that evaluates: inclusions of finite sets,
    and a rank in place of acyclicity. *)
Definition entity_rows_check `{Countable K} (entities : gmap string (gset string))
    (d : gmap K (gmap string (gset string))) : Prop :=
  map_Forall (λ _ by_type,
    map_Forall (λ t es, is_Some (entities !! t) ∧ es ⊆ row t entities) by_type) d.

Definition invariants_check (rank : TGroup → nat) (s : AccessManager) : Prop :=
  dom (_user_to_group_graph_edges s) ∪ dom (_user_to_component_map s)
    ∪ dom (_user_to_entity_map s) ⊆ _users s
  ∧ map_Forall (λ _ gs, gs ⊆ _groups s) (_user_to_group_graph_edges s)
  ∧ dom (_group_to_group_graph_edges s) ∪ dom (_group_to_component_map s)
      ∪ dom (_group_to_entity_map s) ⊆ _groups s
  ∧ map_Forall (λ _ gs, gs ⊆ _groups s) (_group_to_group_graph_edges s)
  ∧ entity_rows_check (_entities s) (_user_to_entity_map s)
  ∧ entity_rows_check (_entities s) (_group_to_entity_map s)
  ∧ map_Forall (λ g gs, set_Forall (λ h, rank h < rank g) gs)
      (_group_to_group_graph_edges s).

#[global] Instance invariants_check_dec rank s : Decision (invariants_check rank s).
Proof. unfold invariants_check, entity_rows_check. apply _. Defined.

End AccessManager.

Arguments AccessManager _ {_ _} _ {_ _} _ {_ _} _ {_ _}.
Arguments operation : clear implicits.
Arguments action : clear implicits.
Arguments generator _ {_ _} _ {_ _} _ {_ _} _ {_ _} _.
Arguments Created {_ _ _ _ _ _ _ _ _ _ _ _ _} body.
Arguments Suspended {_ _ _ _ _ _ _ _ _ _ _ _ _} pending.
Arguments Finished {_ _ _ _ _ _ _ _ _ _ _ _ _}.

(** ** Additions, removals and what a store grants *)

Section Grants.
Context `{Countable TUser, Countable TGroup,
          Countable TComponent, Countable TAccess}.

Local Abbreviation AM := (AccessManager TUser TGroup TComponent TAccess).
Local Abbreviation Op := (operation TUser TGroup TComponent TAccess).

(** The [users] and [groups] properties: iterators over the two sets. *)
Definition users (s : AM) : list TUser := elements (_users s).
Definition groups (s : AM) : list TGroup := elements (_groups s).

Definition is_addition (op : Op) : bool :=
  match op with
  | AddUser _ | AddGroup _ | AddUserToGroupMapping _ _
  | AddGroupToGroupMapping _ _ | AddUserToComponentMapping _ _ _
  | AddGroupToComponentMapping _ _ _ | AddEntityType _ | AddEntity _ _
  | AddUserToEntityMapping _ _ _ | AddGroupToEntityMapping _ _ _ => true
  | _ => false
  end.

Definition is_removal (op : Op) : bool := negb (is_addition op).

(** The test [add_entity_type] and [add_entity] apply to a name:
    [len(name) == 0 or name.isspace() == True] rejects it. *)
Definition valid_name (name : string) : bool :=
  negb (bool_decide (String.length name = 0) || isspace name).

Definition names_valid (entities : gmap string (gset string)) : Prop :=
  ∀ t es, entities !! t = Some es →
    valid_name t = true ∧ ∀ e, e ∈ es → valid_name e = true.

(** Everything the first store holds, the second holds too: users, groups,
    declared entities, and the content of every row. *)
Definition content_included (s s' : AM) : Prop :=
  _users s ⊆ _users s' ∧ _groups s ⊆ _groups s'
  ∧ (∀ t, is_Some (_entities s !! t) → is_Some (_entities s' !! t))
  ∧ (∀ t, row t (_entities s) ⊆ row t (_entities s'))
  ∧ (∀ u, row u (_user_to_group_graph_edges s)
          ⊆ row u (_user_to_group_graph_edges s'))
  ∧ (∀ g, row g (_group_to_group_graph_edges s)
          ⊆ row g (_group_to_group_graph_edges s'))
  ∧ (∀ u, row u (_user_to_component_map s)
          ⊆ row u (_user_to_component_map s'))
  ∧ (∀ g, row g (_group_to_component_map s)
          ⊆ row g (_group_to_component_map s'))
  ∧ (∀ u t, row2 u t (_user_to_entity_map s)
            ⊆ row2 u t (_user_to_entity_map s'))
  ∧ (∀ g t, row2 g t (_group_to_entity_map s)
            ⊆ row2 g t (_group_to_entity_map s')).

(** The user an operation is called with, for the operations that take
    one. *)
Definition operation_user (op : Op) : option TUser :=
  match op with
  | AddUser u | RemoveUser u
  | AddUserToGroupMapping u _ | RemoveUserToGroupMapping u _
  | AddUserToComponentMapping u _ _ | RemoveUserToComponentMapping u _ _
  | AddUserToEntityMapping u _ _ | RemoveUserToEntityMapping u _ _ => Some u
  | _ => None
  end.

(** The operations on entity types, entities and entity mappings. *)
Definition is_entity_operation (op : Op) : bool :=
  match op with
  | AddEntityType _ | RemoveEntityType _ | AddEntity _ _ | RemoveEntity _ _
  | AddUserToEntityMapping _ _ _ | RemoveUserToEntityMapping _ _ _
  | AddGroupToEntityMapping _ _ _ | RemoveGroupToEntityMapping _ _ _ => true
  | _ => false
  end.

(** The operations on component mappings. *)
Definition is_component_operation (op : Op) : bool :=
  match op with
  | AddUserToComponentMapping _ _ _ | RemoveUserToComponentMapping _ _ _
  | AddGroupToComponentMapping _ _ _ | RemoveGroupToComponentMapping _ _ _ => true
  | _ => false
  end.

(** An action that records the groups it is invoked on and never asks to
    stop. *)
Definition record_groups : action TGroup (list TGroup) :=
  λ group visits, (Returned true, visits ++ [group]).

(** [list(g)] cut off after [n] calls of [next]: the items yielded until
    [StopIteration], and the generator left behind. *)
Fixpoint drain {I} (n : nat) (g : generator TUser TGroup TComponent TAccess I)
    (s : AM) : outcome (list I) * generator TUser TGroup TComponent TAccess I :=
  match n with
  | 0 => (Returned [], g)
  | S n' =>
    match next g s with
    | (Raised e, g') => (Raised e, g')
    | (Returned None, g') => (Returned [], g')
    | (Returned (Some x), g') =>
      match drain n' g' s with
      | (Returned xs, g'') => (Returned (x :: xs), g'')
      | (Raised e, g'') => (Raised e, g'')
      end
    end
  end.

End Grants.

(** ** A concrete instance: the types of the test suite *)

Inductive ApplicationScreen := ORDER | SUMMARY | MANAGE_PRODUCTS | SETTINGS.
Inductive AccessLevel := VIEW | CREATE | MODIFY | DELETE.

#[global] Instance ApplicationScreen_eq_dec : EqDecision ApplicationScreen.
Proof. solve_decision. Defined.
#[global] Instance AccessLevel_eq_dec : EqDecision AccessLevel.
Proof. solve_decision. Defined.

#[global] Instance ApplicationScreen_countable : Countable ApplicationScreen.
Proof.
  refine (inj_countable'
    (λ x, match x with ORDER => 0 | SUMMARY => 1 | MANAGE_PRODUCTS => 2 | SETTINGS => 3 end)
    (λ n, match n with 0 => ORDER | 1 => SUMMARY | 2 => MANAGE_PRODUCTS | _ => SETTINGS end) _).
  by intros [].
Defined.

#[global] Instance AccessLevel_countable : Countable AccessLevel.
Proof.
  refine (inj_countable'
    (λ x, match x with VIEW => 0 | CREATE => 1 | MODIFY => 2 | DELETE => 3 end)
    (λ n, match n with 0 => VIEW | 1 => CREATE | 2 => MODIFY | _ => DELETE end) _).
  by intros [].
Defined.

Abbreviation TestAccessManager :=
  (AccessManager string string ApplicationScreen AccessLevel).
Abbreviation TestOperation :=
  (operation string string ApplicationScreen AccessLevel).

(** Runs a list of calls that must all return, from a given store. *)
Fixpoint calls (fuel : nat) (ops : list TestOperation) (s : TestAccessManager)
    : option TestAccessManager :=
  match ops with
  | [] => Some s
  | op :: rest =>
    match call fuel op s with
    | Some (Returned _, s') => calls fuel rest s'
    | _ => None
    end
  end.

Definition built (ops : list TestOperation) : TestAccessManager :=
  default __init__ (calls 10 ops __init__).

(** Four groups in a diamond under one user:
    u -> g1, g1 -> g2, g1 -> g3, g2 -> g4, g3 -> g4. *)
Definition diamond_calls : list TestOperation :=
  [AddUser "u"; AddGroup "g1"; AddGroup "g2"; AddGroup "g3"; AddGroup "g4";
   AddUserToGroupMapping "u" "g1";
   AddGroupToGroupMapping "g1" "g2"; AddGroupToGroupMapping "g1" "g3";
   AddGroupToGroupMapping "g2" "g4"; AddGroupToGroupMapping "g3" "g4"].
Definition diamond : TestAccessManager := built diamond_calls.

(** An action that only records the groups it is invoked on, in order. *)
Definition record_visits : action string (list string) :=
  λ group visits, (Returned true, visits ++ [group]).

(** A user who is a member of a group. *)
Definition member_calls : list TestOperation :=
  [AddUser "u"; AddGroup "g"; AddUserToGroupMapping "u" "g"].
Definition member : TestAccessManager := built member_calls.

(** A group mapped to another group. *)
Definition nested_calls : list TestOperation :=
  [AddGroup "g"; AddGroup "h"; AddGroupToGroupMapping "g" "h"].
Definition nested : TestAccessManager := built nested_calls.

(** A user and a group, each with a single component mapping. *)
Definition single_mapping_calls : list TestOperation :=
  [AddUser "u"; AddGroup "g";
   AddUserToComponentMapping "u" ORDER VIEW;
   AddGroupToComponentMapping "g" ORDER VIEW].
Definition single_mapping : TestAccessManager := built single_mapping_calls.

(** A user and a group, not joined. *)
Definition unjoined_calls : list TestOperation := [AddUser "u"; AddGroup "g"].
Definition unjoined : TestAccessManager := built unjoined_calls.

(** Scenario S2: a chain g1 -> g2 -> g3 -> g4. *)
Definition chain_calls : list TestOperation :=
  [AddGroup "g1"; AddGroup "g2"; AddGroup "g3"; AddGroup "g4";
   AddGroupToGroupMapping "g1" "g2"; AddGroupToGroupMapping "g2" "g3";
   AddGroupToGroupMapping "g3" "g4"].
Definition chain : TestAccessManager := built chain_calls.

(** Scenario S3: u3 -> g2 -> g3, and g3 may view orders. *)
Definition component_scenario_calls : list TestOperation :=
  [AddUser "u1"; AddUser "u3"; AddGroup "g1"; AddGroup "g2"; AddGroup "g3";
   AddUserToGroupMapping "u3" "g2"; AddGroupToGroupMapping "g2" "g3";
   AddGroupToComponentMapping "g3" ORDER VIEW].
Definition component_scenario : TestAccessManager :=
  built component_scenario_calls.

(** Scenario S4: u2 holds CompanyA and CompanyB directly and reaches
    CompanyB and CompanyC through g2 -> g3. *)
Definition entity_scenario_calls : list TestOperation :=
  [AddUser "u2"; AddGroup "g2"; AddGroup "g3";
   AddEntityType "ClientAccount"; AddEntityType "BusinessUnit";
   AddEntity "ClientAccount" "CompanyA"; AddEntity "ClientAccount" "CompanyB";
   AddEntity "ClientAccount" "CompanyC"; AddEntity "ClientAccount" "CompanyD";
   AddEntity "BusinessUnit" "Marketing";
   AddUserToGroupMapping "u2" "g2"; AddGroupToGroupMapping "g2" "g3";
   AddUserToEntityMapping "u2" "ClientAccount" "CompanyA";
   AddUserToEntityMapping "u2" "ClientAccount" "CompanyB";
   AddGroupToEntityMapping "g3" "ClientAccount" "CompanyB";
   AddGroupToEntityMapping "g3" "ClientAccount" "CompanyC";
   AddGroupToEntityMapping "g2" "BusinessUnit" "Marketing"].
Definition entity_scenario : TestAccessManager := built entity_scenario_calls.

(** Scenario S4 with component mappings beside the entity mappings, a
    second user and a group that nobody is in. *)
Definition access_scenario_calls : list TestOperation :=
  entity_scenario_calls ++
  [AddUser "u1"; AddGroup "g1";
   AddUserToComponentMapping "u2" SUMMARY VIEW;
   AddGroupToComponentMapping "g3" ORDER VIEW;
   AddGroupToComponentMapping "g1" SETTINGS MODIFY;
   AddGroupToEntityMapping "g1" "ClientAccount" "CompanyD"].
Definition access_scenario : TestAccessManager := built access_scenario_calls.

(** The store a call leaves behind. *)
Definition store_after (fuel : nat) (op : TestOperation) (s : TestAccessManager)
    : TestAccessManager :=
  match call fuel op s with
  | Some (_, s') => s'
  | None => s
  end.

(** A rank that decreases along every edge of the stores above. *)
Definition descending_rank (g : string) : nat :=
  if decide (g = "g1") then 4
  else if decide (g = "g2") then 3
  else if decide (g = "g3") then 2
  else if decide (g = "g") then 2
  else 1.

(** Closes a decidable goal about the stores above by evaluating its
    decision procedure. *)
Ltac by_evaluation :=
  lazymatch goal with
  | |- ?P => apply (bool_decide_unpack P); vm_compute; exact I
  end.

(** * Properties *)

Section Properties.
Context `{Countable TUser, Countable TGroup,
          Countable TComponent, Countable TAccess}.

Local Abbreviation AM := (AccessManager TUser TGroup TComponent TAccess).
Implicit Types (s : AM) (d : gmap TGroup (gset TGroup)).

(* [set_solver] clears hypotheses it has already consumed. *)
Local Set Warnings "-clear-no-such-hyp".

(** ** The graph of groups *)

Lemma edge_insert d f t g h :
  edge (<[f := row f d ∪ {[t]}]> d) g h ↔ edge d g h ∨ (g = f ∧ h = t).
Proof.
  unfold edge, row. split.
  - intros (gs & Hgs & Hh). destruct (decide (f = g)) as [->|Hne].
    + rewrite lookup_insert_eq in Hgs. injection Hgs as <-.
      apply elem_of_union in Hh as [Hh|Hh].
      * left. destruct (d !! g) as [gs|] eqn:E; [eauto | set_solver].
      * right. set_solver.
    + rewrite lookup_insert_ne in Hgs by done. eauto.
  - intros [(gs & Hgs & Hh) | [-> ->]].
    + destruct (decide (f = g)) as [->|Hne].
      * eexists. rewrite lookup_insert_eq. split; [done|].
        rewrite Hgs. set_solver.
      * exists gs. by rewrite lookup_insert_ne.
    + eexists. rewrite lookup_insert_eq. split; [done | set_solver].
Qed.

Lemma tc_edge_insert d f t x y :
  tc (edge (<[f := row f d ∪ {[t]}]> d)) x y →
  tc (edge d) x y ∨ (rtc (edge d) x f ∧ rtc (edge d) t y).
Proof.
  induction 1 as [x y Hxy | x y z Hxy _ IH].
  - apply edge_insert in Hxy as [Hxy | [-> ->]].
    + left. by apply tc_once.
    + right. split; apply rtc_refl.
  - apply edge_insert in Hxy as [Hxy | [-> ->]].
    + destruct IH as [IH | [IH1 IH2]].
      * left. by eapply tc_l.
      * right. split; [by eapply rtc_l | done].
    + right. split; [apply rtc_refl|].
      destruct IH as [IH | [_ IH2]]; [by apply tc_rtc | done].
Qed.

(** An edge that closes no path back keeps the graph acyclic. *)
Lemma acyclic_insert d f t :
  acyclic d → ¬ rtc (edge d) t f → acyclic (<[f := row f d ∪ {[t]}]> d).
Proof.
  intros Hd Hno g Hg. apply tc_edge_insert in Hg as [Hg | [Hgf Htg]].
  - by apply (Hd g).
  - apply Hno. by etrans.
Qed.

Lemma acyclic_subgraph d d' :
  (∀ g h, edge d' g h → edge d g h) → acyclic d → acyclic d'.
Proof.
  intros Hsub Hd g Hg. apply (Hd g). revert Hg. generalize g at 2 4.
  intros g' Hg. induction Hg as [x y Hxy | x y z Hxy _ IH].
  - apply tc_once. by apply Hsub.
  - eapply tc_l; [by apply Hsub | done].
Qed.

(** A rank that strictly decreases along every edge. *)
Lemma acyclic_of_rank d (rank : TGroup → nat) :
  map_Forall (λ g gs, set_Forall (λ h, rank h < rank g) gs) d → acyclic d.
Proof.
  intros Hr g Hg.
  assert (∀ x y, tc (edge d) x y → rank y < rank x) as Hlt.
  { induction 1 as [x y (gs & Hgs & Hy) | x y z (gs & Hgs & Hy) _ IH].
    - by apply (Hr x gs).
    - specialize (Hr x gs Hgs y Hy). simpl in Hr. lia. }
  specialize (Hlt g g Hg). lia.
Qed.

Lemma rtc_edge_inv d g h :
  rtc (edge d) g h → h = g ∨ ∃ gs n, d !! g = Some gs ∧ n ∈ gs ∧ rtc (edge d) n h.
Proof.
  intros Hgh. destruct Hgh as [|g n h (gs & Hgs & Hn) Hnh]; [by left|].
  right. eauto.
Qed.

(** ** The traversal engine *)

(** *** Termination *)

Lemma for_each_edge_group_is_Some {VS}
    (body : TGroup → VS → option (outcome bool * VS)) visited l keep vs :
  (∀ g vs0, g ∈ l → is_Some (body g vs0)) →
  is_Some (for_each_edge_group body visited l keep vs).
Proof.
  revert keep vs. induction l as [|n l IH]; intros keep vs Hb; simpl; [done|].
  assert (∀ k vs0, is_Some (for_each_edge_group body visited l k vs0)) as IH'.
  { intros. apply IH. intros. apply Hb. set_solver. }
  destruct (decide (n ∉ visited)).
  - destruct (Hb n vs) as [[[k|e] vs1] ->]; [set_solver | |done].
    destruct k; [apply IH' | done].
  - destruct keep; [apply IH' | done].
Qed.

Lemma for_each_user_group_is_Some {VS}
    (body : TGroup → VS → option (outcome bool * VS)) l vs :
  (∀ g vs0, g ∈ l → is_Some (body g vs0)) →
  is_Some (for_each_user_group body l vs).
Proof.
  revert vs. induction l as [|n l IH]; intros vs Hb; simpl; [done|].
  destruct (Hb n vs) as [[[k|e] vs1] ->]; [set_solver | |done].
  apply IH. intros. apply Hb. set_solver.
Qed.

(** On an acyclic graph the recursion depth is bounded by the number of
    groups that have a row: the groups on the current path are distinct
    and all but the last have one. *)
Lemma recurse_terminates {VS} s (act : action TGroup VS) visited :
  acyclic (_group_to_group_graph_edges s) →
  ∀ fuel (path : gset TGroup) g vs,
    (∀ p, p ∈ path → tc (edge (_group_to_group_graph_edges s)) p g) →
    size (dom (_group_to_group_graph_edges s) ∖ path) < fuel →
    is_Some (_traverse_user_and_group_graph_from_group_recurse
               fuel s g visited act vs).
Proof.
  intros Hacyc. induction fuel as [|fuel IH]; intros path g vs Hpath Hsize; [lia|].
  simpl. destruct (act g vs) as [[keep|e] vs1]; [|done].
  destruct (_group_to_group_graph_edges s !! g) as [gs|] eqn:Hg; [|done].
  apply for_each_edge_group_is_Some. intros h vs2 Hh%elem_of_elements.
  assert (edge (_group_to_group_graph_edges s) g h) as Hgh by (exists gs; done).
  apply (IH (path ∪ {[g]})).
  - intros p [Hp | ->%elem_of_singleton]%elem_of_union.
    + eapply tc_r; [by apply Hpath | done].
    + by apply tc_once.
  - assert (g ∉ path) as Hnp by (intros Hp; exact (Hacyc g (Hpath g Hp))).
    assert (g ∈ dom (_group_to_group_graph_edges s)) as Hd
      by (apply elem_of_dom; eauto).
    assert (dom (_group_to_group_graph_edges s) ∖ (path ∪ {[g]})
            ⊂ dom (_group_to_group_graph_edges s) ∖ path) as Hsub.
    { split.
      - intros x [Hx Hn]%elem_of_difference. apply elem_of_difference.
        split; [done|]. intros Hin. apply Hn, elem_of_union. by left.
      - intros Hc.
        assert (g ∈ dom (_group_to_group_graph_edges s) ∖ (path ∪ {[g]}))
          as [_ Hg']%elem_of_difference
          by (apply Hc, elem_of_difference; done).
        apply Hg', elem_of_union. right. by apply elem_of_singleton. }
    apply subset_size in Hsub. lia.
Qed.

Lemma recurse_terminates_from_start {VS} s (act : action TGroup VS) visited fuel g vs :
  acyclic (_group_to_group_graph_edges s) →
  size (dom (_group_to_group_graph_edges s)) < fuel →
  is_Some (_traverse_user_and_group_graph_from_group_recurse
             fuel s g visited act vs).
Proof.
  intros Hacyc Hfuel. apply (recurse_terminates s act visited Hacyc fuel ∅).
  - set_solver.
  - by rewrite difference_empty_L.
Qed.

Lemma traverse_from_user_terminates {VS} s (act : action TGroup VS) fuel u vs :
  acyclic (_group_to_group_graph_edges s) →
  size (dom (_group_to_group_graph_edges s)) < fuel →
  is_Some (_traverse_user_and_group_graph_from_user fuel s u act vs).
Proof.
  intros Hacyc Hfuel. unfold _traverse_user_and_group_graph_from_user.
  destruct (decide (u ∉ _users s)); [done|].
  destruct (_user_to_group_graph_edges s !! u); [|done].
  apply for_each_user_group_is_Some. intros.
  by apply recurse_terminates_from_start.
Qed.

(** *** The visits of a traversal *)

Lemma invoke_all_app {VS} (act : action TGroup VS) l1 l2 vs :
  invoke_all act (l1 ++ l2) vs =
  match invoke_all act l1 vs with
  | (Returned a1, vs1) =>
    match invoke_all act l2 vs1 with
    | (Returned a2, vs2) => (Returned (a1 && a2), vs2)
    | (Raised e, vs2) => (Raised e, vs2)
    end
  | (Raised e, vs1) => (Raised e, vs1)
  end.
Proof.
  revert vs. induction l1 as [|g l1 IH]; intros vs; simpl.
  - by destruct (invoke_all act l2 vs) as [[a2|e] vs2].
  - destruct (act g vs) as [[k|e] vs0]; [|done]. rewrite IH.
    destruct (invoke_all act l1 vs0) as [[a1|e] vs1]; [|done].
    destruct (invoke_all act l2 vs1) as [[a2|e] vs2]; [|done].
    by rewrite andb_assoc.
Qed.

(** The neighbour loop, given what each recursive call does. *)
Lemma for_each_edge_group_visits {VS} (act : action TGroup VS) d
    (body : TGroup → VS → option (outcome bool * VS)) l :
  (∀ n vs r vs', n ∈ l → body n vs = Some (r, vs') →
     ∃ visits, visits_explain act (rtc (edge d) n) (λ k, k = true) visits vs r vs') →
  ∀ keep vs r vs',
    for_each_edge_group body ∅ l keep vs = Some (r, vs') →
    ∃ visits ra,
      invoke_all act visits vs = (ra, vs')
      ∧ Forall (λ h, ∃ n, n ∈ l ∧ rtc (edge d) n h) visits
      ∧ (∀ e, r = Raised e ↔ ra = Raised e)
      ∧ (keep = true → ra = Returned true →
         r = Returned true ∧ ∀ n h, n ∈ l → rtc (edge d) n h → h ∈ visits).
Proof.
  induction l as [|n l IH]; intros Hbody keep vs r vs' Hrun; simpl in Hrun.
  - injection Hrun as <- <-. exists [], (Returned true). simpl.
    split_and!; [done | constructor | done |].
    intros -> _. split; [done|]. intros ? ? Hin. by apply elem_of_nil in Hin.
  - destruct (decide (n ∉ ∅)) as [_|Hn]; [|exfalso; apply Hn; set_solver].
    destruct (body n vs) as [[r1 vs1]|] eqn:Hb; [|done].
    destruct (Hbody n vs r1 vs1) as (visits1 & ra1 & Hinv1 & Hreach1 & Hraise1 & Hall1);
      [apply elem_of_cons; by left | done |].
    assert (Forall (λ h, ∃ n0, n0 ∈ n :: l ∧ rtc (edge d) n0 h) visits1) as Hreach1'.
    { eapply Forall_impl; [exact Hreach1|]. intros h Hh. exists n.
      split; [apply elem_of_cons; by left | done]. }
    destruct r1 as [[|]|e].
    + (* the call returned True: the loop goes on *)
      destruct (IH (λ n0 vs0 r0 vs0' Hin, Hbody n0 vs0 r0 vs0' (list_elem_of_further _ _ _ Hin))
                   true vs1 r vs' Hrun)
        as (visits2 & ra2 & Hinv2 & Hreach2 & Hraise2 & Hall2).
      destruct ra1 as [a1|e1]; [|discriminate (proj2 (Hraise1 e1) eq_refl)].
      exists (visits1 ++ visits2). rewrite invoke_all_app, Hinv1, Hinv2.
      destruct ra2 as [a2|e2].
      * exists (Returned (a1 && a2)). split_and!; [done | | |].
        -- apply Forall_app. split; [done|].
           eapply Forall_impl; [exact Hreach2|]. intros h (n0 & Hn0 & Hh).
           exists n0. split; [apply elem_of_cons; by right | done].
        -- intros e. split; [|done]. intros He. by apply Hraise2 in He.
        -- intros _ [= [-> ->]%andb_true_iff].
           destruct (Hall1 eq_refl) as [_ Hcov1].
           destruct (Hall2 eq_refl eq_refl) as [-> Hcov2]. split; [done|].
           intros n0 h [->|Hn0]%elem_of_cons Hh; apply elem_of_app; eauto.
      * exists (Raised e2). split_and!; [done | | | done].
        -- apply Forall_app. split; [done|].
           eapply Forall_impl; [exact Hreach2|]. intros h (n0 & Hn0 & Hh).
           exists n0. split; [apply elem_of_cons; by right | done].
        -- intros e. apply Hraise2.
    + (* the call returned False: break *)
      injection Hrun as <- <-. exists visits1, ra1. split_and!; [done..|].
      intros _ ->. by destruct (Hall1 eq_refl) as [(k & [= <-] & ?) _].
    + (* the call raised *)
      injection Hrun as <- <-. exists visits1, ra1. split_and!; [done..|].
      intros _ ->. by destruct (Hall1 eq_refl) as [(k & ? & _) _].
Qed.

(** The recursive helper, started with the empty visited set as both
    callers start it: the action is invoked on a sequence of groups
    reachable from [g], and on every one of them if no call stopped the
    traversal. *)
Lemma recurse_visits {VS} (act : action TGroup VS) s fuel :
  ∀ g vs r vs',
    _traverse_user_and_group_graph_from_group_recurse fuel s g ∅ act vs
      = Some (r, vs') →
    ∃ visits,
      visits_explain act (rtc (edge (_group_to_group_graph_edges s)) g)
        (λ k, k = true) visits vs r vs'.
Proof.
  induction fuel as [|fuel IH]; intros g vs r vs' Hrun; [done|].
  simpl in Hrun. destruct (act g vs) as [[k0|e] vs1] eqn:Hact.
  - destruct (_group_to_group_graph_edges s !! g) as [gs|] eqn:Hg.
    + eapply for_each_edge_group_visits in Hrun
        as (visits2 & ra2 & Hinv2 & Hreach2 & Hraise2 & Hall2);
        [|intros n vs0 r0 vs0' _; apply IH].
      exists (g :: visits2). unfold visits_explain. simpl. rewrite Hact, Hinv2.
      assert (Forall (rtc (edge (_group_to_group_graph_edges s)) g) (g :: visits2)).
      { constructor; [done|]. eapply Forall_impl; [exact Hreach2|].
        intros h (n & Hn%elem_of_elements & Hh). eapply rtc_l; [|done]. by exists gs. }
      destruct ra2 as [a2|e2].
      * exists (Returned (k0 && a2)). split_and!; [done | done | |].
        -- intros e. split; [|done]. intros He. by apply Hraise2 in He.
        -- intros [= [-> ->]%andb_true_iff].
           destruct (Hall2 eq_refl eq_refl) as [-> Hcov]. split; [eauto|].
           intros h [->|(gs' & n & Hgs' & Hn & Hh)]%rtc_edge_inv;
             [apply elem_of_cons; by left|].
           apply elem_of_cons. right. apply (Hcov n); [|done].
           apply elem_of_elements. congruence.
      * exists (Raised e2). split_and!; [done | done | apply Hraise2 | done].
    + injection Hrun as <- <-. exists [g]. unfold visits_explain. simpl.
      rewrite Hact. exists (Returned (k0 && true)). split_and!; [done | | done |].
      * by constructor.
      * intros [= [-> _]%andb_true_iff]. split; [eauto|].
        intros h [->|(gs' & n & Hgs' & _)]%rtc_edge_inv;
          [by apply list_elem_of_singleton | congruence].
  - injection Hrun as <- <-. exists [g]. unfold visits_explain. simpl.
    rewrite Hact. exists (Raised e). split_and!; [done | | done | done].
    by constructor.
Qed.

(** The loop over the groups of the start user: no break, the returned
    value of each call is dropped. *)
Lemma for_each_user_group_visits {VS} (act : action TGroup VS) d
    (body : TGroup → VS → option (outcome bool * VS)) l :
  (∀ n vs r vs', n ∈ l → body n vs = Some (r, vs') →
     ∃ visits, visits_explain act (rtc (edge d) n) (λ k, k = true) visits vs r vs') →
  ∀ vs r vs',
    for_each_user_group body l vs = Some (r, vs') →
    ∃ visits,
      visits_explain act (λ h, ∃ n, n ∈ l ∧ rtc (edge d) n h) (λ _ : (), True)
        visits vs r vs'.
Proof.
  induction l as [|n l IH]; intros Hbody vs r vs' Hrun; simpl in Hrun.
  - injection Hrun as <- <-. exists [], (Returned true). simpl.
    split_and!; [done | constructor | done |].
    intros _. split; [by exists ()|]. intros h (n & Hin & _).
    by apply elem_of_nil in Hin.
  - destruct (body n vs) as [[r1 vs1]|] eqn:Hb; [|done].
    destruct (Hbody n vs r1 vs1) as (visits1 & ra1 & Hinv1 & Hreach1 & Hraise1 & Hall1);
      [apply elem_of_cons; by left | done |].
    assert (Forall (λ h, ∃ n0, n0 ∈ n :: l ∧ rtc (edge d) n0 h) visits1) as Hreach1'.
    { eapply Forall_impl; [exact Hreach1|]. intros h Hh. exists n.
      split; [apply elem_of_cons; by left | done]. }
    destruct r1 as [k1|e].
    + destruct (IH (λ n0 vs0 r0 vs0' Hin, Hbody n0 vs0 r0 vs0' (list_elem_of_further _ _ _ Hin))
                   vs1 r vs' Hrun)
        as (visits2 & ra2 & Hinv2 & Hreach2 & Hraise2 & Hall2).
      assert (Forall (λ h, ∃ n0, n0 ∈ n :: l ∧ rtc (edge d) n0 h) visits2) as Hreach2'.
      { eapply Forall_impl; [exact Hreach2|]. intros h (n0 & Hn0 & Hh).
        exists n0. split; [|done]. apply elem_of_cons. by right. }
      destruct ra1 as [a1|e1]; [|discriminate (proj2 (Hraise1 e1) eq_refl)].
      exists (visits1 ++ visits2). unfold visits_explain.
      rewrite invoke_all_app, Hinv1, Hinv2.
      destruct ra2 as [a2|e2].
      * exists (Returned (a1 && a2)). split_and!; [done | by apply Forall_app | |].
        -- intros e. split; [|done]. intros He. by apply Hraise2 in He.
        -- intros [= [-> ->]%andb_true_iff].
           destruct (Hall1 eq_refl) as [_ Hcov1].
           destruct (Hall2 eq_refl) as [Hk Hcov2]. split; [done|].
           intros h (n0 & [->|Hn0]%elem_of_cons & Hh); apply elem_of_app; eauto.
      * exists (Raised e2). split_and!; [done | by apply Forall_app | apply Hraise2 | done].
    + injection Hrun as <- <-. exists visits1, ra1. split_and!; [done | done | |].
      * intros e'. split; [intros [= <-]; by apply Hraise1 | intros Hra].
        apply Hraise1 in Hra. by injection Hra as ->.
      * intros ->. destruct (Hall1 eq_refl) as [(k & ? & _) _]. done.
Qed.

Lemma visits_explain_reach {VS R} (act : action TGroup VS)
    (reach reach' : TGroup → Prop) (kept : R → Prop) visits vs r vs' :
  (∀ h, reach h ↔ reach' h) →
  visits_explain act reach kept visits vs r vs' →
  visits_explain act reach' kept visits vs r vs'.
Proof.
  intros Hiff (ra & Hinv & Hreach & Hraise & Hall). exists ra.
  split_and!; [done | | done |].
  - eapply Forall_impl; [exact Hreach|]. intros h. apply Hiff.
  - intros Hra. destruct (Hall Hra) as [Hk Hcov]. split; [done|].
    intros h Hh. by apply Hcov, Hiff.
Qed.

(** The whole traversal from a user: a sequence of visits of groups
    reachable from the user, missing none if no call stopped it. *)
Lemma traverse_from_user_visits {VS} (act : action TGroup VS) s fuel u vs r vs' :
  u ∈ _users s →
  _traverse_user_and_group_graph_from_user fuel s u act vs = Some (r, vs') →
  ∃ visits,
    visits_explain act (reachable_from_user s u) (λ _ : (), True) visits vs r vs'.
Proof.
  intros Hu Hrun. unfold _traverse_user_and_group_graph_from_user in Hrun.
  destruct (decide (u ∉ _users s)) as [|_]; [done|].
  destruct (_user_to_group_graph_edges s !! u) as [gs|] eqn:Hgs.
  - eapply for_each_user_group_visits in Hrun as [visits Hv];
      [|intros n vs0 r0 vs0' _; apply recurse_visits].
    exists visits. eapply visits_explain_reach; [|exact Hv].
    intros h. unfold reachable_from_user, row. rewrite Hgs. simpl.
    split; intros (g0 & Hg0 & Hh); exists g0; split; try done;
      by apply elem_of_elements.
  - injection Hrun as <- <-. exists [], (Returned true). simpl.
    split_and!; [done | constructor | done |].
    intros _. split; [by exists ()|].
    intros h (g0 & Hg0 & _). unfold row in Hg0. rewrite Hgs in Hg0.
    by apply not_elem_of_empty in Hg0.
Qed.

(** *** What each kind of action makes of a sequence of visits *)

(** An action that raises a flag at the groups satisfying [hit], and asks
    to stop there. *)
Lemma invoke_all_flag (act : action TGroup bool) (hit : TGroup → Prop)
    `{!∀ g, Decision (hit g)} :
  (∀ g b, hit g → act g b = (Returned false, true)) →
  (∀ g b, ¬ hit g → act g b = (Returned true, b)) →
  ∀ l b, ∃ every : bool,
    invoke_all act l b = (Returned every, if every then b else true)
    ∧ (every = true → ∀ h, h ∈ l → ¬ hit h)
    ∧ (every = false → ∃ h, h ∈ l ∧ hit h).
Proof.
  intros Hhit Hmiss. induction l as [|g l IH]; intros b; simpl.
  - exists true. split_and!; [done | | done].
    intros _ h Hh. by apply elem_of_nil in Hh.
  - destruct (decide (hit g)) as [Hg|Hg].
    + rewrite (Hhit g b Hg). destruct (IH true) as (every & -> & _).
      exists false. split_and!; [by destruct every | done |].
      intros _. exists g. split; [apply elem_of_cons; by left | done].
    + rewrite (Hmiss g b Hg). destruct (IH b) as (every & -> & Hnone & Hsome).
      exists every. split_and!; [done | |].
      * intros Hall h [->|Hh]%elem_of_cons; [done | by apply Hnone].
      * intros Hall. destruct (Hsome Hall) as (h & Hh & Hhit').
        exists h. split; [apply elem_of_cons; by right | done].
Qed.

Lemma invoke_all_collect entity_type
    (gem : gmap TGroup (gmap string (gset string))) l :
  ∀ acc, ∃ acc',
    invoke_all (_AddMappedEntitiesToSetTraverserAction entity_type gem) l acc
      = (Returned true, acc')
    ∧ ∀ e, e ∈ acc' ↔ e ∈ acc ∨ ∃ h, h ∈ l ∧ e ∈ row2 h entity_type gem.
Proof.
  induction l as [|g l IH]; intros acc; simpl.
  - exists acc. split; [done|]. intros e. split; [by left|].
    intros [He | (h & Hh & _)]; [done | by apply elem_of_nil in Hh].
  - assert (∃ acc0, _AddMappedEntitiesToSetTraverserAction entity_type gem g acc
                    = (Returned true, acc0)
              ∧ ∀ e, e ∈ acc0 ↔ e ∈ acc ∨ e ∈ row2 g entity_type gem)
      as (acc0 & -> & Hacc0).
    { unfold _AddMappedEntitiesToSetTraverserAction, row2.
      destruct (gem !! g) as [by_type|]; simpl;
        [destruct (by_type !! entity_type) as [es|]; simpl|];
        eexists; (split; [done|]); intros e;
        [apply elem_of_union | |];
        (split; [by left | intros [He|He]; [done | by apply not_elem_of_empty in He]]). }
    destruct (IH acc0) as (acc' & -> & Hacc'). exists acc'. split; [done|].
    intros e. rewrite Hacc', Hacc0. split.
    + intros [[He|He] | (h & Hh & He)]; [by left | right; exists g | right; exists h];
        (split; [apply elem_of_cons|done]); [by left | by right].
    + intros [He | (h & [->|Hh]%elem_of_cons & He)]; [by left; left | by left; right |].
      right. by exists h.
Qed.

Lemma invoke_all_check_circular (check_group : TGroup) l :
  invoke_all (_CheckForCircularReferenceTraverserAction check_group) l ()
  = (if decide (check_group ∈ l) then Raised CircularReference else Returned true, ()).
Proof.
  induction l as [|g l IH]; simpl.
  - destruct (decide (check_group ∈ [])) as [Hin|_]; [by apply elem_of_nil in Hin | done].
  - unfold _CheckForCircularReferenceTraverserAction at 1.
    destruct (decide (g = check_group)) as [->|Hne].
    + destruct (decide (check_group ∈ check_group :: l)) as [_|Hn]; [done|].
      exfalso. apply Hn, elem_of_cons. by left.
    + rewrite IH. destruct (decide (check_group ∈ l)) as [Hin|Hnin].
      * destruct (decide (check_group ∈ g :: l)) as [_|Hn]; [done|].
        exfalso. apply Hn, elem_of_cons. by right.
      * destruct (decide (check_group ∈ g :: l)) as [[->|Hin]%elem_of_cons|_]; done.
Qed.

Lemma invoke_all_returns {VS} (act : action TGroup VS) :
  (∀ g vs, ∃ k vs', act g vs = (Returned k, vs')) →
  ∀ l vs, ∃ every vs', invoke_all act l vs = (Returned every, vs').
Proof.
  intros Hact. induction l as [|g l IH]; intros vs; simpl; [eauto|].
  destruct (Hact g vs) as (k & vs0 & ->).
  destruct (IH vs0) as (every & vs' & ->). eauto.
Qed.

(** *** Traversals with a flag-raising action, and with the collecting one *)

Lemma traverse_flag s fuel u (act : action TGroup bool) (hit : TGroup → Prop)
    `{!∀ g, Decision (hit g)} :
  acyclic (_group_to_group_graph_edges s) →
  size (dom (_group_to_group_graph_edges s)) < fuel →
  u ∈ _users s →
  (∀ g b, hit g → act g b = (Returned false, true)) →
  (∀ g b, ¬ hit g → act g b = (Returned true, b)) →
  ∃ b, _traverse_user_and_group_graph_from_user fuel s u act false
         = Some (Returned (), b)
       ∧ (b = true ↔ ∃ g, reachable_from_user s u g ∧ hit g).
Proof.
  intros Hac Hfuel Hu Hhit Hmiss.
  destruct (traverse_from_user_terminates s act fuel u false Hac Hfuel)
    as [[r b] Hrun].
  destruct (traverse_from_user_visits act s fuel u false r b Hu Hrun)
    as (visits & ra & Hinv & Hreach & Hraise & Hall).
  destruct (invoke_all_flag act hit Hhit Hmiss visits false)
    as (every & Hinv' & Hnone & Hsome).
  rewrite Hinv in Hinv'. injection Hinv' as -> ->.
  assert (r = Returned ()) as ->.
  { destruct r as [[]|e]; [done|]. discriminate (proj1 (Hraise e) eq_refl). }
  eexists. split; [exact Hrun|]. destruct every.
  - split; [done|]. intros (g & Hg & Hhitg).
    destruct (Hall eq_refl) as [_ Hcov]. destruct (Hnone eq_refl g); auto.
  - split; [|done]. intros _. destruct (Hsome eq_refl) as (h & Hh & Hhit').
    exists h. split; [|done]. by apply (proj1 (Forall_forall _ _) Hreach).
Qed.

Lemma traverse_collect s fuel u entity_type :
  acyclic (_group_to_group_graph_edges s) →
  size (dom (_group_to_group_graph_edges s)) < fuel →
  u ∈ _users s →
  ∃ acc, _traverse_user_and_group_graph_from_user fuel s u
           (_AddMappedEntitiesToSetTraverserAction entity_type (_group_to_entity_map s)) ∅
         = Some (Returned (), acc)
       ∧ ∀ e, e ∈ acc ↔
           ∃ g, reachable_from_user s u g
                ∧ e ∈ row2 g entity_type (_group_to_entity_map s).
Proof.
  intros Hac Hfuel Hu.
  destruct (traverse_from_user_terminates s
              (_AddMappedEntitiesToSetTraverserAction entity_type (_group_to_entity_map s))
              fuel u ∅ Hac Hfuel) as [[r acc] Hrun].
  destruct (traverse_from_user_visits _ s fuel u ∅ r acc Hu Hrun)
    as (visits & ra & Hinv & Hreach & Hraise & Hall).
  destruct (invoke_all_collect entity_type (_group_to_entity_map s) visits ∅)
    as (acc' & Hinv' & Hacc).
  rewrite Hinv in Hinv'. injection Hinv' as -> ->.
  assert (r = Returned ()) as ->.
  { destruct r as [[]|e]; [done|]. discriminate (proj1 (Hraise e) eq_refl). }
  exists acc'. split; [done|]. intros e. rewrite Hacc.
  destruct (Hall eq_refl) as [_ Hcov]. split.
  - intros [He | (h & Hh & He)]; [by apply not_elem_of_empty in He|].
    exists h. split; [|done]. by apply (proj1 (Forall_forall _ _) Hreach).
  - intros (g & Hg & He). right. exists g. auto.
Qed.

Lemma check_for_access_hit (c : TComponent) (a : TAccess)
    (gcm : gmap TGroup (gset (TComponent * TAccess))) g b :
  (c, a) ∈ row g gcm →
  _CheckForAccessTraverserAction c a gcm g b = (Returned false, true).
Proof.
  unfold _CheckForAccessTraverserAction, row. destruct (gcm !! g) as [cas|]; simpl.
  - intros Hin. by destruct (decide ((c, a) ∈ cas)).
  - intros Hin. by apply not_elem_of_empty in Hin.
Qed.

Lemma check_for_access_miss (c : TComponent) (a : TAccess)
    (gcm : gmap TGroup (gset (TComponent * TAccess))) g b :
  (c, a) ∉ row g gcm →
  _CheckForAccessTraverserAction c a gcm g b = (Returned true, b).
Proof.
  unfold _CheckForAccessTraverserAction, row. destruct (gcm !! g) as [cas|]; simpl.
  - intros Hin. by destruct (decide ((c, a) ∈ cas)).
  - done.
Qed.

Lemma check_for_entity_mapping_hit t e
    (gem : gmap TGroup (gmap string (gset string))) g b :
  e ∈ row2 g t gem →
  _CheckForEntityMappingTraverserAction t e gem g b = (Returned false, true).
Proof.
  unfold _CheckForEntityMappingTraverserAction, row2.
  destruct (gem !! g) as [by_type|]; simpl;
    [destruct (by_type !! t) as [es|]; simpl|].
  - intros Hin. by destruct (decide (e ∈ es)).
  - intros Hin. by apply not_elem_of_empty in Hin.
  - rewrite lookup_empty. intros Hin. by apply not_elem_of_empty in Hin.
Qed.

Lemma check_for_entity_mapping_miss t e
    (gem : gmap TGroup (gmap string (gset string))) g b :
  e ∉ row2 g t gem →
  _CheckForEntityMappingTraverserAction t e gem g b = (Returned true, b).
Proof.
  unfold _CheckForEntityMappingTraverserAction, row2.
  destruct (gem !! g) as [by_type|]; simpl;
    [destruct (by_type !! t) as [es|]; simpl|]; try done.
  intros Hin. by destruct (decide (e ∈ es)).
Qed.

(** A mapped entity is a declared one, by referential integrity. *)
Lemma row2_declared `{Countable K} (entities : gmap string (gset string))
    (dd : gmap K (gmap string (gset string))) k t e :
  entity_rows_declared entities dd → e ∈ row2 k t dd →
  ∃ declared, entities !! t = Some declared ∧ e ∈ declared.
Proof.
  intros Hdecl. unfold row2.
  destruct (dd !! k) as [by_type|] eqn:Hk; simpl;
    [destruct (by_type !! t) as [es|] eqn:Ht; simpl|].
  - intros He. destruct (Hdecl k by_type t es Hk Ht) as (declared & Hd & Hsub).
    exists declared. split; [done|]. by apply Hsub.
  - intros He. by apply not_elem_of_empty in He.
  - rewrite lookup_empty. intros He. by apply not_elem_of_empty in He.
Qed.

Lemma has_access_to_entity_spec s fuel u t e declared :
  acyclic (_group_to_group_graph_edges s) →
  size (dom (_group_to_group_graph_edges s)) < fuel →
  u ∈ _users s → _entities s !! t = Some declared → e ∈ declared →
  ∃ b, has_access_to_entity fuel s u t e = Some (Returned b)
       ∧ (b = true ↔
          e ∈ row2 u t (_user_to_entity_map s)
          ∨ ∃ g, reachable_from_user s u g
                 ∧ e ∈ row2 g t (_group_to_entity_map s)).
Proof.
  intros Hac Hfuel Hu Ht He. unfold has_access_to_entity. rewrite Ht.
  destruct (decide (e ∉ declared)) as [|_]; [done|].
  destruct (decide (u ∉ _users s)) as [|_]; [done|].
  destruct (decide (e ∈ row2 u t (_user_to_entity_map s))) as [Hdirect|Hdirect].
  - exists true. split; [done|]. split; [by left | done].
  - destruct (traverse_flag s fuel u
                (_CheckForEntityMappingTraverserAction t e (_group_to_entity_map s))
                (λ g, e ∈ row2 g t (_group_to_entity_map s)) Hac Hfuel Hu)
      as (b & -> & Hb).
    + intros. by apply check_for_entity_mapping_hit.
    + intros. by apply check_for_entity_mapping_miss.
    + exists b. split; [done|]. rewrite Hb. split; [by right|].
      by intros [Hd|Hg].
Qed.

(** ** Termination of the traversal *)

(** C8. On a store whose group-to-group edges are acyclic, with an action
    that never raises, the traversal from any start user terminates once
    the fuel exceeds the number of rows of the edge dict: it returns
    normally for a known user and raises the not-found error for an
    unknown one.  The recursive helper terminates whatever the visited
    set it is handed, which the recursion never adds to. *)
Theorem traversal_terminates_on_acyclic_graph {VS}
    s (act : action TGroup VS) fuel u vs :
  acyclic (_group_to_group_graph_edges s) →
  (∀ g vs0, ∃ k vs1, act g vs0 = (Returned k, vs1)) →
  size (dom (_group_to_group_graph_edges s)) < fuel →
  (∀ g visited vs0,
     is_Some (_traverse_user_and_group_graph_from_group_recurse
                fuel s g visited act vs0))
  ∧ ∃ r vs',
      _traverse_user_and_group_graph_from_user fuel s u act vs = Some (r, vs')
      ∧ (u ∈ _users s → r = Returned ())
      ∧ (u ∉ _users s → r = Raised (NotFound User "start_user")).
Proof.
  intros Hac Hact Hfuel. split.
  - intros. by apply recurse_terminates_from_start.
  - destruct (traverse_from_user_terminates s act fuel u vs Hac Hfuel)
      as [[r vs'] Hrun].
    exists r, vs'. split; [done|]. split.
    + intros Hu.
      destruct (traverse_from_user_visits act s fuel u vs r vs' Hu Hrun)
        as (visits & ra & Hinv & _ & Hraise & _).
      destruct (invoke_all_returns act Hact visits vs) as (every & vs0 & Hret).
      rewrite Hinv in Hret. injection Hret as -> ->.
      destruct r as [[]|e]; [done|]. discriminate (proj1 (Hraise e) eq_refl).
    + intros Hu. unfold _traverse_user_and_group_graph_from_user in Hrun.
      destruct (decide (u ∉ _users s)); [|done]. by injection Hrun as <- _.
Qed.

(** ** The cycle check of [add_group_to_group_mapping] *)

Lemma edge_row d f t : edge d f t ↔ t ∈ row f d.
Proof.
  unfold edge, row. split.
  - intros (gs & -> & Ht). done.
  - destruct (d !! f) as [gs|]; simpl; [eauto|].
    intros Ht. by apply not_elem_of_empty in Ht.
Qed.

(** What the cycle check decides, for two distinct groups of the store not
    yet joined: the call raises the circular-reference error exactly when
    [from_group] can be reached from [to_group], and then leaves the store
    as it was; otherwise it returns, the store differs by the new edge
    only, and the edges are still acyclic. *)
Lemma add_group_to_group_mapping_spec s fuel from_group to_group :
  acyclic (_group_to_group_graph_edges s) →
  from_group ∈ _groups s → to_group ∈ _groups s → from_group ≠ to_group →
  ¬ edge (_group_to_group_graph_edges s) from_group to_group →
  size (dom (_group_to_group_graph_edges s)) < fuel →
  ∃ r s',
    add_group_to_group_mapping fuel from_group to_group s = Some (r, s')
    ∧ (r = Raised CircularReference
       ↔ rtc (edge (_group_to_group_graph_edges s)) to_group from_group)
    ∧ (r = Raised CircularReference → s' = s)
    ∧ (r ≠ Raised CircularReference →
       r = Returned ()
       ∧ s' = set_group_to_group_graph_edges
                (λ d, <[from_group := row from_group d ∪ {[to_group]}]> d) s
       ∧ acyclic (_group_to_group_graph_edges s')).
Proof.
  intros Hac Hf Ht Hne Hnew Hfuel. unfold add_group_to_group_mapping.
  destruct (decide (from_group ∉ _groups s)) as [|_]; [done|].
  destruct (decide (to_group ∉ _groups s)) as [|_]; [done|].
  destruct (decide (from_group = to_group)) as [|_]; [done|].
  destruct (decide (to_group ∈ row from_group (_group_to_group_graph_edges s)))
    as [Hin|_]; [by apply edge_row in Hin|].
  destruct (recurse_terminates_from_start s
              (_CheckForCircularReferenceTraverserAction from_group)
              ∅ fuel to_group () Hac Hfuel) as [[r0 []] Hrun].
  rewrite Hrun.
  destruct (recurse_visits _ s fuel to_group () r0 () Hrun)
    as (visits & ra & Hinv & Hreach & Hraise & Hall).
  rewrite invoke_all_check_circular in Hinv.
  destruct (decide (from_group ∈ visits)) as [Hvis|Hvis]; injection Hinv as <-.
  - (* the traversal met [from_group] *)
    assert (r0 = Raised CircularReference) as -> by by apply Hraise.
    eexists _, _. split; [done|]. split_and!; [|done|done].
    split; [|done]. intros _. by apply (proj1 (Forall_forall _ _) Hreach).
  - (* it visited everything reachable and did not meet it *)
    destruct (Hall eq_refl) as [(k & -> & _) Hcov].
    assert (¬ rtc (edge (_group_to_group_graph_edges s)) to_group from_group)
      as Hno by (intros Hr; by apply Hvis, Hcov).
    eexists _, _. split; [done|]. split_and!; [done | done |].
    intros _. split_and!; [done | done |]. simpl. by apply acyclic_insert.
Qed.

(** ** Access to an application component *)

(** C5. On a store satisfying the global invariants,
    [has_access_to_application_component] returns without error; it
    returns false for an unknown user, and for a known user it returns
    true exactly when the pair is mapped to the user directly or to a
    group reached by one user-to-group edge followed by any number of
    group-to-group edges. *)
Theorem has_access_to_application_component_correct
    s fuel u (c : TComponent) (a : TAccess) :
  global_invariants s →
  size (dom (_group_to_group_graph_edges s)) < fuel →
  ∃ b, has_access_to_application_component fuel s u c a = Some (Returned b)
       ∧ (u ∉ _users s → b = false)
       ∧ (u ∈ _users s →
          (b = true ↔
           (c, a) ∈ row u (_user_to_component_map s)
           ∨ ∃ g, reachable_from_user s u g
                  ∧ (c, a) ∈ row g (_group_to_component_map s))).
Proof.
  intros Hinv Hfuel. unfold has_access_to_application_component.
  destruct (decide (u ∉ _users s)) as [Hu|Hu].
  { exists false. by split_and!. }
  apply dec_stable in Hu.
  destruct (decide ((c, a) ∈ row u (_user_to_component_map s))) as [Hdirect|Hdirect].
  { exists true. split_and!; [done | done |]. intros _. split; [by left | done]. }
  destruct (traverse_flag s fuel u
              (_CheckForAccessTraverserAction c a (_group_to_component_map s))
              (λ g, (c, a) ∈ row g (_group_to_component_map s))
              (inv_acyclic s Hinv) Hfuel Hu)
    as (b & -> & Hb).
  - intros. by apply check_for_access_hit.
  - intros. by apply check_for_access_miss.
  - exists b. split_and!; [done | done |]. intros _. rewrite Hb.
    split; [by right | by intros [Hd|Hg]].
Qed.

(** ** Accessible entities *)

(** C7. On a store satisfying the global invariants, for a known user and
    a declared entity type, [get_accessible_entities] returns exactly the
    entities declared under the type for which [has_access_to_entity]
    returns true. *)
Theorem get_accessible_entities_agrees_with_has_access_to_entity
    s fuel u t declared :
  global_invariants s →
  u ∈ _users s → _entities s !! t = Some declared →
  size (dom (_group_to_group_graph_edges s)) < fuel →
  ∃ accessible,
    get_accessible_entities fuel s u t = Some (Returned accessible)
    ∧ ∀ e, e ∈ accessible ↔
           e ∈ declared
           ∧ has_access_to_entity fuel s u t e = Some (Returned true).
Proof.
  intros Hinv Hu Ht Hfuel.
  pose proof (inv_acyclic s Hinv) as Hac.
  unfold get_accessible_entities,
    get_user_to_entity_mappings_for_user_and_entity_type.
  destruct (decide (u ∉ _users s)) as [|_]; [done|].
  destruct (decide (_entities s !! t = None)) as [Hnone|_]; [congruence|].
  destruct (traverse_collect s fuel u t Hac Hfuel Hu) as (acc & -> & Hacc).
  eexists. split; [done|]. intros e. rewrite elem_of_union, Hacc. split.
  - intros Hmapped.
    assert (e ∈ declared) as He.
    { destruct Hmapped as [He | (g & _ & He)].
      - destruct (row2_declared _ _ u t e (inv_user_entities s Hinv) He)
          as (declared' & Hd & Hin). congruence.
      - destruct (row2_declared _ _ g t e (inv_group_entities s Hinv) He)
          as (declared' & Hd & Hin). congruence. }
    split; [done|].
    destruct (has_access_to_entity_spec s fuel u t e declared Hac Hfuel Hu Ht He)
      as (b & -> & Hb).
    do 2 f_equal. by apply Hb.
  - intros [He Haccess].
    destruct (has_access_to_entity_spec s fuel u t e declared Hac Hfuel Hu Ht He)
      as (b & Hrun & Hb).
    rewrite Hrun in Haccess. injection Haccess as ->. by apply Hb.
Qed.

(** ** The generator methods *)

(** C10. Calling [get_user_to_entity_mappings_for_user] or
    [get_group_to_entity_mappings_for_group] with a user or group that is
    not in the store returns a generator and leaves the store alone; the
    not-found error is raised by the first [next] on that generator. *)
Theorem entity_mapping_generators_raise_on_first_next s u g :
  u ∉ _users s → g ∉ _groups s →
  (∃ gen, get_user_to_entity_mappings_for_user u s = (Returned gen, s)
          ∧ fst (next gen s) = Raised (NotFound User "user"))
  ∧ (∃ gen, get_group_to_entity_mappings_for_group g s = (Returned gen, s)
            ∧ fst (next gen s) = Raised (NotFound Group "group")).
Proof.
  intros Hu Hg. split; eexists; (split; [reflexivity|]); simpl.
  - unfold get_user_to_entity_mappings_for_user_body.
    by destruct (decide (u ∉ _users s)).
  - unfold get_group_to_entity_mappings_for_group_body.
    by destruct (decide (g ∉ _groups s)).
Qed.

(** ** The mutation methods *)

Lemma AccessManager_eq s1 s2 :
  _users s1 = _users s2 → _groups s1 = _groups s2 →
  _user_to_group_graph_edges s1 = _user_to_group_graph_edges s2 →
  _group_to_group_graph_edges s1 = _group_to_group_graph_edges s2 →
  _user_to_component_map s1 = _user_to_component_map s2 →
  _group_to_component_map s1 = _group_to_component_map s2 →
  _entities s1 = _entities s2 →
  _user_to_entity_map s1 = _user_to_entity_map s2 →
  _group_to_entity_map s1 = _group_to_entity_map s2 →
  s1 = s2.
Proof. destruct s1, s2; simpl; intros; by subst. Qed.

Lemma pop_if_present_lookup `{Countable K} {V} (k : K) (dd : gmap K V) :
  pop_if_present k dd !! k = None.
Proof.
  unfold pop_if_present. destruct (dd !! k) eqn:Hk; [apply lookup_delete_eq | done].
Qed.

Lemma pop_if_present_absent `{Countable K} {V} (k : K) (dd : gmap K V) :
  dd !! k = None → pop_if_present k dd = dd.
Proof. unfold pop_if_present. by intros ->. Qed.

(** What [remove_user] does, on every store: the not-found error for an
    unknown user; otherwise the user leaves [_users] and the component and
    entity dicts, and the user-to-group edges are not touched. *)
Lemma remove_user_spec s u :
  (u ∉ _users s → remove_user u s = (Raised (NotFound User "user"), s))
  ∧ (u ∈ _users s →
     ∃ s', remove_user u s = (Returned (), s')
           ∧ (u ∉ _users s')
           ∧ _user_to_component_map s' !! u = None
           ∧ _user_to_entity_map s' !! u = None
           ∧ _user_to_group_graph_edges s' = _user_to_group_graph_edges s).
Proof.
  unfold remove_user, bind, get, modify, raise. simpl.
  destruct (decide (u ∉ _users s)) as [Hu|Hu]; (split; [done|]); [done|].
  intros _. eexists. split; [done|]. simpl.
  split_and!; [|apply pop_if_present_lookup.. | done].
  intros [_ Hn]%elem_of_difference. by apply Hn, elem_of_singleton.
Qed.

(** What [remove_group] does, on every store; the group-to-group edges are
    not touched. *)
Lemma remove_group_spec s g :
  (g ∉ _groups s → remove_group g s = (Raised (NotFound Group "group"), s))
  ∧ (g ∈ _groups s →
     ∃ s', remove_group g s = (Returned (), s')
           ∧ (g ∉ _groups s')
           ∧ _group_to_component_map s' !! g = None
           ∧ _group_to_entity_map s' !! g = None
           ∧ _group_to_group_graph_edges s' = _group_to_group_graph_edges s
           ∧ _user_to_group_graph_edges s' = _user_to_group_graph_edges s).
Proof.
  unfold remove_group, bind, get, modify, raise. simpl.
  destruct (decide (g ∉ _groups s)) as [Hg|Hg]; (split; [done|]); [done|].
  intros _. eexists. split; [done|]. simpl.
  split_and!; [|apply pop_if_present_lookup.. | done | done].
  intros [_ Hn]%elem_of_difference. by apply Hn, elem_of_singleton.
Qed.

(** Every exception but the [AttributeError] of the two component-mapping
    removals is raised before the store is written. *)
Lemma failed_call_leaves_store fuel (op : operation TUser TGroup TComponent TAccess)
    s e s' :
  call fuel op s = Some (Raised e, s') → e ≠ AttributeError → s' = s.
Proof.
  intros Hcall Hne.
  destruct op; simpl in Hcall;
    unfold add_user, remove_user, add_group, remove_group,
      add_user_to_group_mapping, remove_user_to_group_mapping,
      add_group_to_group_mapping, remove_group_to_group_mapping,
      add_user_to_application_component_and_access_level_mapping,
      remove_user_to_application_component_and_access_level_mapping,
      add_group_to_application_component_and_access_level_mapping,
      remove_group_to_application_component_and_access_level_mapping,
      add_entity_type, remove_entity_type, add_entity, remove_entity,
      add_user_to_entity_mapping, remove_user_to_entity_mapping,
      add_group_to_entity_mapping, remove_group_to_entity_mapping,
      bind, get, modify, raise, ret in Hcall; simpl in Hcall;
    repeat (case_match; simpl in *; simplify_eq); done.
Qed.

(** ** Addition followed by the corresponding removal *)

Lemma add_discard `{Countable V} (X : gset V) x : x ∉ X → (X ∪ {[x]}) ∖ {[x]} = X.
Proof.
  intros Hx. apply set_eq. intros y.
  rewrite elem_of_difference, elem_of_union, elem_of_singleton. split.
  - intros [[Hy| ->] Hne]; done.
  - intros Hy. split; [by left | by intros ->].
Qed.

Lemma same_content_refl s : same_content s s.
Proof. by repeat split. Qed.

Lemma row_insert_row `{Countable K} `{Countable V} (k k' : K) (dd : gmap K (gset V)) :
  row k' (<[k := row k dd]> dd) = row k' dd.
Proof.
  unfold row. destruct (decide (k = k')) as [->|Hne].
  - by rewrite lookup_insert_eq.
  - by rewrite lookup_insert_ne.
Qed.

Lemma row2_insert_row2 `{Countable K} (k k' : K) t t'
    (dd : gmap K (gmap string (gset string))) :
  row2 k' t' (<[k := <[t := row2 k t dd]> (default ∅ (dd !! k))]> dd)
  = row2 k' t' dd.
Proof.
  unfold row2. destruct (decide (k = k')) as [->|Hne].
  - rewrite lookup_insert_eq. simpl. destruct (decide (t = t')) as [->|Hne].
    + by rewrite lookup_insert_eq.
    + by rewrite lookup_insert_ne.
  - by rewrite lookup_insert_ne.
Qed.

Lemma add_remove_user s u s1 :
  mapping_rows_valid s → add_user u s = (Returned (), s1) →
  remove_user u s1 = (Returned (), s).
Proof.
  intros Hinv. unfold add_user, remove_user, bind, get, modify, raise. simpl.
  destruct (decide (u ∈ _users s)) as [|Hu]; [done|]. intros [= <-]. simpl.
  destruct (decide (u ∉ _users s ∪ {[u]})) as [Hn|_].
  { destruct Hn. apply elem_of_union. right. by apply elem_of_singleton. }
  f_equal. apply AccessManager_eq; simpl; try done.
  - by apply add_discard.
  - apply pop_if_present_absent, not_elem_of_dom. intros Hd.
    by apply Hu, (valid_user_components s Hinv).
  - apply pop_if_present_absent, not_elem_of_dom. intros Hd.
    by apply Hu, (valid_user_entity_keys s Hinv).
Qed.

Lemma add_remove_group s g s1 :
  mapping_rows_valid s → add_group g s = (Returned (), s1) →
  remove_group g s1 = (Returned (), s).
Proof.
  intros Hinv. unfold add_group, remove_group, bind, get, modify, raise. simpl.
  destruct (decide (g ∈ _groups s)) as [|Hg]; [done|]. intros [= <-]. simpl.
  destruct (decide (g ∉ _groups s ∪ {[g]})) as [Hn|_].
  { destruct Hn. apply elem_of_union. right. by apply elem_of_singleton. }
  f_equal. apply AccessManager_eq; simpl; try done.
  - by apply add_discard.
  - apply pop_if_present_absent, not_elem_of_dom. intros Hd.
    by apply Hg, (valid_group_components s Hinv).
  - apply pop_if_present_absent, not_elem_of_dom. intros Hd.
    by apply Hg, (valid_group_entity_keys s Hinv).
Qed.

Lemma add_remove_user_to_group_mapping s u g s1 :
  add_user_to_group_mapping u g s = (Returned (), s1) →
  remove_user_to_group_mapping u g s1
  = (Returned (),
     set_user_to_group_graph_edges
       (<[u := row u (_user_to_group_graph_edges s)]>) s).
Proof.
  unfold add_user_to_group_mapping, remove_user_to_group_mapping,
    bind, get, modify, raise, row. simpl.
  destruct (decide (u ∉ _users s)) as [|Hu]; [done|].
  destruct (decide (g ∉ _groups s)) as [|Hg]; [done|].
  destruct (_user_to_group_graph_edges s !! u) as [gs|] eqn:Hrow; simpl.
  - destruct (decide (g ∈ gs)) as [|Hnew]; [done|]. intros [= <-]. simpl.
    destruct (decide (u ∉ _users s)) as [|_]; [done|].
    destruct (decide (g ∉ _groups s)) as [|_]; [done|].
    rewrite lookup_insert_eq.
    destruct (decide (g ∉ gs ∪ {[g]})) as [Hn|_].
    { destruct Hn. apply elem_of_union. right. by apply elem_of_singleton. }
    f_equal. apply AccessManager_eq; simpl; try done.
    by rewrite insert_insert_eq, add_discard.
  - intros [= <-]. simpl.
    destruct (decide (u ∉ _users s)) as [|_]; [done|].
    destruct (decide (g ∉ _groups s)) as [|_]; [done|].
    rewrite !lookup_insert_eq. simpl.
    destruct (decide (g ∉ ∅ ∪ {[g]})) as [Hn|_].
    { destruct Hn. apply elem_of_union. right. by apply elem_of_singleton. }
    f_equal. apply AccessManager_eq; simpl; try done.
    rewrite !insert_insert_eq, add_discard; [done | apply not_elem_of_empty].
Qed.

Lemma add_group_to_group_mapping_returned s fuel f t s1 :
  add_group_to_group_mapping fuel f t s = Some (Returned (), s1) →
  f ∈ _groups s ∧ t ∈ _groups s
  ∧ (t ∉ row f (_group_to_group_graph_edges s))
  ∧ ¬ rtc (edge (_group_to_group_graph_edges s)) t f
  ∧ s1 = set_group_to_group_graph_edges
           (λ d, <[f := row f d ∪ {[t]}]> d) s.
Proof.
  unfold add_group_to_group_mapping.
  destruct (decide (f ∉ _groups s)) as [|Hf%dec_stable]; [done|].
  destruct (decide (t ∉ _groups s)) as [|Ht%dec_stable]; [done|].
  destruct (decide (f = t)) as [|_]; [done|].
  destruct (decide (t ∈ row f (_group_to_group_graph_edges s))) as [|Hnew]; [done|].
  destruct (_traverse_user_and_group_graph_from_group_recurse _ _ _ _ _ _)
    as [[[k|e] []]|] eqn:Hrun; [|done..].
  intros [= <-]. split_and!; [done..| |done].
  destruct (recurse_visits _ s fuel t () _ () Hrun)
    as (visits & ra & Hinv & _ & Hraise & Hall).
  rewrite invoke_all_check_circular in Hinv.
  destruct (decide (f ∈ visits)) as [Hvis|Hvis]; injection Hinv as <-.
  - discriminate (proj2 (Hraise CircularReference) eq_refl).
  - destruct (Hall eq_refl) as [_ Hcov]. intros Hr. by apply Hvis, Hcov.
Qed.

Lemma add_remove_group_to_group_mapping s fuel f t s1 :
  add_group_to_group_mapping fuel f t s = Some (Returned (), s1) →
  remove_group_to_group_mapping f t s1
  = (Returned (),
     set_group_to_group_graph_edges
       (<[f := row f (_group_to_group_graph_edges s)]>) s).
Proof.
  intros (Hf & Ht & Hnew & _ & ->)%add_group_to_group_mapping_returned.
  unfold remove_group_to_group_mapping, bind, get, modify, raise. simpl.
  destruct (decide (f ∉ _groups s)) as [|_]; [done|].
  destruct (decide (t ∉ _groups s)) as [|_]; [done|].
  rewrite lookup_insert_eq.
  destruct (decide (t ∉ row f (_group_to_group_graph_edges s) ∪ {[t]})) as [Hn|_].
  { destruct Hn. apply elem_of_union. right. by apply elem_of_singleton. }
  f_equal. apply AccessManager_eq; simpl; try done.
  by rewrite insert_insert_eq, add_discard.
Qed.

Lemma add_to_row2_lookup `{Countable K} (k : K) t e
    (dd : gmap K (gmap string (gset string))) :
  add_to_row2 k t e dd !! k
  = Some (<[t := row2 k t dd ∪ {[e]}]> (default ∅ (dd !! k))).
Proof. unfold add_to_row2. by rewrite lookup_insert_eq. Qed.

Lemma remove_from_add_to_row2 `{Countable K} (k : K) t e
    (dd : gmap K (gmap string (gset string))) :
  e ∉ row2 k t dd →
  remove_from_row2 k t e (add_to_row2 k t e dd)
  = <[k := <[t := row2 k t dd]> (default ∅ (dd !! k))]> dd.
Proof.
  intros He. unfold remove_from_row2, row2. rewrite add_to_row2_lookup. simpl.
  rewrite lookup_insert_eq. simpl. unfold add_to_row2.
  rewrite !insert_insert_eq. fold (row2 k t dd). by rewrite add_discard.
Qed.

Lemma add_remove_user_to_entity_mapping s u t e s1 :
  add_user_to_entity_mapping u t e s = (Returned (), s1) →
  remove_user_to_entity_mapping u t e s1
  = (Returned (),
     set_user_to_entity_map
       (λ m, <[u := <[t := row2 u t m]> (default ∅ (m !! u))]> m) s).
Proof.
  unfold add_user_to_entity_mapping, remove_user_to_entity_mapping,
    bind, get, modify, raise. simpl.
  destruct (decide (u ∉ _users s)) as [|Hu]; [done|].
  destruct (_entities s !! t) as [es|] eqn:Ht; [|done].
  destruct (decide (e ∉ es)) as [|He]; [done|].
  destruct (decide (e ∈ row2 u t (_user_to_entity_map s))) as [|Hnew]; [done|].
  intros [= <-]. simpl.
  destruct (decide (u ∉ _users s)) as [|_]; [done|]. rewrite Ht.
  destruct (decide (e ∉ es)) as [|_]; [done|].
  rewrite add_to_row2_lookup, lookup_insert_eq.
  destruct (decide (e ∉ row2 u t (_user_to_entity_map s) ∪ {[e]})) as [Hn|_].
  { destruct Hn. apply elem_of_union. right. by apply elem_of_singleton. }
  f_equal. apply AccessManager_eq; simpl; try done.
  by apply remove_from_add_to_row2.
Qed.

Lemma add_remove_group_to_entity_mapping s g t e s1 :
  add_group_to_entity_mapping g t e s = (Returned (), s1) →
  remove_group_to_entity_mapping g t e s1
  = (Returned (),
     set_group_to_entity_map
       (λ m, <[g := <[t := row2 g t m]> (default ∅ (m !! g))]> m) s).
Proof.
  unfold add_group_to_entity_mapping, remove_group_to_entity_mapping,
    bind, get, modify, raise. simpl.
  destruct (decide (g ∉ _groups s)) as [|Hg]; [done|].
  destruct (_entities s !! t) as [es|] eqn:Ht; [|done].
  destruct (decide (e ∉ es)) as [|He]; [done|].
  destruct (decide (e ∈ row2 g t (_group_to_entity_map s))) as [|Hnew]; [done|].
  intros [= <-]. simpl.
  destruct (decide (g ∉ _groups s)) as [|_]; [done|]. rewrite Ht.
  destruct (decide (e ∉ es)) as [|_]; [done|].
  rewrite add_to_row2_lookup, lookup_insert_eq.
  destruct (decide (e ∉ row2 g t (_group_to_entity_map s) ∪ {[e]})) as [Hn|_].
  { destruct Hn. apply elem_of_union. right. by apply elem_of_singleton. }
  f_equal. apply AccessManager_eq; simpl; try done.
  by apply remove_from_add_to_row2.
Qed.

Lemma fmap_fixes_rows `{Countable K} {V} (f : V → V) (dd : gmap K V) :
  (∀ k v, dd !! k = Some v → f v = v) → f <$> dd = dd.
Proof.
  intros Hf. apply map_eq. intros k. rewrite lookup_fmap.
  destruct (dd !! k) as [v|] eqn:Hk; simpl; [|done]. f_equal. by eapply Hf.
Qed.

Lemma add_remove_entity_type s t s1 :
  mapping_rows_valid s → add_entity_type t s = (Returned (), s1) →
  remove_entity_type t s1 = (Returned (), s).
Proof.
  intros Hinv. unfold add_entity_type, remove_entity_type,
    bind, get, modify, raise. simpl.
  destruct (decide (is_Some (_entities s !! t))) as [|Hnew]; [done|].
  destruct (bool_decide (String.length t = 0) || isspace t); [done|].
  intros [= <-]. simpl. rewrite lookup_insert_eq.
  destruct (decide (Some (∅ : gset string) = None)) as [|_]; [done|].
  assert (_entities s !! t = None) as Hnone
    by (destruct (_entities s !! t); [destruct Hnew; eauto | done]).
  assert (∀ `{Countable K} (dd : gmap K (gmap string (gset string))),
            entity_rows_declared (_entities s) dd →
            pop_if_present t <$> dd = dd) as Hrows.
  { intros K ? ? dd Hdecl. apply fmap_fixes_rows. intros k by_type Hk.
    apply pop_if_present_absent. destruct (by_type !! t) as [es|] eqn:Hes; [|done].
    destruct (Hdecl k by_type t es Hk Hes) as (declared & Hd & _). congruence. }
  f_equal. apply AccessManager_eq; simpl; try done.
  - by apply delete_insert_id.
  - apply Hrows, (valid_user_entities s Hinv).
  - apply Hrows, (valid_group_entities s Hinv).
Qed.

Lemma add_remove_entity s t e s1 :
  mapping_rows_valid s → add_entity t e s = (Returned (), s1) →
  remove_entity t e s1 = (Returned (), s).
Proof.
  intros Hinv. unfold add_entity, remove_entity, bind, get, modify, raise. simpl.
  destruct (_entities s !! t) as [es|] eqn:Ht; [|done].
  destruct (decide (e ∈ es)) as [|Hnew]; [done|].
  destruct (bool_decide (String.length e = 0) || isspace e); [done|].
  intros [= <-]. simpl. rewrite lookup_insert_eq.
  destruct (decide (e ∉ es ∪ {[e]})) as [Hn|_].
  { destruct Hn. apply elem_of_union. right. by apply elem_of_singleton. }
  assert (∀ `{Countable K} (dd : gmap K (gmap string (gset string))),
            entity_rows_declared (_entities s) dd →
            discard_entity t e <$> dd = dd) as Hrows.
  { intros K ? ? dd Hdecl. apply fmap_fixes_rows. intros k by_type Hk.
    unfold discard_entity. destruct (by_type !! t) as [es'|] eqn:Hes; [|done].
    destruct (decide (e ∈ es')) as [Hin|]; [|done].
    destruct (Hdecl k by_type t es' Hk Hes) as (declared & Hd & Hsub).
    destruct Hnew. apply Hsub in Hin. congruence. }
  f_equal. apply AccessManager_eq; simpl; try done.
  - rewrite insert_insert_eq, add_discard by done. by apply insert_id.
  - apply Hrows, (valid_user_entities s Hinv).
  - apply Hrows, (valid_group_entities s Hinv).
Qed.

(** With another pair already in the row, the removal does not empty it
    and so does not reach the call of [remove] on the dict. *)
Lemma add_remove_user_to_component_mapping s u (c : TComponent) (a : TAccess) s1 :
  row u (_user_to_component_map s) ≠ ∅ →
  add_user_to_application_component_and_access_level_mapping u c a s
    = (Returned (), s1) →
  remove_user_to_application_component_and_access_level_mapping u c a s1
    = (Returned (), s).
Proof.
  unfold add_user_to_application_component_and_access_level_mapping,
    remove_user_to_application_component_and_access_level_mapping,
    bind, get, modify, raise, ret, row. simpl.
  intros Hrow. destruct (decide (u ∉ _users s)) as [|Hu]; [done|].
  destruct (_user_to_component_map s !! u) as [cas|] eqn:Hcas; [|done].
  simpl in Hrow. destruct (decide ((c, a) ∈ cas)) as [|Hnew]; [done|].
  simpl. intros [= <-]. simpl. rewrite !Hcas. simpl.
  destruct (decide (u ∉ _users s)) as [|_]; [done|].
  rewrite lookup_insert_eq. simpl.
  destruct (decide ((c, a) ∈ cas ∪ {[(c, a)]})) as [_|Hn]; cycle 1.
  { destruct Hn. apply elem_of_union. right. by apply elem_of_singleton. }
  simpl. rewrite lookup_insert_eq. simpl. rewrite add_discard by done.
  destruct (decide (size cas = 0)) as [Hsize|_].
  { destruct Hrow. by apply leibniz_equiv, size_empty_inv. }
  f_equal. apply AccessManager_eq; simpl; try done.
  rewrite insert_insert_eq. by apply insert_id.
Qed.

Lemma add_remove_group_to_component_mapping s g (c : TComponent) (a : TAccess) s1 :
  row g (_group_to_component_map s) ≠ ∅ →
  add_group_to_application_component_and_access_level_mapping g c a s
    = (Returned (), s1) →
  remove_group_to_application_component_and_access_level_mapping g c a s1
    = (Returned (), s).
Proof.
  unfold add_group_to_application_component_and_access_level_mapping,
    remove_group_to_application_component_and_access_level_mapping,
    bind, get, modify, raise, ret, row. simpl.
  intros Hrow. destruct (decide (g ∉ _groups s)) as [|Hg]; [done|].
  destruct (_group_to_component_map s !! g) as [cas|] eqn:Hcas; [|done].
  simpl in Hrow. destruct (decide ((c, a) ∈ cas)) as [|Hnew]; [done|].
  simpl. intros [= <-]. simpl. rewrite !Hcas. simpl.
  destruct (decide (g ∉ _groups s)) as [|_]; [done|].
  rewrite lookup_insert_eq. simpl.
  destruct (decide ((c, a) ∈ cas ∪ {[(c, a)]})) as [_|Hn]; cycle 1.
  { destruct Hn. apply elem_of_union. right. by apply elem_of_singleton. }
  simpl. rewrite lookup_insert_eq. simpl. rewrite add_discard by done.
  destruct (decide (size cas = 0)) as [Hsize|_].
  { destruct Hrow. by apply leibniz_equiv, size_empty_inv. }
  f_equal. apply AccessManager_eq; simpl; try done.
  rewrite insert_insert_eq. by apply insert_id.
Qed.

Lemma insert_row_present `{Countable K} `{Countable V} (k : K) (dd : gmap K (gset V)) :
  is_Some (dd !! k) → <[k := row k dd]> dd = dd.
Proof. intros [v Hv]. apply insert_id. unfold row. by rewrite Hv. Qed.

Lemma insert_row2_present `{Countable K} (k : K) t
    (dd : gmap K (gmap string (gset string))) :
  (∃ by_type, dd !! k = Some by_type ∧ is_Some (by_type !! t)) →
  <[k := <[t := row2 k t dd]> (default ∅ (dd !! k))]> dd = dd.
Proof.
  intros (by_type & Hk & [es Hes]). unfold row2. rewrite Hk. simpl. rewrite Hes.
  simpl. apply insert_id. rewrite Hk. f_equal. symmetry. by apply insert_id.
Qed.

(** ** What every reachable store satisfies *)

Lemma dom_pop_if_present `{Countable K} {V} (k : K) (dd : gmap K V) :
  dom (pop_if_present k dd) ⊆ dom dd ∖ {[k]}.
Proof.
  unfold pop_if_present. destruct (dd !! k) eqn:Hk.
  - by rewrite dom_delete_L.
  - apply not_elem_of_dom in Hk. intros x Hx. apply elem_of_difference.
    split; [done|]. intros ->%elem_of_singleton. done.
Qed.

Lemma pop_if_present_lookup_ne `{Countable K} {V} (k k' : K) (dd : gmap K V) :
  k ≠ k' → pop_if_present k dd !! k' = dd !! k'.
Proof.
  intros Hne. unfold pop_if_present.
  destruct (dd !! k); [by apply lookup_delete_ne | done].
Qed.

Lemma row2_subseteq_declared `{Countable K} (entities : gmap string (gset string))
    (dd : gmap K (gmap string (gset string))) k t es :
  entity_rows_declared entities dd → entities !! t = Some es →
  row2 k t dd ⊆ es.
Proof.
  intros Hdecl Ht e He.
  destruct (row2_declared _ _ k t e Hdecl He) as (declared & Hd & Hin). congruence.
Qed.

(** Writing under [(k, t)] a set of entities declared under [t]. *)
Lemma entity_rows_declared_insert `{Countable K}
    (entities : gmap string (gset string))
    (dd : gmap K (gmap string (gset string))) k t es X :
  entity_rows_declared entities dd → entities !! t = Some es → X ⊆ es →
  entity_rows_declared entities (<[k := <[t := X]> (default ∅ (dd !! k))]> dd).
Proof.
  intros Hdecl Ht HX k' by_type' t' es' Hk' Ht'.
  destruct (decide (k = k')) as [<-|Hk]; [|rewrite lookup_insert_ne in Hk' by done; eauto].
  rewrite lookup_insert_eq in Hk'. injection Hk' as <-.
  destruct (decide (t = t')) as [<-|Hne].
  - rewrite lookup_insert_eq in Ht'. injection Ht' as <-. eauto.
  - rewrite lookup_insert_ne in Ht' by done.
    destruct (dd !! k) as [by_type|] eqn:Hrow; simpl in Ht'; [eauto|].
    by rewrite lookup_empty in Ht'.
Qed.

Lemma entity_rows_declared_pop_key `{Countable K}
    (entities : gmap string (gset string))
    (dd : gmap K (gmap string (gset string))) k :
  entity_rows_declared entities dd →
  entity_rows_declared entities (pop_if_present k dd).
Proof.
  intros Hdecl k' by_type t es Hk' Ht.
  destruct (decide (k = k')) as [<-|Hne].
  - by rewrite pop_if_present_lookup in Hk'.
  - rewrite pop_if_present_lookup_ne in Hk' by done. eauto.
Qed.

Lemma entity_rows_declared_remove_type `{Countable K}
    (entities : gmap string (gset string))
    (dd : gmap K (gmap string (gset string))) t :
  entity_rows_declared entities dd →
  entity_rows_declared (delete t entities) (pop_if_present t <$> dd).
Proof.
  intros Hdecl k by_type' t' es' Hk Ht'. rewrite lookup_fmap in Hk.
  destruct (dd !! k) as [by_type|] eqn:Hrow; [|done]. injection Hk as <-.
  destruct (decide (t = t')) as [<-|Hne].
  - by rewrite pop_if_present_lookup in Ht'.
  - rewrite pop_if_present_lookup_ne in Ht' by done.
    rewrite lookup_delete_ne by done. eauto.
Qed.

Lemma entity_rows_declared_remove_entity `{Countable K}
    (entities : gmap string (gset string))
    (dd : gmap K (gmap string (gset string))) t e es :
  entity_rows_declared entities dd → entities !! t = Some es →
  entity_rows_declared (<[t := es ∖ {[e]}]> entities) (discard_entity t e <$> dd).
Proof.
  intros Hdecl Ht k by_type' t' es' Hk Ht'. rewrite lookup_fmap in Hk.
  destruct (dd !! k) as [by_type|] eqn:Hrow; [|done]. injection Hk as <-.
  unfold discard_entity in Ht'.
  destruct (decide (t = t')) as [<-|Hne].
  - rewrite lookup_insert_eq. eexists. split; [done|].
    destruct (by_type !! t) as [es0|] eqn:Hes0; [|congruence].
    destruct (Hdecl k by_type t es0 Hrow Hes0) as (declared & Hd & Hsub).
    assert (declared = es) as -> by congruence.
    destruct (decide (e ∈ es0)) as [Hin|Hnin].
    + rewrite lookup_insert_eq in Ht'. injection Ht' as <-.
      intros x [Hx Hne]%elem_of_difference. apply elem_of_difference. auto.
    + assert (es' = es0) as -> by congruence.
      intros x Hx. apply elem_of_difference. split; [auto|].
      intros ->%elem_of_singleton. done.
  - rewrite lookup_insert_ne by done.
    destruct (by_type !! t) as [es0|] eqn:Hes0; [|eauto].
    destruct (decide (e ∈ es0)); [|eauto].
    rewrite lookup_insert_ne in Ht' by done. eauto.
Qed.

Lemma entity_rows_declared_grow `{Countable K}
    (entities entities' : gmap string (gset string))
    (dd : gmap K (gmap string (gset string))) :
  (∀ t es, entities !! t = Some es →
     ∃ es', entities' !! t = Some es' ∧ es ⊆ es') →
  entity_rows_declared entities dd → entity_rows_declared entities' dd.
Proof.
  intros Hgrow Hdecl k by_type t es Hk Ht.
  destruct (Hdecl k by_type t es Hk Ht) as (declared & Hd & Hsub).
  destruct (Hgrow t declared Hd) as (declared' & Hd' & Hsub').
  exists declared'. split; [done|]. by etrans.
Qed.

Lemma entity_rows_declared_insert_entities `{Countable K}
    (entities : gmap string (gset string))
    (dd : gmap K (gmap string (gset string))) t X :
  (∀ es, entities !! t = Some es → es ⊆ X) →
  entity_rows_declared entities dd →
  entity_rows_declared (<[t := X]> entities) dd.
Proof.
  intros HX. apply entity_rows_declared_grow. intros t' es Ht'.
  destruct (decide (t = t')) as [<-|Hne].
  - rewrite lookup_insert_eq. eauto.
  - rewrite lookup_insert_ne by done. eauto.
Qed.

Lemma init_rows_valid : mapping_rows_valid (__init__ : AM).
Proof.
  split; simpl; try (rewrite dom_empty_L; apply empty_subseteq);
    by intros k by_type t es Hk.
Qed.

Lemma call_preserves_rows_valid fuel
    (op : operation TUser TGroup TComponent TAccess) s r s' :
  mapping_rows_valid s → call fuel op s = Some (r, s') → mapping_rows_valid s'.
Proof.
  intros [Huc Hue Hgc Hge Hur Hgr] Hcall.
  destruct op; simpl in Hcall;
    unfold add_user, remove_user, add_group, remove_group,
      add_user_to_group_mapping, remove_user_to_group_mapping,
      add_group_to_group_mapping, remove_group_to_group_mapping,
      add_user_to_application_component_and_access_level_mapping,
      remove_user_to_application_component_and_access_level_mapping,
      add_group_to_application_component_and_access_level_mapping,
      remove_group_to_application_component_and_access_level_mapping,
      add_entity_type, remove_entity_type, add_entity, remove_entity,
      add_user_to_entity_mapping, remove_user_to_entity_mapping,
      add_group_to_entity_mapping, remove_group_to_entity_mapping,
      bind, get, modify, raise, ret in Hcall; simpl in Hcall;
    repeat (case_match; simpl in *; simplify_eq);
    (split; simpl; [try done..]).
  all: repeat match goal with H : ¬ (_ ∉ _) |- _ => apply dec_stable in H end.
  all: try match goal with
    | |- dom (pop_if_present ?k ?d) ⊆ _ =>
      pose proof (dom_pop_if_present k d); set_solver
    | |- dom (_ <$> _) ⊆ _ => by rewrite dom_fmap_L
    | |- dom (add_to_row2 _ _ _ _) ⊆ _ =>
      unfold add_to_row2; rewrite dom_insert_L; set_solver
    | |- dom (remove_from_row2 _ _ _ _) ⊆ _ =>
      unfold remove_from_row2; rewrite dom_insert_L; set_solver
    | |- dom (<[_ := _]> _) ⊆ _ => rewrite !dom_insert_L; set_solver
    | |- dom _ ⊆ _ ∪ _ => set_solver
    | |- entity_rows_declared _ (pop_if_present _ _) =>
      by apply entity_rows_declared_pop_key
    | |- entity_rows_declared (delete _ _) _ =>
      by apply entity_rows_declared_remove_type
    | |- entity_rows_declared _ (discard_entity _ _ <$> _) =>
      by apply entity_rows_declared_remove_entity
    | |- entity_rows_declared (<[_ := _]> _) _ =>
      eapply entity_rows_declared_insert_entities; [|eassumption];
      intros ? ?; simplify_eq; set_solver
    | |- entity_rows_declared _ (add_to_row2 ?k ?t ?e ?d) =>
      unfold add_to_row2;
      eapply entity_rows_declared_insert; [done | eassumption |];
      pose proof (row2_subseteq_declared _ d k t _ ltac:(eassumption) ltac:(eassumption));
      set_solver
    | |- entity_rows_declared _ (remove_from_row2 ?k ?t ?e ?d) =>
      unfold remove_from_row2;
      eapply entity_rows_declared_insert; [done | eassumption |];
      pose proof (row2_subseteq_declared _ d k t _ ltac:(eassumption) ltac:(eassumption));
      set_solver
    end.
Qed.

Lemma reachable_rows_valid s : reachable s → mapping_rows_valid s.
Proof.
  induction 1 as [|s fuel op r s' _ IH Hcall]; [apply init_rows_valid|].
  by eapply call_preserves_rows_valid.
Qed.

(** C9, as amended.  Let [s] be a store reached from the empty one by calls
    of the public mutations, and let an addition return on it and be
    followed by the corresponding removal.  For users, groups, entity
    types, entities, user-to-group and group-to-group mappings and entity
    mappings the removal returns and the store holds the same content as
    [s]; and for every kind of addition, component mappings included, the
    removal returns and the store is equal to [s] when the row the addition
    wrote to was already there (for a component mapping: already held a
    pair). *)
Theorem add_then_remove_restores_content s fuel
    (op rm : operation TUser TGroup TComponent TAccess) s1 :
  reachable s →
  corresponding_remove op = Some rm →
  call fuel op s = Some (Returned (), s1) →
  (is_component_mapping op = false →
     ∃ s2, call fuel rm s1 = Some (Returned (), s2) ∧ same_content s2 s)
  ∧ (writes_existing_row op s → call fuel rm s1 = Some (Returned (), s)).
Proof.
  intros Hinv%reachable_rows_valid Hrm Hadd.
  destruct op; simpl in Hrm; try done; injection Hrm as <-; simpl in *.
  - (* user *)
    injection Hadd as Hadd. rewrite (add_remove_user _ _ _ Hinv Hadd).
    split; [|done]. intros _. eexists. split; [done | apply same_content_refl].
  - (* group *)
    injection Hadd as Hadd. rewrite (add_remove_group _ _ _ Hinv Hadd).
    split; [|done]. intros _. eexists. split; [done | apply same_content_refl].
  - (* user to group *)
    injection Hadd as Hadd. rewrite (add_remove_user_to_group_mapping _ _ _ _ Hadd).
    split.
    + intros _. eexists. split; [done|]. repeat split; simpl; try done.
      intros u. apply row_insert_row.
    + intros Hrow. do 2 f_equal. apply AccessManager_eq; simpl; try done.
      by apply insert_row_present.
  - (* group to group *)
    rewrite (add_remove_group_to_group_mapping _ _ _ _ _ Hadd). split.
    + intros _. eexists. split; [done|]. repeat split; simpl; try done.
      intros g. apply row_insert_row.
    + intros Hrow. do 2 f_equal. apply AccessManager_eq; simpl; try done.
      by apply insert_row_present.
  - (* user to component *)
    injection Hadd as Hadd. split; [done|]. intros Hrow.
    by rewrite (add_remove_user_to_component_mapping _ _ _ _ _ Hrow Hadd).
  - (* group to component *)
    injection Hadd as Hadd. split; [done|]. intros Hrow.
    by rewrite (add_remove_group_to_component_mapping _ _ _ _ _ Hrow Hadd).
  - (* entity type *)
    injection Hadd as Hadd. rewrite (add_remove_entity_type _ _ _ Hinv Hadd).
    split; [|done]. intros _. eexists. split; [done | apply same_content_refl].
  - (* entity *)
    injection Hadd as Hadd. rewrite (add_remove_entity _ _ _ _ Hinv Hadd).
    split; [|done]. intros _. eexists. split; [done | apply same_content_refl].
  - (* user to entity *)
    injection Hadd as Hadd.
    rewrite (add_remove_user_to_entity_mapping _ _ _ _ _ Hadd). split.
    + intros _. eexists. split; [done|]. repeat split; simpl; try done.
      intros u t. apply row2_insert_row2.
    + intros Hrow. do 2 f_equal. apply AccessManager_eq; simpl; try done.
      by apply insert_row2_present.
  - (* group to entity *)
    injection Hadd as Hadd.
    rewrite (add_remove_group_to_entity_mapping _ _ _ _ _ Hadd). split.
    + intros _. eexists. split; [done|]. repeat split; simpl; try done.
      intros g t. apply row2_insert_row2.
    + intros Hrow. do 2 f_equal. apply AccessManager_eq; simpl; try done.
      by apply insert_row2_present.
Qed.

(** ** Acyclicity is kept *)

(** A call that returns leaves the group-to-group edges as they were,
    unless it adds or removes one of them. *)
Lemma call_group_edges fuel (op : operation TUser TGroup TComponent TAccess) s s' :
  call fuel op s = Some (Returned (), s') →
  _group_to_group_graph_edges s' = _group_to_group_graph_edges s
  ∨ (∃ f t, op = AddGroupToGroupMapping f t)
  ∨ (∃ f t gs, _group_to_group_graph_edges s !! f = Some gs
               ∧ _group_to_group_graph_edges s'
                 = <[f := gs ∖ {[t]}]> (_group_to_group_graph_edges s)).
Proof.
  intros Hcall.
  destruct op; simpl in Hcall;
    try (right; left; eexists _, _; reflexivity);
    unfold add_user, remove_user, add_group, remove_group,
      add_user_to_group_mapping, remove_user_to_group_mapping,
      remove_group_to_group_mapping,
      add_user_to_application_component_and_access_level_mapping,
      remove_user_to_application_component_and_access_level_mapping,
      add_group_to_application_component_and_access_level_mapping,
      remove_group_to_application_component_and_access_level_mapping,
      add_entity_type, remove_entity_type, add_entity, remove_entity,
      add_user_to_entity_mapping, remove_user_to_entity_mapping,
      add_group_to_entity_mapping, remove_group_to_entity_mapping,
      bind, get, modify, raise, ret in Hcall; simpl in Hcall;
    repeat (case_match; simpl in *; simplify_eq); simpl; eauto 10.
Qed.

Lemma successful_call_preserves_acyclic fuel
    (op : operation TUser TGroup TComponent TAccess) s s' :
  acyclic (_group_to_group_graph_edges s) →
  call fuel op s = Some (Returned (), s') →
  acyclic (_group_to_group_graph_edges s').
Proof.
  intros Hac Hcall.
  destruct (call_group_edges fuel op s s' Hcall)
    as [-> | [(f & t & ->) | (f & t & gs & Hgs & ->)]]; [done | |].
  - simpl in Hcall.
    apply add_group_to_group_mapping_returned in Hcall as (_ & _ & _ & Hno & ->).
    simpl. by apply acyclic_insert.
  - eapply acyclic_subgraph; [|exact Hac].
    intros g h (gs' & Hgs' & Hh). destruct (decide (f = g)) as [->|Hne].
    + rewrite lookup_insert_eq in Hgs'. injection Hgs' as <-.
      exists gs. split; [done|]. by apply elem_of_difference in Hh as [Hh _].
    + rewrite lookup_insert_ne in Hgs' by done. by exists gs'.
Qed.

Lemma failed_call_group_edges fuel
    (op : operation TUser TGroup TComponent TAccess) s e s' :
  call fuel op s = Some (Raised e, s') →
  _group_to_group_graph_edges s' = _group_to_group_graph_edges s.
Proof.
  intros Hcall. destruct (decide (e = AttributeError)) as [->|Hne];
    [|by rewrite (failed_call_leaves_store _ _ _ _ _ Hcall Hne)].
  destruct op; simpl in Hcall;
    unfold add_user, remove_user, add_group, remove_group,
      add_user_to_group_mapping, remove_user_to_group_mapping,
      add_group_to_group_mapping, remove_group_to_group_mapping,
      add_user_to_application_component_and_access_level_mapping,
      remove_user_to_application_component_and_access_level_mapping,
      add_group_to_application_component_and_access_level_mapping,
      remove_group_to_application_component_and_access_level_mapping,
      add_entity_type, remove_entity_type, add_entity, remove_entity,
      add_user_to_entity_mapping, remove_user_to_entity_mapping,
      add_group_to_entity_mapping, remove_group_to_entity_mapping,
      bind, get, modify, raise, ret in Hcall; simpl in Hcall;
    repeat (case_match; simpl in *; simplify_eq); done.
Qed.

(** The group-to-group edges of a reachable store are acyclic. *)
Lemma reachable_acyclic s :
  reachable s → acyclic (_group_to_group_graph_edges s).
Proof.
  induction 1 as [|s fuel op [[]|e] s' _ IH Hcall].
  - intros g Hg. simpl in Hg.
    destruct Hg as [g h (gs & Hgs & _) | g h k (gs & Hgs & _) _];
      by rewrite lookup_empty in Hgs.
  - by eapply successful_call_preserves_acyclic.
  - by rewrite (failed_call_group_edges _ _ _ _ _ Hcall).
Qed.

(** C3. On a store whose group-to-group edges are acyclic: for two
    distinct groups of the store not yet joined,
    [add_group_to_group_mapping] raises the circular-reference error
    exactly when [from_group] can be reached from [to_group] along
    group-to-group edges, and then leaves the store as it was; otherwise it
    returns and the store differs by the new edge only.  And whichever
    public mutation returns, the edges are acyclic after it. *)
Theorem add_group_to_group_mapping_cycle_check s :
  acyclic (_group_to_group_graph_edges s) →
  (∀ fuel from_group to_group,
     from_group ∈ _groups s → to_group ∈ _groups s → from_group ≠ to_group →
     ¬ edge (_group_to_group_graph_edges s) from_group to_group →
     size (dom (_group_to_group_graph_edges s)) < fuel →
     ∃ r s',
       add_group_to_group_mapping fuel from_group to_group s = Some (r, s')
       ∧ (r = Raised CircularReference
          ↔ rtc (edge (_group_to_group_graph_edges s)) to_group from_group)
       ∧ (r = Raised CircularReference → s' = s)
       ∧ (r ≠ Raised CircularReference →
          r = Returned ()
          ∧ s' = set_group_to_group_graph_edges
                   (λ d, <[from_group := row from_group d ∪ {[to_group]}]> d) s
          ∧ acyclic (_group_to_group_graph_edges s')))
  ∧ (∀ fuel (op : operation TUser TGroup TComponent TAccess) s',
       call fuel op s = Some (Returned (), s') →
       acyclic (_group_to_group_graph_edges s')).
Proof.
  intros Hac. split.
  - intros. by apply add_group_to_group_mapping_spec.
  - intros fuel op s'. by apply successful_call_preserves_acyclic.
Qed.

(** ** Checking the invariants of a given store *)

Lemma invariants_check_sound (rank : TGroup → nat) s :
  invariants_check rank s → global_invariants s.
Proof.
  intros (Hu & Hue & Hg & Hge & Huent & Hgent & Hrank).
  assert (∀ `{Countable K} (dd : gmap K (gmap string (gset string))),
            entity_rows_check (_entities s) dd →
            entity_rows_declared (_entities s) dd) as Hrows.
  { intros K ? ? dd Hcheck k by_type t es Hk Ht.
    destruct (Hcheck k by_type Hk t es Ht) as [[declared Hd] Hsub].
    exists declared. split; [done|]. unfold row in Hsub. by rewrite Hd in Hsub. }
  pose proof (acyclic_of_rank _ rank Hrank) as Hac.
  split; try done; [by apply Hrows | by apply Hrows |].
  intros g Hgg. apply (Hac g). by apply tc_once.
Qed.

End Properties.

(** * Further properties of the code *)

Section FurtherProperties.
Context `{Countable TUser, Countable TGroup,
          Countable TComponent, Countable TAccess}.

Local Abbreviation AM := (AccessManager TUser TGroup TComponent TAccess).
Local Abbreviation Op := (operation TUser TGroup TComponent TAccess).
Implicit Types (s : AM) (op : Op).

(* [set_solver] clears hypotheses it has already consumed. *)
Local Set Warnings "-clear-no-such-hyp".

(** Unfolds a call down to the tests and writes of its method. *)
Ltac unfold_call H :=
  unfold add_user, remove_user, add_group, remove_group,
    add_user_to_group_mapping, remove_user_to_group_mapping,
    add_group_to_group_mapping, remove_group_to_group_mapping,
    add_user_to_application_component_and_access_level_mapping,
    remove_user_to_application_component_and_access_level_mapping,
    add_group_to_application_component_and_access_level_mapping,
    remove_group_to_application_component_and_access_level_mapping,
    add_entity_type, remove_entity_type, add_entity, remove_entity,
    add_user_to_entity_mapping, remove_user_to_entity_mapping,
    add_group_to_entity_mapping, remove_group_to_entity_mapping,
    bind, get, modify, raise, ret in H; simpl in H.

(** ** Invariants of the reachable stores *)

(** X1. Whatever public mutations have been called, returning or raising,
    the group-to-group edges have no cycle and no self-loop, every key of
    the component and entity dicts is a user or group of the store, and
    every mapped entity is declared under its type. *)
Theorem reachable_store_keeps_invariants s :
  reachable s →
  acyclic (_group_to_group_graph_edges s)
  ∧ (∀ g, ¬ edge (_group_to_group_graph_edges s) g g)
  ∧ mapping_rows_valid s.
Proof.
  intros Hs. pose proof (reachable_acyclic s Hs) as Hac.
  split_and!; [done | | by apply reachable_rows_valid].
  intros g Hg. apply (Hac g). by apply tc_once.
Qed.

Lemma call_preserves_names_valid fuel op s r s' :
  names_valid (_entities s) → call fuel op s = Some (r, s') →
  names_valid (_entities s').
Proof.
  intros Hnames Hcall. destruct op; simpl in Hcall; unfold_call Hcall;
    repeat (case_match; simpl in *; simplify_eq); try done; simpl.
  - (* add_entity_type *)
    intros t es Ht. destruct (decide (entity_type = t)) as [->|Hne].
    + rewrite lookup_insert_eq in Ht. injection Ht as <-.
      split; [|intros e He; by apply not_elem_of_empty in He].
      unfold valid_name. by apply negb_true_iff.
    + rewrite lookup_insert_ne in Ht by done. by apply Hnames.
  - (* remove_entity_type *)
    intros t es Ht. destruct (decide (entity_type = t)) as [->|Hne].
    + by rewrite lookup_delete_eq in Ht.
    + rewrite lookup_delete_ne in Ht by done. by apply Hnames.
  - (* add_entity *)
    intros t es Ht. destruct (decide (entity_type = t)) as [->|Hne].
    + rewrite lookup_insert_eq in Ht. injection Ht as <-.
      destruct (Hnames t _ ltac:(eassumption)) as [Hvt Hves]. split; [done|].
      intros e [He| ->%elem_of_singleton]%elem_of_union; [by apply Hves|].
      unfold valid_name. by apply negb_true_iff.
    + rewrite lookup_insert_ne in Ht by done. by apply Hnames.
  - (* remove_entity *)
    intros t es Ht. destruct (decide (entity_type = t)) as [->|Hne].
    + rewrite lookup_insert_eq in Ht. injection Ht as <-.
      destruct (Hnames t _ ltac:(eassumption)) as [Hvt Hves]. split; [done|].
      intros e [He _]%elem_of_difference. by apply Hves.
    + rewrite lookup_insert_ne in Ht by done. by apply Hnames.
Qed.

(** X2. No reachable store declares an entity type or an entity whose name
    is empty or all whitespace. *)
Theorem reachable_store_has_valid_names s :
  reachable s → names_valid (_entities s).
Proof.
  induction 1 as [|s fuel op r s' _ IH Hcall].
  - intros t es Ht. simpl in Ht. by rewrite lookup_empty in Ht.
  - by eapply call_preserves_names_valid.
Qed.

(** ** Calls that raise, and calls made twice *)

(** The cycle check raises nothing but the circular-reference error. *)
Lemma cycle_check_raises_circular_reference s fuel from_group to_group e vs :
  _traverse_user_and_group_graph_from_group_recurse fuel s to_group ∅
    (_CheckForCircularReferenceTraverserAction from_group) ()
  = Some (Raised e, vs) →
  e = CircularReference.
Proof.
  intros Hrun. destruct vs.
  destruct (recurse_visits _ s fuel to_group () _ () Hrun)
    as (visits & ra & Hinv & _ & Hraise & _).
  rewrite invoke_all_check_circular in Hinv.
  pose proof (proj1 (Hraise e) eq_refl) as Hra.
  destruct (decide (from_group ∈ visits)); injection Hinv as <-; congruence.
Qed.

(** X3. A call that raises leaves the store exactly as it was, with one
    exception: the removal of the only component mapping of a user or of a
    group raises [AttributeError] and leaves the row of that user or group
    empty. *)
Theorem failed_call_writes_only_with_attribute_error fuel op s e s' :
  call fuel op s = Some (Raised e, s') →
  (e ≠ AttributeError ∧ s' = s)
  ∨ (e = AttributeError
     ∧ ((∃ u c a, op = RemoveUserToComponentMapping u c a
                  ∧ row u (_user_to_component_map s) = {[ (c, a) ]}
                  ∧ s' = set_user_to_component_map (<[u := ∅]>) s)
        ∨ (∃ g c a, op = RemoveGroupToComponentMapping g c a
                    ∧ row g (_group_to_component_map s) = {[ (c, a) ]}
                    ∧ s' = set_group_to_component_map (<[g := ∅]>) s))).
Proof.
  intros Hcall. destruct (decide (e = AttributeError)) as [->|Hne];
    [right; split; [done|] | left; split; [done|];
     by eapply failed_call_leaves_store].
  assert (∀ `{Countable V} (X : gset V) x,
            x ∈ X → size (X ∖ {[x]}) = 0 → X ∖ {[x]} = ∅ ∧ X = {[x]}) as Hlast.
  { intros V ? ? X x Hx Hsize%size_empty_inv%leibniz_equiv. split; [done|].
    apply set_eq. intros y. rewrite elem_of_singleton. split; [|by intros ->].
    intros Hy. destruct (decide (y = x)) as [|Hyx]; [done|].
    assert (y ∈ X ∖ {[x]}) as Hin
      by (apply elem_of_difference; split; [done | by rewrite elem_of_singleton]).
    rewrite Hsize in Hin. by apply not_elem_of_empty in Hin. }
  destruct op; simpl in Hcall; unfold_call Hcall;
    repeat (case_match; simpl in *; simplify_eq).
  - by match goal with
       | Hrun : _traverse_user_and_group_graph_from_group_recurse _ _ _ _ _ _ = _ |- _ =>
         apply cycle_check_raises_circular_reference in Hrun
       end.
  - left. eexists _, _, _. split; [reflexivity|].
    repeat match goal with Hd : decide _ = _ |- _ => clear Hd end.
    match goal with
    | Hsize : size (row _ _) = 0 |- _ =>
      unfold row in Hsize; rewrite lookup_insert_eq in Hsize; simpl in Hsize;
      rename Hsize into Hs0
    end.
    match goal with
    | Hin : (_, _) ∈ _ |- _ =>
      destruct (Hlast _ _ _ _ _ Hin Hs0) as [Hempty Hone]
    end.
    match goal with
    | Hrow : _ !! _ = Some _ |- _ => unfold row; rewrite Hrow
    end.
    simpl. by rewrite Hempty.
  - right. eexists _, _, _. split; [reflexivity|].
    repeat match goal with Hd : decide _ = _ |- _ => clear Hd end.
    match goal with
    | Hsize : size (row _ _) = 0 |- _ =>
      unfold row in Hsize; rewrite lookup_insert_eq in Hsize; simpl in Hsize;
      rename Hsize into Hs0
    end.
    match goal with
    | Hin : (_, _) ∈ _ |- _ =>
      destruct (Hlast _ _ _ _ _ Hin Hs0) as [Hempty Hone]
    end.
    match goal with
    | Hrow : _ !! _ = Some _ |- _ => unfold row; rewrite Hrow
    end.
    simpl. by rewrite Hempty.
Qed.

(** X4. An addition that has just returned is refused when made again: the
    second call raises the already-exists error and leaves the store as the
    first call left it. *)
Theorem repeated_addition_is_rejected fuel fuel' op s s1 :
  is_addition op = true →
  call fuel op s = Some (Returned (), s1) →
  ∃ what, call fuel' op s1 = Some (Raised (AlreadyExists what), s1).
Proof.
  intros Hadd Hcall. destruct op; try done; simpl in Hcall; simpl;
    try (apply add_group_to_group_mapping_returned in Hcall
           as (Hf & Ht & Hnew & Hno & ->));
    try (unfold_call Hcall; repeat (case_match; simpl in *; simplify_eq)).
  all: repeat match goal with Hd : decide _ = _ |- _ => clear Hd end.
  all: unfold add_user, add_group, add_user_to_group_mapping,
      add_group_to_group_mapping,
      add_user_to_application_component_and_access_level_mapping,
      add_group_to_application_component_and_access_level_mapping,
      add_entity_type, add_entity, add_user_to_entity_mapping,
      add_group_to_entity_mapping, bind, get, modify, raise, ret; simpl.
  all: unfold row, row2, add_to_row2 in *;
    repeat (rewrite ?lookup_insert_eq; simpl).
  all: repeat case_decide; try (eexists; reflexivity).
  all: try (exfalso; set_solver).
  all: repeat (case_match; simplify_eq); try (eexists; reflexivity); done.
Qed.

(** X5. A removal that has just returned is refused when made again: the
    second call raises the not-found error and leaves the store as the first
    call left it. *)
Theorem repeated_removal_is_rejected fuel fuel' op s s1 :
  is_removal op = true →
  call fuel op s = Some (Returned (), s1) →
  ∃ what parameter_name,
    call fuel' op s1 = Some (Raised (NotFound what parameter_name), s1).
Proof.
  intros Hrem Hcall. destruct op; try done; simpl in Hcall; simpl;
    unfold_call Hcall; repeat (case_match; simpl in *; simplify_eq).
  all: repeat match goal with Hd : decide _ = _ |- _ => clear Hd end.
  all: unfold remove_user, remove_group, remove_user_to_group_mapping,
      remove_group_to_group_mapping,
      remove_user_to_application_component_and_access_level_mapping,
      remove_group_to_application_component_and_access_level_mapping,
      remove_entity_type, remove_entity, remove_user_to_entity_mapping,
      remove_group_to_entity_mapping, bind, get, modify, raise, ret; simpl.
  all: unfold row, row2, remove_from_row2 in *;
    repeat (rewrite ?lookup_insert_eq, ?lookup_delete_eq; simpl).
  all: repeat case_decide; try (eexists _, _; reflexivity).
  all: try (exfalso; set_solver).
  all: repeat (case_match; simplify_eq); try (eexists _, _; reflexivity).
Qed.

(** ** Rows after a write *)

Lemma row_insert `{Countable K} `{Countable V} (k k' : K) (X : gset V)
    (dd : gmap K (gset V)) :
  row k' (<[k := X]> dd) = if decide (k' = k) then X else row k' dd.
Proof.
  unfold row. destruct (decide (k' = k)) as [->|Hne].
  - by rewrite lookup_insert_eq.
  - by rewrite lookup_insert_ne.
Qed.

Lemma row_pop_if_present `{Countable K} `{Countable V} (k k' : K)
    (dd : gmap K (gset V)) :
  row k' (pop_if_present k dd) = if decide (k' = k) then ∅ else row k' dd.
Proof.
  unfold row. destruct (decide (k' = k)) as [->|Hne].
  - by rewrite pop_if_present_lookup.
  - by rewrite pop_if_present_lookup_ne.
Qed.

Lemma row_delete `{Countable K} `{Countable V} (k k' : K) (dd : gmap K (gset V)) :
  row k' (delete k dd) = if decide (k' = k) then ∅ else row k' dd.
Proof.
  unfold row. destruct (decide (k' = k)) as [->|Hne].
  - by rewrite lookup_delete_eq.
  - by rewrite lookup_delete_ne.
Qed.

Lemma row2_insert `{Countable K} (k k' : K) t t' (X : gset string)
    (dd : gmap K (gmap string (gset string))) :
  row2 k' t' (<[k := <[t := X]> (default ∅ (dd !! k))]> dd)
  = if decide (k' = k ∧ t' = t) then X else row2 k' t' dd.
Proof.
  unfold row2. destruct (decide (k' = k)) as [->|Hk].
  - rewrite lookup_insert_eq. simpl. destruct (decide (t' = t)) as [->|Ht].
    + rewrite lookup_insert_eq. by rewrite decide_True.
    + rewrite lookup_insert_ne by done. rewrite decide_False; [done|].
      by intros [_ ?].
  - rewrite lookup_insert_ne by done. rewrite decide_False; [done|].
    by intros [? _].
Qed.

Lemma row2_pop_key `{Countable K} (k k' : K) t'
    (dd : gmap K (gmap string (gset string))) :
  row2 k' t' (pop_if_present k dd) = if decide (k' = k) then ∅ else row2 k' t' dd.
Proof.
  unfold row2. destruct (decide (k' = k)) as [->|Hne].
  - rewrite pop_if_present_lookup. simpl. by rewrite lookup_empty.
  - by rewrite pop_if_present_lookup_ne.
Qed.

Lemma row2_pop_type `{Countable K} (k' : K) t t'
    (dd : gmap K (gmap string (gset string))) :
  row2 k' t' (pop_if_present t <$> dd)
  = if decide (t' = t) then ∅ else row2 k' t' dd.
Proof.
  unfold row2. rewrite lookup_fmap.
  destruct (dd !! k') as [by_type|]; simpl.
  - destruct (decide (t' = t)) as [->|Hne].
    + by rewrite pop_if_present_lookup.
    + by rewrite pop_if_present_lookup_ne.
  - rewrite lookup_empty. by destruct (decide (t' = t)).
Qed.

Lemma row2_discard_entity `{Countable K} (k' : K) t t' e e'
    (dd : gmap K (gmap string (gset string))) :
  e' ∈ row2 k' t' (discard_entity t e <$> dd)
  ↔ e' ∈ row2 k' t' dd ∧ (t', e') ≠ (t, e).
Proof.
  unfold row2. rewrite lookup_fmap.
  destruct (dd !! k') as [by_type|]; simpl;
    [|rewrite lookup_empty; simpl; split;
      [by intros ?%not_elem_of_empty | by intros [?%not_elem_of_empty _]]].
  unfold discard_entity. destruct (by_type !! t) as [es|] eqn:Hes.
  - destruct (decide (e ∈ es)) as [Hin|Hnin].
    + destruct (decide (t' = t)) as [->|Hne].
      * rewrite lookup_insert_eq, Hes. simpl.
        rewrite elem_of_difference, elem_of_singleton. split.
        -- intros [? ?]. split; [done|]. by intros [= ->].
        -- intros [? Hneq]. split; [done|]. by intros ->.
      * rewrite lookup_insert_ne by done. split; [|by intros [? _]].
        intros ?. split; [done|]. by intros [= -> _].
    + split; [|by intros [? _]]. intros He'. split; [done|].
      intros [= -> ->]. rewrite Hes in He'. done.
  - split; [|by intros [? _]]. intros He'. split; [done|].
    intros [= -> ->]. rewrite Hes in He'. simpl in He'.
    by apply not_elem_of_empty in He'.
Qed.

(** ** The cascades of [remove_entity] and [remove_entity_type] *)

(** X6. When [remove_entity] returns, the entity is gone from the declared
    entities of its type and from the mappings of every user and every
    group; every other declared entity and every other mapping is kept, and
    users, groups, edges and component mappings are not touched. *)
Theorem remove_entity_purges_the_entity s t e s' :
  remove_entity t e s = (Returned (), s') →
  (∀ e', e' ∈ row t (_entities s') ↔ e' ∈ row t (_entities s) ∧ e' ≠ e)
  ∧ (∀ t', t' ≠ t → _entities s' !! t' = _entities s !! t')
  ∧ (∀ u t' e', e' ∈ row2 u t' (_user_to_entity_map s')
               ↔ e' ∈ row2 u t' (_user_to_entity_map s) ∧ (t', e') ≠ (t, e))
  ∧ (∀ g t' e', e' ∈ row2 g t' (_group_to_entity_map s')
               ↔ e' ∈ row2 g t' (_group_to_entity_map s) ∧ (t', e') ≠ (t, e))
  ∧ _users s' = _users s ∧ _groups s' = _groups s
  ∧ _user_to_group_graph_edges s' = _user_to_group_graph_edges s
  ∧ _group_to_group_graph_edges s' = _group_to_group_graph_edges s
  ∧ _user_to_component_map s' = _user_to_component_map s
  ∧ _group_to_component_map s' = _group_to_component_map s.
Proof.
  unfold remove_entity, bind, get, modify, raise. simpl.
  destruct (_entities s !! t) as [es|] eqn:Ht; [|done].
  destruct (decide (e ∉ es)) as [|He]; [done|]. intros [= <-]. simpl.
  split_and!; try done.
  - intros e'. rewrite row_insert, decide_True by done. unfold row. rewrite Ht.
    simpl. by rewrite elem_of_difference, elem_of_singleton.
  - intros t' Hne. by rewrite lookup_insert_ne.
  - intros. apply row2_discard_entity.
  - intros. apply row2_discard_entity.
Qed.

(** X7. When [remove_entity_type] returns, the type is no longer declared, no
    user and no group has a mapping under it, and the declarations and
    mappings of every other type, the users, groups, edges and component
    mappings are as before. *)
Theorem remove_entity_type_purges_the_type s t s' :
  remove_entity_type t s = (Returned (), s') →
  _entities s' = delete t (_entities s)
  ∧ (∀ u t', row2 u t' (_user_to_entity_map s')
             = if decide (t' = t) then ∅ else row2 u t' (_user_to_entity_map s))
  ∧ (∀ g t', row2 g t' (_group_to_entity_map s')
             = if decide (t' = t) then ∅ else row2 g t' (_group_to_entity_map s))
  ∧ (∀ u by_type, _user_to_entity_map s' !! u = Some by_type → by_type !! t = None)
  ∧ (∀ g by_type, _group_to_entity_map s' !! g = Some by_type → by_type !! t = None)
  ∧ _users s' = _users s ∧ _groups s' = _groups s
  ∧ _user_to_group_graph_edges s' = _user_to_group_graph_edges s
  ∧ _group_to_group_graph_edges s' = _group_to_group_graph_edges s
  ∧ _user_to_component_map s' = _user_to_component_map s
  ∧ _group_to_component_map s' = _group_to_component_map s.
Proof.
  unfold remove_entity_type, bind, get, modify, raise. simpl.
  destruct (decide (_entities s !! t = None)) as [|Ht]; [done|].
  intros [= <-]. simpl. split_and!; try done.
  - intros. apply row2_pop_type.
  - intros. apply row2_pop_type.
  - intros u by_type' Hu. rewrite lookup_fmap in Hu.
    destruct (_user_to_entity_map s !! u) as [by_type|]; [|done].
    injection Hu as <-. apply pop_if_present_lookup.
  - intros g by_type' Hg. rewrite lookup_fmap in Hg.
    destruct (_group_to_entity_map s !! g) as [by_type|]; [|done].
    injection Hg as <-. apply pop_if_present_lookup.
Qed.

(** ** The queries, on every acyclic store *)

Lemma has_access_to_application_component_spec s fuel u
    (c : TComponent) (a : TAccess) :
  acyclic (_group_to_group_graph_edges s) →
  size (dom (_group_to_group_graph_edges s)) < fuel →
  ∃ b, has_access_to_application_component fuel s u c a = Some (Returned b)
       ∧ (b = true ↔
          u ∈ _users s
          ∧ ((c, a) ∈ row u (_user_to_component_map s)
             ∨ ∃ g, reachable_from_user s u g
                    ∧ (c, a) ∈ row g (_group_to_component_map s))).
Proof.
  intros Hac Hfuel. unfold has_access_to_application_component.
  destruct (decide (u ∉ _users s)) as [Hu|Hu].
  { exists false. split; [done|]. split; [done | by intros [? _]]. }
  apply dec_stable in Hu.
  destruct (decide ((c, a) ∈ row u (_user_to_component_map s))) as [Hdirect|Hdirect].
  { exists true. split; [done|]. split; [|done]. intros _. split; [done | by left]. }
  destruct (traverse_flag s fuel u
              (_CheckForAccessTraverserAction c a (_group_to_component_map s))
              (λ g, (c, a) ∈ row g (_group_to_component_map s)) Hac Hfuel Hu)
    as (b & -> & Hb).
  - intros. by apply check_for_access_hit.
  - intros. by apply check_for_access_miss.
  - exists b. split; [done|]. rewrite Hb. split.
    + intros Hg. split; [done | by right].
    + by intros [_ [Hd|Hg]].
Qed.

(** X8. On a store with acyclic group edges, [has_access_to_entity] raises
    the not-found error for an undeclared type, then for an entity not
    declared under the type, in that order and before it looks at the user;
    otherwise it returns, and returns true exactly when the user is in the
    store and the entity is mapped to the user or to a group reachable from
    the user. *)
Theorem has_access_to_entity_behaviour s fuel u t e :
  acyclic (_group_to_group_graph_edges s) →
  size (dom (_group_to_group_graph_edges s)) < fuel →
  (_entities s !! t = None →
   has_access_to_entity fuel s u t e
   = Some (Raised (NotFound EntityType "entity_type")))
  ∧ (∀ es, _entities s !! t = Some es → e ∉ es →
     has_access_to_entity fuel s u t e = Some (Raised (NotFound Entity "entity")))
  ∧ (∀ es, _entities s !! t = Some es → e ∈ es →
     ∃ b, has_access_to_entity fuel s u t e = Some (Returned b)
          ∧ (b = true ↔
             u ∈ _users s
             ∧ (e ∈ row2 u t (_user_to_entity_map s)
                ∨ ∃ g, reachable_from_user s u g
                       ∧ e ∈ row2 g t (_group_to_entity_map s)))).
Proof.
  intros Hac Hfuel. split_and!.
  - intros Ht. unfold has_access_to_entity. by rewrite Ht.
  - intros es Ht He. unfold has_access_to_entity. rewrite Ht.
    by destruct (decide (e ∉ es)).
  - intros es Ht He. destruct (decide (u ∈ _users s)) as [Hu|Hu].
    + destruct (has_access_to_entity_spec s fuel u t e es Hac Hfuel Hu Ht He)
        as (b & Hrun & Hb).
      exists b. split; [done|]. rewrite Hb. split; [done | by intros [_ ?]].
    + exists false. unfold has_access_to_entity. rewrite Ht.
      destruct (decide (e ∉ es)) as [|_]; [done|].
      destruct (decide (u ∉ _users s)) as [_|Hn]; [|by destruct Hn].
      split; [done|]. split; [done | by intros [? _]].
Qed.

(** X9. On a store with acyclic group edges, [get_accessible_entities]
    raises the not-found error for an unknown user, then for an undeclared
    type; otherwise it returns exactly the entities mapped under the type to
    the user or to a group reachable from the user. *)
Theorem get_accessible_entities_behaviour s fuel u t :
  acyclic (_group_to_group_graph_edges s) →
  size (dom (_group_to_group_graph_edges s)) < fuel →
  (u ∉ _users s →
   get_accessible_entities fuel s u t = Some (Raised (NotFound User "user")))
  ∧ (u ∈ _users s → _entities s !! t = None →
     get_accessible_entities fuel s u t
     = Some (Raised (NotFound EntityType "entity_type")))
  ∧ (u ∈ _users s → is_Some (_entities s !! t) →
     ∃ accessible,
       get_accessible_entities fuel s u t = Some (Returned accessible)
       ∧ ∀ e, e ∈ accessible ↔
              e ∈ row2 u t (_user_to_entity_map s)
              ∨ ∃ g, reachable_from_user s u g
                     ∧ e ∈ row2 g t (_group_to_entity_map s)).
Proof.
  intros Hac Hfuel. unfold get_accessible_entities,
    get_user_to_entity_mappings_for_user_and_entity_type. split_and!.
  - intros Hu. by destruct (decide (u ∉ _users s)).
  - intros Hu Ht. destruct (decide (u ∉ _users s)) as [|_]; [done|].
    by destruct (decide (_entities s !! t = None)).
  - intros Hu [es Ht]. destruct (decide (u ∉ _users s)) as [|_]; [done|].
    destruct (decide (_entities s !! t = None)) as [|_]; [congruence|].
    destruct (traverse_collect s fuel u t Hac Hfuel Hu) as (acc & -> & Hacc).
    eexists. split; [done|]. intros e. by rewrite elem_of_union, Hacc.
Qed.

(** ** Additions only add, removals only remove *)

Lemma content_included_refl s : content_included s s.
Proof. by repeat split. Qed.

Lemma addition_includes_content fuel op s r s' :
  is_addition op = true → call fuel op s = Some (r, s') →
  content_included s s'.
Proof.
  intros Hadd Hcall. destruct op; try done; simpl in Hcall; unfold_call Hcall;
    repeat (case_match; simpl in *; simplify_eq);
    try apply content_included_refl.
  all: repeat match goal with Hd : decide _ = _ |- _ => clear Hd end.
  all: repeat split; simpl; try done; intros;
    unfold add_to_row2;
    rewrite ?row_insert, ?row2_insert; repeat case_decide; subst;
    try set_solver.
  all: try match goal with
    | |- is_Some (<[?k := _]> _ !! ?k') =>
      destruct (decide (k = k')) as [->|];
        [rewrite lookup_insert_eq | rewrite lookup_insert_ne by done]; by eauto
    end.
  all: unfold row;
    repeat match goal with
    | Hl : _ !! _ = _ |- _ => rewrite Hl
    | Hn : ¬ is_Some (?m !! ?k) |- _ =>
      destruct (m !! k) eqn:?; [destruct Hn; by eauto | clear Hn]
    end; simpl; set_solver.
Qed.

Lemma removal_is_included_content fuel op s r s' :
  is_removal op = true → call fuel op s = Some (r, s') →
  content_included s' s.
Proof.
  intros Hrem Hcall. destruct op; try done; simpl in Hcall; unfold_call Hcall;
    repeat (case_match; simpl in *; simplify_eq);
    try apply content_included_refl.
  all: repeat match goal with Hd : decide _ = _ |- _ => clear Hd end.
  all: repeat split; simpl; try done; intros;
    unfold remove_from_row2;
    rewrite ?row_insert, ?row2_insert, ?row_pop_if_present, ?row2_pop_key,
      ?row2_pop_type, ?row_delete;
    repeat case_decide; subst; try set_solver.
  all: try match goal with
    | |- row2 _ _ (discard_entity _ _ <$> _) ⊆ _ =>
      intros x Hx; by apply row2_discard_entity in Hx as [Hx _]
    | Hs : is_Some (delete ?k _ !! ?k') |- is_Some _ =>
      destruct (decide (k = k')) as [->|];
        [rewrite lookup_delete_eq in Hs; by destruct Hs
        |by rewrite lookup_delete_ne in Hs]
    | Hs : is_Some (<[?k := _]> _ !! ?k') |- is_Some _ =>
      destruct (decide (k = k')) as [->|];
        [by eauto | by rewrite lookup_insert_ne in Hs]
    end.
  all: unfold row;
    repeat match goal with Hl : _ !! _ = _ |- _ => rewrite Hl end;
    simpl; set_solver.
Qed.

Lemma reachable_from_user_included s s' u g :
  content_included s s' → reachable_from_user s u g → reachable_from_user s' u g.
Proof.
  intros (_ & _ & _ & _ & Huge & Hgge & _) (g0 & Hg0 & Hpath).
  exists g0. split; [by apply Huge|]. clear Hg0.
  induction Hpath as [|x y z Hxy _ IH]; [done|].
  eapply rtc_l; [|exact IH]. apply edge_row, Hgge. by apply edge_row.
Qed.

(** What a store grants, a store that includes it grants too. *)
Lemma access_included s s' f f' :
  content_included s s' →
  acyclic (_group_to_group_graph_edges s) →
  acyclic (_group_to_group_graph_edges s') →
  size (dom (_group_to_group_graph_edges s)) < f →
  size (dom (_group_to_group_graph_edges s')) < f' →
  (∀ u (c : TComponent) (a : TAccess),
     has_access_to_application_component f s u c a = Some (Returned true) →
     has_access_to_application_component f' s' u c a = Some (Returned true))
  ∧ (∀ u t e,
       has_access_to_entity f s u t e = Some (Returned true) →
       has_access_to_entity f' s' u t e = Some (Returned true)).
Proof.
  intros Hincl Hac Hac' Hf Hf'.
  pose proof Hincl as (Hus & _ & Hdecl & Hent & _ & _ & Hucm & Hgcm & Huem & Hgem).
  split.
  - intros u c a Hrun.
    destruct (has_access_to_application_component_spec s f u c a Hac Hf)
      as (b & Hb & Hiff).
    destruct (has_access_to_application_component_spec s' f' u c a Hac' Hf')
      as (b' & -> & Hiff').
    rewrite Hrun in Hb. injection Hb as <-. do 2 f_equal. apply Hiff'.
    destruct (proj1 Hiff eq_refl) as [Hu Hgrant]. split; [by apply Hus|].
    destruct Hgrant as [Hd | (g & Hg & Hd)]; [left; by apply Hucm|].
    right. exists g. split; [by eapply reachable_from_user_included | by apply Hgcm].
  - intros u t e Hrun.
    destruct (has_access_to_entity_behaviour s f u t e Hac Hf) as (Hnone & Hmiss & Hok).
    destruct (_entities s !! t) as [es|] eqn:Ht;
      [|rewrite (Hnone eq_refl) in Hrun; done].
    destruct (decide (e ∈ es)) as [He|He];
      [|rewrite (Hmiss es eq_refl He) in Hrun; done].
    destruct (Hok es eq_refl He) as (b & Hb & Hiff).
    rewrite Hrun in Hb. injection Hb as <-.
    destruct (Hdecl t) as [es' Ht']; [by rewrite Ht|].
    assert (e ∈ es') as He'.
    { pose proof (Hent t e) as Hin. unfold row in Hin. rewrite Ht, Ht' in Hin.
      by apply Hin. }
    destruct (has_access_to_entity_behaviour s' f' u t e Hac' Hf') as (_ & _ & Hok').
    destruct (Hok' es' Ht' He') as (b' & -> & Hiff').
    do 2 f_equal. apply Hiff'.
    destruct (proj1 Hiff eq_refl) as [Hu Hgrant]. split; [by apply Hus|].
    destruct Hgrant as [Hd | (g & Hg & Hd)]; [left; by apply Huem|].
    right. exists g. split; [by eapply reachable_from_user_included | by apply Hgem].
Qed.

(** X10. No addition takes access away: on a reachable store, after a call
    of any [add_...] method, returning or raising, every component access
    and every entity access that was granted is still granted. *)
Theorem addition_keeps_access s fuel op r s' f f' :
  reachable s → is_addition op = true →
  call fuel op s = Some (r, s') →
  size (dom (_group_to_group_graph_edges s)) < f →
  size (dom (_group_to_group_graph_edges s')) < f' →
  (∀ u (c : TComponent) (a : TAccess),
     has_access_to_application_component f s u c a = Some (Returned true) →
     has_access_to_application_component f' s' u c a = Some (Returned true))
  ∧ (∀ u t e,
       has_access_to_entity f s u t e = Some (Returned true) →
       has_access_to_entity f' s' u t e = Some (Returned true)).
Proof.
  intros Hs Hadd Hcall Hf Hf'. apply access_included; try done.
  - by eapply addition_includes_content.
  - by apply reachable_acyclic.
  - apply reachable_acyclic. by eapply reachable_call.
Qed.

(** X11. No removal grants access: on a reachable store, after a call of any
    [remove_...] method, returning or raising, every component access and
    every entity access that is granted was granted before the call. *)
Theorem removal_grants_no_access s fuel op r s' f f' :
  reachable s → is_removal op = true →
  call fuel op s = Some (r, s') →
  size (dom (_group_to_group_graph_edges s)) < f →
  size (dom (_group_to_group_graph_edges s')) < f' →
  (∀ u (c : TComponent) (a : TAccess),
     has_access_to_application_component f' s' u c a = Some (Returned true) →
     has_access_to_application_component f s u c a = Some (Returned true))
  ∧ (∀ u t e,
       has_access_to_entity f' s' u t e = Some (Returned true) →
       has_access_to_entity f s u t e = Some (Returned true)).
Proof.
  intros Hs Hrem Hcall Hf Hf'. apply access_included; try done.
  - by eapply removal_is_included_content.
  - apply reachable_acyclic. by eapply reachable_call.
  - by apply reachable_acyclic.
Qed.

(** *** The traversal, with an action that records its visits *)

Lemma invoke_all_record_groups l (vs : list TGroup) :
  invoke_all record_groups l vs = (Returned true, vs ++ l).
Proof.
  revert vs. induction l as [|g l IH]; intros vs; simpl.
  - by rewrite app_nil_r.
  - rewrite IH. by rewrite <- app_assoc.
Qed.

(** X12. On a store with acyclic group edges and with enough fuel, the
    traversal from a user of the store returns, and the groups it has
    invoked the action on are exactly the groups reachable from the user:
    it misses none and visits no other. *)
Theorem traversal_visits_exactly_the_reachable_groups s fuel u :
  acyclic (_group_to_group_graph_edges s) →
  size (dom (_group_to_group_graph_edges s)) < fuel →
  u ∈ _users s →
  ∃ visits,
    _traverse_user_and_group_graph_from_user fuel s u record_groups []
    = Some (Returned (), visits)
    ∧ ∀ g, g ∈ visits ↔ reachable_from_user s u g.
Proof.
  intros Hac Hfuel Hu.
  destruct (traverse_from_user_terminates s record_groups fuel u [] Hac Hfuel)
    as [[r vs'] Hrun].
  destruct (traverse_from_user_visits _ _ _ _ _ _ _ Hu Hrun)
    as (visits & ra & Hinv & Hreach & Hraise & Hall).
  rewrite invoke_all_record_groups in Hinv. simpl in Hinv.
  injection Hinv as <- <-.
  destruct (Hall eq_refl) as [(k & -> & _) Hcov]. destruct k.
  exists visits. split; [done|].
  intros g. split; [|by apply Hcov].
  intros Hg. by eapply (proj1 (Forall_forall _ _) Hreach).
Qed.

(** *** The generators, drained *)

Lemma drain_suspended {I} (l : list I) n s :
  length l < n → drain n (Suspended l) s = (Returned l, Finished).
Proof.
  revert l. induction n as [|n IH]; intros l Hn; [lia|].
  destruct l as [|x l]; simpl; [done|].
  rewrite IH by (simpl in Hn; lia). done.
Qed.

Lemma drain_created {I} (body : AM → outcome (list I)) (l : list I) n s :
  body s = Returned l → length l < n →
  drain n (Created body) s = (Returned l, Finished).
Proof.
  intros Hbody Hn. destruct n as [|n]; [lia|]. simpl. rewrite Hbody.
  destruct l as [|x l]; [done|].
  rewrite drain_suspended by (simpl in Hn; lia). done.
Qed.

Lemma elem_of_entity_pairs (by_type : gmap string (gset string)) t e :
  (t, e) ∈ entity_pairs by_type ↔ ∃ es, by_type !! t = Some es ∧ e ∈ es.
Proof.
  unfold entity_pairs. rewrite list_elem_of_bind. split.
  - intros ([t' es] & Hin & Hrow). apply list_elem_of_fmap in Hin as (e' & Heq & He').
    injection Heq as -> ->. exists es. split.
    + by apply elem_of_map_to_list.
    + by apply elem_of_elements.
  - intros (es & Ht & He). exists (t, es). split.
    + apply list_elem_of_fmap. exists e. split; [done | by apply elem_of_elements].
    + by apply elem_of_map_to_list.
Qed.

Lemma NoDup_entity_pairs (by_type : gmap string (gset string)) :
  NoDup (entity_pairs by_type).
Proof.
  unfold entity_pairs. apply NoDup_bind.
  - intros [t1 es1] [t2 es2] [t e] Hk1 Hk2 Hin1 Hin2.
    apply list_elem_of_fmap in Hin1 as (e1 & Heq1 & _).
    apply list_elem_of_fmap in Hin2 as (e2 & Heq2 & _).
    injection Heq1 as -> ->. injection Heq2 as -> ->.
    apply elem_of_map_to_list in Hk1, Hk2. congruence.
  - intros [t es] _. apply NoDup_fmap_2; [|apply NoDup_elements].
    intros e1 e2 Heq. by injection Heq.
  - apply NoDup_map_to_list.
Qed.

Lemma entity_pairs_row2 `{Countable K} (k : K)
    (d : gmap K (gmap string (gset string))) t e :
  (t, e) ∈ match d !! k with Some by_type => entity_pairs by_type | None => [] end
  ↔ e ∈ row2 k t d.
Proof.
  unfold row2. destruct (d !! k) as [by_type|]; simpl.
  - rewrite elem_of_entity_pairs. destruct (by_type !! t) as [es|]; simpl.
    + split; [by intros (? & [= <-] & ?) | intros; by exists es].
    + split; [by intros (? & ? & ?) | by intros ?%not_elem_of_empty].
  - rewrite lookup_empty. simpl. split; [by intros ?%elem_of_nil | by intros ?%not_elem_of_empty].
Qed.

(** X13. The generators of entity mappings, advanced to the end on an
    unchanged store: for a user of the store, the generator that
    [get_user_to_entity_mappings_for_user] returns yields every pair of an
    entity type and an entity mapped to the user, each exactly once, and
    nothing else; the same for a group of the store and
    [get_group_to_entity_mappings_for_group]. *)
Theorem entity_mapping_generators_yield_each_mapping_once s u gr :
  u ∈ _users s → gr ∈ _groups s →
  (∃ g l, get_user_to_entity_mappings_for_user u s = (Returned g, s)
     ∧ (∀ n, length l < n → drain n g s = (Returned l, Finished))
     ∧ NoDup l
     ∧ ∀ t e, (t, e) ∈ l ↔ e ∈ row2 u t (_user_to_entity_map s))
  ∧ (∃ g l, get_group_to_entity_mappings_for_group gr s = (Returned g, s)
       ∧ (∀ n, length l < n → drain n g s = (Returned l, Finished))
       ∧ NoDup l
       ∧ ∀ t e, (t, e) ∈ l ↔ e ∈ row2 gr t (_group_to_entity_map s)).
Proof.
  intros Hu Hgr. split.
  - exists (Created (get_user_to_entity_mappings_for_user_body u)),
      (match _user_to_entity_map s !! u with
       | Some by_type => entity_pairs by_type | None => [] end).
    split_and!; [done | | |].
    + intros n Hn. apply drain_created; [|done].
      unfold get_user_to_entity_mappings_for_user_body.
      rewrite decide_False by (by intros Hnot).
      by destruct (_user_to_entity_map s !! u).
    + destruct (_user_to_entity_map s !! u);
        [apply NoDup_entity_pairs | constructor].
    + intros t e. apply entity_pairs_row2.
  - exists (Created (get_group_to_entity_mappings_for_group_body gr)),
      (match _group_to_entity_map s !! gr with
       | Some by_type => entity_pairs by_type | None => [] end).
    split_and!; [done | | |].
    + intros n Hn. apply drain_created; [|done].
      unfold get_group_to_entity_mappings_for_group_body.
      rewrite decide_False by (by intros Hnot).
      by destruct (_group_to_entity_map s !! gr).
    + destruct (_group_to_entity_map s !! gr);
        [apply NoDup_entity_pairs | constructor].
    + intros t e. apply entity_pairs_row2.
Qed.

(** *** What each query reads of the store *)

Lemma for_each_edge_group_ext {VS}
    (rec rec' : TGroup → VS → option (outcome bool * VS)) visited l k vs :
  (∀ g vs0, rec g vs0 = rec' g vs0) →
  for_each_edge_group rec visited l k vs
  = for_each_edge_group rec' visited l k vs.
Proof.
  intros Hext. revert k vs. induction l as [|g l IH]; intros k vs; simpl; [done|].
  rewrite Hext. destruct (decide (g ∉ visited)).
  - destruct (rec' g vs) as [[[[]|] ?]|]; auto.
  - destruct k; auto.
Qed.

Lemma recurse_ext {VS} s s' fuel g visited (act : action TGroup VS) vs :
  _group_to_group_graph_edges s = _group_to_group_graph_edges s' →
  _traverse_user_and_group_graph_from_group_recurse fuel s g visited act vs
  = _traverse_user_and_group_graph_from_group_recurse fuel s' g visited act vs.
Proof.
  intros Heq. revert g vs. induction fuel as [|fuel IH]; intros g vs; simpl; [done|].
  destruct (act g vs) as [[b|e] vs']; [|done]. rewrite <- Heq.
  destruct (_group_to_group_graph_edges s !! g); [|done].
  apply for_each_edge_group_ext. intros. apply IH.
Qed.

Lemma for_each_user_group_ext {VS}
    (rec rec' : TGroup → VS → option (outcome bool * VS)) l vs :
  (∀ g vs0, rec g vs0 = rec' g vs0) →
  for_each_user_group rec l vs = for_each_user_group rec' l vs.
Proof.
  intros Hext. revert vs. induction l as [|g l IH]; intros vs; simpl; [done|].
  rewrite Hext. destruct (rec' g vs) as [[[|] ?]|]; auto.
Qed.

(** The traversal from a user reads whether the user is in the store, the
    user's row of edges and the edges between groups. *)
Lemma traverse_from_user_ext {VS} s s' fuel u (act : action TGroup VS) vs :
  (u ∈ _users s ↔ u ∈ _users s') →
  _user_to_group_graph_edges s !! u = _user_to_group_graph_edges s' !! u →
  _group_to_group_graph_edges s = _group_to_group_graph_edges s' →
  _traverse_user_and_group_graph_from_user fuel s u act vs
  = _traverse_user_and_group_graph_from_user fuel s' u act vs.
Proof.
  intros Hu Huge Hgge. unfold _traverse_user_and_group_graph_from_user.
  rewrite <- Huge.
  destruct (decide (u ∉ _users s)), (decide (u ∉ _users s')); try done;
    try (exfalso; tauto).
  destruct (_user_to_group_graph_edges s !! u); [|done].
  apply for_each_user_group_ext. intros. by apply recurse_ext.
Qed.

Lemma has_access_to_application_component_ext s s' fuel u
    (c : TComponent) (a : TAccess) :
  (u ∈ _users s ↔ u ∈ _users s') →
  _user_to_group_graph_edges s !! u = _user_to_group_graph_edges s' !! u →
  _group_to_group_graph_edges s = _group_to_group_graph_edges s' →
  row u (_user_to_component_map s) = row u (_user_to_component_map s') →
  _group_to_component_map s = _group_to_component_map s' →
  has_access_to_application_component fuel s u c a
  = has_access_to_application_component fuel s' u c a.
Proof.
  intros Hu Huge Hgge Hucm Hgcm. unfold has_access_to_application_component.
  rewrite <- Hucm, <- Hgcm,
    (traverse_from_user_ext s s' fuel u _ _ Hu Huge Hgge).
  destruct (decide (u ∉ _users s)), (decide (u ∉ _users s')); try done;
    exfalso; tauto.
Qed.

Lemma has_access_to_entity_ext s s' fuel u t e :
  (u ∈ _users s ↔ u ∈ _users s') →
  _user_to_group_graph_edges s !! u = _user_to_group_graph_edges s' !! u →
  _group_to_group_graph_edges s = _group_to_group_graph_edges s' →
  _entities s = _entities s' →
  (∀ t', row2 u t' (_user_to_entity_map s) = row2 u t' (_user_to_entity_map s')) →
  _group_to_entity_map s = _group_to_entity_map s' →
  has_access_to_entity fuel s u t e = has_access_to_entity fuel s' u t e.
Proof.
  intros Hu Huge Hgge Hent Huem Hgem. unfold has_access_to_entity.
  rewrite <- Hent, <- Huem, <- Hgem,
    (traverse_from_user_ext s s' fuel u _ _ Hu Huge Hgge).
  destruct (_entities s !! t); [|done]. destruct (decide (e ∉ g)); [done|].
  destruct (decide (u ∉ _users s)), (decide (u ∉ _users s')); try done;
    exfalso; tauto.
Qed.

Lemma get_accessible_entities_ext s s' fuel u t :
  (u ∈ _users s ↔ u ∈ _users s') →
  _user_to_group_graph_edges s !! u = _user_to_group_graph_edges s' !! u →
  _group_to_group_graph_edges s = _group_to_group_graph_edges s' →
  _entities s = _entities s' →
  (∀ t', row2 u t' (_user_to_entity_map s) = row2 u t' (_user_to_entity_map s')) →
  _group_to_entity_map s = _group_to_entity_map s' →
  get_accessible_entities fuel s u t = get_accessible_entities fuel s' u t.
Proof.
  intros Hu Huge Hgge Hent Huem Hgem.
  unfold get_accessible_entities,
    get_user_to_entity_mappings_for_user_and_entity_type.
  rewrite <- Hent, <- Huem, <- Hgem,
    (traverse_from_user_ext s s' fuel u _ _ Hu Huge Hgge).
  destruct (decide (u ∉ _users s)), (decide (u ∉ _users s')); try done;
    exfalso; tauto.
Qed.

(** X14. A call of an operation on one user, returning or raising, changes
    no answer of the three access queries for any other user. *)
Theorem other_users_are_unaffected fuel op s r s' u u' :
  operation_user op = Some u → u' ≠ u →
  call fuel op s = Some (r, s') →
  ∀ f,
    (∀ (c : TComponent) (a : TAccess),
       has_access_to_application_component f s' u' c a
       = has_access_to_application_component f s u' c a)
    ∧ (∀ t e, has_access_to_entity f s' u' t e = has_access_to_entity f s u' t e)
    ∧ (∀ t, get_accessible_entities f s' u' t = get_accessible_entities f s u' t).
Proof.
  intros Hop Hne Hcall f.
  assert (u ≠ u') as Hne' by done.
  assert ((u' ∈ _users s' ↔ u' ∈ _users s)
          ∧ _user_to_group_graph_edges s' !! u' = _user_to_group_graph_edges s !! u'
          ∧ _group_to_group_graph_edges s' = _group_to_group_graph_edges s
          ∧ row u' (_user_to_component_map s') = row u' (_user_to_component_map s)
          ∧ _group_to_component_map s' = _group_to_component_map s
          ∧ _entities s' = _entities s
          ∧ (∀ t', row2 u' t' (_user_to_entity_map s')
                   = row2 u' t' (_user_to_entity_map s))
          ∧ _group_to_entity_map s' = _group_to_entity_map s)
    as (Hu & Huge & Hgge & Hucm & Hgcm & Hent & Huem & Hgem).
  { destruct op; try done; simpl in Hop; injection Hop as ->;
      simpl in Hcall; unfold_call Hcall;
      repeat (case_match; simpl in *; simplify_eq).
    all: repeat match goal with Hd : decide _ = _ |- _ => clear Hd end.
    all: split_and!; simpl; try done; intros;
      unfold remove_from_row2, add_to_row2;
      rewrite ?row_insert, ?row2_insert, ?row_pop_if_present, ?row2_pop_key,
        ?lookup_insert_ne by done;
      repeat case_decide; try done; try set_solver. }
  split_and!; intros.
  - by apply has_access_to_application_component_ext.
  - by apply has_access_to_entity_ext.
  - by apply get_accessible_entities_ext.
Qed.

(** X15. A call of an operation on entity types, entities or entity
    mappings, returning or raising, changes no answer of
    [has_access_to_application_component]. *)
Theorem entity_operations_keep_component_access fuel op s r s' :
  is_entity_operation op = true →
  call fuel op s = Some (r, s') →
  ∀ f u (c : TComponent) (a : TAccess),
    has_access_to_application_component f s' u c a
    = has_access_to_application_component f s u c a.
Proof.
  intros Hop Hcall f u c a.
  apply has_access_to_application_component_ext;
    destruct op; try done; simpl in Hcall; unfold_call Hcall;
    repeat (case_match; simpl in *; simplify_eq); done.
Qed.

(** X16. A call of an operation on component mappings, returning or
    raising, changes no answer of [has_access_to_entity] and of
    [get_accessible_entities]. *)
Theorem component_operations_keep_entity_access fuel op s r s' :
  is_component_operation op = true →
  call fuel op s = Some (r, s') →
  ∀ f u t,
    get_accessible_entities f s' u t = get_accessible_entities f s u t
    ∧ ∀ e, has_access_to_entity f s' u t e = has_access_to_entity f s u t e.
Proof.
  intros Hop Hcall f u t.
  assert ((u ∈ _users s' ↔ u ∈ _users s)
        ∧ _user_to_group_graph_edges s' !! u = _user_to_group_graph_edges s !! u
        ∧ _group_to_group_graph_edges s' = _group_to_group_graph_edges s
        ∧ _entities s' = _entities s
        ∧ (∀ t', row2 u t' (_user_to_entity_map s')
                 = row2 u t' (_user_to_entity_map s))
        ∧ _group_to_entity_map s' = _group_to_entity_map s)
    as (Hu & Huge & Hgge & Hent & Huem & Hgem).
  { destruct op; try done; simpl in Hcall; unfold_call Hcall;
      repeat (case_match; simpl in *; simplify_eq); done. }
  split; [|intros e].
  - by apply get_accessible_entities_ext.
  - by apply has_access_to_entity_ext.
Qed.

(** *** Additions followed by queries *)

(** On a reachable store, a user has whatever is mapped to a group the
    user reaches. *)
Lemma reaching_user_has_access s f u h :
  reachable s → size (dom (_group_to_group_graph_edges s)) < f →
  u ∈ _users s → reachable_from_user s u h →
  (∀ (c : TComponent) (a : TAccess),
     (c, a) ∈ row h (_group_to_component_map s) →
     has_access_to_application_component f s u c a = Some (Returned true))
  ∧ (∀ t e, e ∈ row2 h t (_group_to_entity_map s) →
       has_access_to_entity f s u t e = Some (Returned true)).
Proof.
  intros Hs Hf Hu Hh. pose proof (reachable_acyclic s Hs) as Hac. split.
  - intros c a Hca.
    destruct (has_access_to_application_component_spec s f u c a Hac Hf)
      as (b & -> & Hiff).
    do 2 f_equal. apply Hiff. split; [done|]. right. by exists h.
  - intros t e He.
    destruct (row2_declared (_entities s) (_group_to_entity_map s) h t e)
      as (es & Ht & Hes); [apply (reachable_rows_valid s Hs) | done |].
    destruct (has_access_to_entity_behaviour s f u t e Hac Hf) as (_ & _ & Hok).
    destruct (Hok es Ht Hes) as (b & -> & Hiff).
    do 2 f_equal. apply Hiff. split; [done|]. right. by exists h.
Qed.

(** X17. A mapping that has just been added is effective.  After
    [add_user_to_application_component_and_access_level_mapping] or
    [add_user_to_entity_mapping] returns, the user has the access, whatever
    the fuel; after the group variants return on a reachable store, every
    user of the store who reaches the group has it. *)
Theorem granted_mapping_is_effective s :
  (∀ u (c : TComponent) (a : TAccess) s' f,
     add_user_to_application_component_and_access_level_mapping u c a s
     = (Returned (), s') →
     has_access_to_application_component f s' u c a = Some (Returned true))
  ∧ (∀ u t e s' f,
       add_user_to_entity_mapping u t e s = (Returned (), s') →
       has_access_to_entity f s' u t e = Some (Returned true))
  ∧ (reachable s →
     ∀ g (c : TComponent) (a : TAccess) s' f u,
       add_group_to_application_component_and_access_level_mapping g c a s
       = (Returned (), s') →
       size (dom (_group_to_group_graph_edges s')) < f →
       u ∈ _users s' → reachable_from_user s' u g →
       has_access_to_application_component f s' u c a = Some (Returned true))
  ∧ (reachable s →
     ∀ g t e s' f u,
       add_group_to_entity_mapping g t e s = (Returned (), s') →
       size (dom (_group_to_group_graph_edges s')) < f →
       u ∈ _users s' → reachable_from_user s' u g →
       has_access_to_entity f s' u t e = Some (Returned true)).
Proof.
  split_and!.
  - intros u c a s' f Hcall. unfold_call Hcall.
    repeat (case_match; simpl in *; simplify_eq);
      unfold has_access_to_application_component; simpl;
      rewrite decide_False by (by intros Hnot);
      rewrite decide_True; try done;
      rewrite row_insert, decide_True by done; set_solver.
  - intros u t e s' f Hcall. unfold_call Hcall.
    repeat (case_match; simpl in *; simplify_eq).
    unfold has_access_to_entity; simpl.
    match goal with Ht : _entities s !! t = Some _ |- _ => rewrite Ht end.
    rewrite decide_False by (by intros Hnot).
    rewrite decide_False by (by intros Hnot).
    rewrite decide_True; [done|].
    unfold add_to_row2. rewrite (row2_insert u u t t), decide_True by done.
    set_solver.
  - intros Hs g c a s' f u Hcall Hf Hu Hg.
    assert (reachable s') as Hs'
      by exact (reachable_call s 0 (AddGroupToComponentMapping g c a) _ s' Hs
                  (f_equal Some Hcall)).
    apply (reaching_user_has_access s' f u g Hs' Hf Hu Hg).
    clear Hs Hs' Hf Hu Hg. unfold_call Hcall.
    repeat (case_match; simpl in *; simplify_eq); simpl;
      rewrite row_insert, decide_True by done; set_solver.
  - intros Hs g t e s' f u Hcall Hf Hu Hg.
    assert (reachable s') as Hs'
      by exact (reachable_call s 0 (AddGroupToEntityMapping g t e) _ s' Hs
                  (f_equal Some Hcall)).
    apply (reaching_user_has_access s' f u g Hs' Hf Hu Hg).
    clear Hs Hs' Hf Hu Hg. unfold_call Hcall.
    repeat (case_match; simpl in *; simplify_eq).
    unfold add_to_row2. simpl.
    rewrite (row2_insert g g t t), decide_True by done. set_solver.
Qed.

(** X18. A new membership conveys access.  On a reachable store, after
    [add_user_to_group_mapping] returns, the user has every component
    access and every entity access mapped to the group or to a group
    reachable from it; after [add_group_to_group_mapping] returns, so has
    every user who reaches the group the edge starts from. *)
Theorem new_membership_conveys_access s :
  reachable s →
  (∀ u g s' f h,
     add_user_to_group_mapping u g s = (Returned (), s') →
     size (dom (_group_to_group_graph_edges s')) < f →
     rtc (edge (_group_to_group_graph_edges s')) g h →
     (∀ (c : TComponent) (a : TAccess),
        (c, a) ∈ row h (_group_to_component_map s') →
        has_access_to_application_component f s' u c a = Some (Returned true))
     ∧ (∀ t e, e ∈ row2 h t (_group_to_entity_map s') →
          has_access_to_entity f s' u t e = Some (Returned true)))
  ∧ (∀ fuel from_group to_group s' f u h,
       add_group_to_group_mapping fuel from_group to_group s
       = Some (Returned (), s') →
       size (dom (_group_to_group_graph_edges s')) < f →
       u ∈ _users s' → reachable_from_user s' u from_group →
       rtc (edge (_group_to_group_graph_edges s')) to_group h →
       (∀ (c : TComponent) (a : TAccess),
          (c, a) ∈ row h (_group_to_component_map s') →
          has_access_to_application_component f s' u c a = Some (Returned true))
       ∧ (∀ t e, e ∈ row2 h t (_group_to_entity_map s') →
            has_access_to_entity f s' u t e = Some (Returned true))).
Proof.
  intros Hs. split.
  - intros u g s' f h Hcall Hf Hh.
    assert (reachable s') as Hs'
      by exact (reachable_call s 0 (AddUserToGroupMapping u g) _ s' Hs
                  (f_equal Some Hcall)).
    apply (reaching_user_has_access s' f u h Hs' Hf).
    + clear Hs Hs' Hf Hh. unfold_call Hcall.
      repeat (case_match; simpl in *; simplify_eq);
        by apply dec_stable.
    + exists g. split; [|done]. clear Hs Hs' Hf Hh. unfold_call Hcall.
      repeat (case_match; simpl in *; simplify_eq); simpl;
        rewrite ?insert_insert_eq, row_insert, decide_True by done; set_solver.
  - intros fuel from_group to_group s' f u h Hcall Hf Hu Hfrom Hh.
    assert (reachable s') as Hs'
      by exact (reachable_call s fuel (AddGroupToGroupMapping from_group to_group)
                  _ s' Hs Hcall).
    apply (reaching_user_has_access s' f u h Hs' Hf Hu).
    destruct Hfrom as (g0 & Hg0 & Hpath). exists g0. split; [done|].
    etrans; [exact Hpath|]. eapply rtc_l; [|exact Hh].
    apply add_group_to_group_mapping_returned in Hcall as (_ & _ & _ & _ & ->).
    apply edge_row. simpl. rewrite row_insert, decide_True by done. set_solver.
Qed.

(** X19. On a reachable store, the entities [get_accessible_entities]
    returns for a user of the store and a declared entity type are
    declared entities of that type. *)
Theorem accessible_entities_are_declared s fuel u t es :
  reachable s → size (dom (_group_to_group_graph_edges s)) < fuel →
  u ∈ _users s → _entities s !! t = Some es →
  ∃ accessible,
    get_accessible_entities fuel s u t = Some (Returned accessible)
    ∧ accessible ⊆ es.
Proof.
  intros Hs Hf Hu Ht.
  destruct (get_accessible_entities_behaviour s fuel u t
              (reachable_acyclic s Hs) Hf) as (_ & _ & Hok).
  destruct (Hok Hu) as (accessible & Hrun & Hiff); [by rewrite Ht|].
  exists accessible. split; [done|].
  pose proof (reachable_rows_valid s Hs) as Hvalid.
  intros e [He | (g & _ & He)]%Hiff.
  - by eapply (row2_subseteq_declared (_entities s) (_user_to_entity_map s));
      [apply Hvalid | |].
  - by eapply (row2_subseteq_declared (_entities s) (_group_to_entity_map s));
      [apply Hvalid | |].
Qed.

End FurtherProperties.

(** * The scenarios *)

(** Each store of the scenarios is reached from the empty one by calls of
    public methods that all return. *)
Lemma scenarios_built :
  calls 10 diamond_calls __init__ = Some diamond
  ∧ calls 10 member_calls __init__ = Some member
  ∧ calls 10 nested_calls __init__ = Some nested
  ∧ calls 10 single_mapping_calls __init__ = Some single_mapping
  ∧ calls 10 unjoined_calls __init__ = Some unjoined
  ∧ calls 10 chain_calls __init__ = Some chain
  ∧ calls 10 component_scenario_calls __init__ = Some component_scenario
  ∧ calls 10 entity_scenario_calls __init__ = Some entity_scenario.
Proof. by_evaluation. Qed.

Lemma diamond_invariants : global_invariants diamond.
Proof. apply (invariants_check_sound descending_rank). by_evaluation. Qed.

Lemma chain_invariants : global_invariants chain.
Proof. apply (invariants_check_sound descending_rank). by_evaluation. Qed.

Lemma component_scenario_invariants : global_invariants component_scenario.
Proof. apply (invariants_check_sound descending_rank). by_evaluation. Qed.

Lemma entity_scenario_invariants : global_invariants entity_scenario.
Proof. apply (invariants_check_sound descending_rank). by_evaluation. Qed.

Lemma calls_reachable fuel ops (s s' : TestAccessManager) :
  reachable s → calls fuel ops s = Some s' → reachable s'.
Proof.
  revert s. induction ops as [|op ops IH]; intros s Hs; simpl.
  - by intros [= <-].
  - destruct (call fuel op s) as [[[[]|e] s1]|] eqn:Hcall; [|done..].
    apply IH. by eapply reachable_call.
Qed.

Lemma unjoined_reachable : reachable unjoined.
Proof.
  apply (calls_reachable 10 unjoined_calls __init__); [constructor|].
  apply scenarios_built.
Qed.

(** ** Scenarios of the specification *)

(** S2: closing the chain is refused and the edges stay as they were. *)
Example scenario_cycle_rejection :
  add_group_to_group_mapping 10 "g3" "g1" chain
  = Some (Raised CircularReference, chain).
Proof. by_evaluation. Qed.

(** S3: u3 reaches g3 through g2; u1 is in no group. *)
Example scenario_transitive_component_access :
  has_access_to_application_component 10 component_scenario "u3" ORDER VIEW
    = Some (Returned true)
  ∧ has_access_to_application_component 10 component_scenario "u1" ORDER VIEW
    = Some (Returned false).
Proof. by_evaluation. Qed.

(** S4: direct and inherited entities, without the one of another type. *)
Example scenario_transitive_entity_access :
  get_accessible_entities 10 entity_scenario "u2" "ClientAccount"
  = Some (Returned {[ "CompanyA"; "CompanyB"; "CompanyC" ]}).
Proof. by_evaluation. Qed.

(** ** Where the code departs from the specification *)

(** C1 does not hold of the code: the recursive helper tests
    [visited_groups] but never adds to it, so a group that two paths lead
    to is visited once per path.  On the acyclic diamond, one traversal
    from user [u] invokes the action on group [g4] twice. *)
Theorem diamond_traversal_visits_group_twice :
  acyclic (_group_to_group_graph_edges diamond)
  ∧ _traverse_user_and_group_graph_from_user 10 diamond "u" record_visits []
    = Some (Returned (), ["g1"; "g3"; "g4"; "g2"; "g4"])
  ∧ ¬ NoDup ["g1"; "g3"; "g4"; "g2"; "g4"].
Proof.
  split; [apply (inv_acyclic _ diamond_invariants)|]. by_evaluation.
Qed.

(** C2 does not hold of the code: [remove_user] pops the user from the
    component and entity dicts and from [_users], and leaves the row of the
    user in [_user_to_group_graph_edges].  After removing the member [u] of
    group [g], the user is gone and the row is still there: added again,
    the user is a member of [g] at once. *)
Theorem remove_user_keeps_group_edges :
  fst (remove_user "u" member) = Returned ()
  ∧ ("u" ∉ _users (snd (remove_user "u" member)))
  ∧ _user_to_group_graph_edges (snd (remove_user "u" member)) !! "u"
    = Some {[ "g" ]}
  ∧ get_user_to_group_mappings
      (snd (add_user "u" (snd (remove_user "u" member)))) "u"
    = Returned ["g"].
Proof. by_evaluation. Qed.

(** C6 does not hold of the code: [remove_group] leaves the row of the
    group in [_group_to_group_graph_edges].  After removing group [g], which
    is mapped to group [h], the group is gone and its row is still there:
    added again, the group is mapped to [h] at once. *)
Theorem remove_group_keeps_group_edges :
  fst (remove_group "g" nested) = Returned ()
  ∧ ("g" ∉ _groups (snd (remove_group "g" nested)))
  ∧ _group_to_group_graph_edges (snd (remove_group "g" nested)) !! "g"
    = Some {[ "h" ]}
  ∧ get_group_to_group_mappings
      (snd (add_group "g" (snd (remove_group "g" nested)))) "g"
    = Returned ["h"].
Proof. by_evaluation. Qed.

(** C4 does not hold of the code: removing the only component mapping of a
    user, or of a group, raises [AttributeError] after the pair has been
    taken out of the row, so the failed call leaves a store that differs
    from the one before it: the row is now empty. *)
Theorem remove_last_component_mapping_fails_after_writing :
  call 0 (RemoveUserToComponentMapping "u" ORDER VIEW) single_mapping
    = Some (Raised AttributeError,
            set_user_to_component_map (<["u" := ∅]>) single_mapping)
  ∧ (set_user_to_component_map (<["u" := ∅]>) single_mapping ≠ single_mapping)
  ∧ call 0 (RemoveGroupToComponentMapping "g" ORDER VIEW) single_mapping
    = Some (Raised AttributeError,
            set_group_to_component_map (<["g" := ∅]>) single_mapping)
  ∧ (set_group_to_component_map (<["g" := ∅]>) single_mapping ≠ single_mapping).
Proof. by_evaluation. Qed.

(** C9 does not hold as stated: adding and then removing the first
    user-to-group mapping of a user returns, and leaves an empty row for
    the user where the store had none. *)
Lemma add_then_remove_leaves_empty_row :
  ¬ (∀ (s : TestAccessManager) (op rm : TestOperation) fuel s1,
       corresponding_remove op = Some rm →
       call fuel op s = Some (Returned (), s1) →
       call fuel rm s1 = Some (Returned (), s)).
Proof.
  intros Hclaim.
  assert (call 0 (AddUserToGroupMapping "u" "g") unjoined
          = Some (Returned (),
                  set_user_to_group_graph_edges (<["u" := {[ "g" ]}]>) unjoined))
    as Hadd by by_evaluation.
  apply (Hclaim unjoined (AddUserToGroupMapping "u" "g")
           (RemoveUserToGroupMapping "u" "g") 0 _ eq_refl) in Hadd.
  revert Hadd. by_evaluation.
Qed.

(** ** The theorems at a concrete store *)

(** The termination theorem on the diamond, with the recording action. *)
Lemma traversal_terminates_on_acyclic_graph_witness :
  acyclic (_group_to_group_graph_edges diamond)
  ∧ (∀ g vs0, ∃ k vs1, record_visits g vs0 = (Returned k, vs1))
  ∧ size (dom (_group_to_group_graph_edges diamond)) < 10
  ∧ ((∀ g visited vs0,
        is_Some (_traverse_user_and_group_graph_from_group_recurse
                   10 diamond g visited record_visits vs0))
     ∧ ∃ r vs',
         _traverse_user_and_group_graph_from_user 10 diamond "u" record_visits []
           = Some (r, vs')
         ∧ ("u" ∈ _users diamond → r = Returned ())
         ∧ ("u" ∉ _users diamond → r = Raised (NotFound User "start_user"))).
Proof.
  assert (acyclic (_group_to_group_graph_edges diamond)) as Hac
    by apply (inv_acyclic _ diamond_invariants).
  assert (∀ g vs0, ∃ k vs1, record_visits g vs0 = (Returned k, vs1)) as Hact
    by (intros g vs0; eexists _, _; reflexivity).
  assert (size (dom (_group_to_group_graph_edges diamond)) < 10) as Hfuel
    by by_evaluation.
  refine (conj Hac (conj Hact (conj Hfuel _))).
  exact (traversal_terminates_on_acyclic_graph diamond record_visits 10 "u" []
           Hac Hact Hfuel).
Defined.

(** The cycle check on the chain: [g3 -> g1] is refused, since [g3] is
    reached from [g1]. *)
Lemma add_group_to_group_mapping_cycle_check_witness :
  acyclic (_group_to_group_graph_edges chain)
  ∧ add_group_to_group_mapping 10 "g3" "g1" chain
    = Some (Raised CircularReference, chain)
  ∧ rtc (edge (_group_to_group_graph_edges chain)) "g1" "g3"
  ∧ ∀ fuel (op : TestOperation) s',
      call fuel op chain = Some (Returned (), s') →
      acyclic (_group_to_group_graph_edges s').
Proof.
  assert (acyclic (_group_to_group_graph_edges chain)) as Hac
    by apply (inv_acyclic _ chain_invariants).
  assert ("g3" ∈ _groups chain) as Hf by by_evaluation.
  assert ("g1" ∈ _groups chain) as Ht by by_evaluation.
  assert ("g3" ≠ "g1") as Hne by by_evaluation.
  assert (¬ edge (_group_to_group_graph_edges chain) "g3" "g1") as Hnew
    by (rewrite edge_row; by_evaluation).
  assert (size (dom (_group_to_group_graph_edges chain)) < 10) as Hfuel
    by by_evaluation.
  destruct (add_group_to_group_mapping_cycle_check chain Hac) as [Hcheck Hkeeps].
  destruct (Hcheck 10 "g3" "g1" Hf Ht Hne Hnew Hfuel)
    as (r & s' & Hrun & Hiff & _ & _).
  assert (add_group_to_group_mapping 10 "g3" "g1" chain
          = Some (Raised CircularReference, chain)) as Heval by by_evaluation.
  rewrite Heval in Hrun. injection Hrun as <- <-.
  refine (conj Hac (conj Heval (conj _ Hkeeps))). by apply Hiff.
Defined.

(** Component access in scenario S3, for user [u3]. *)
Lemma has_access_to_application_component_correct_witness :
  global_invariants component_scenario
  ∧ size (dom (_group_to_group_graph_edges component_scenario)) < 10
  ∧ ∃ b, has_access_to_application_component 10 component_scenario "u3" ORDER VIEW
           = Some (Returned b)
         ∧ ("u3" ∉ _users component_scenario → b = false)
         ∧ ("u3" ∈ _users component_scenario →
            (b = true ↔
             (ORDER, VIEW) ∈ row "u3" (_user_to_component_map component_scenario)
             ∨ ∃ g, reachable_from_user component_scenario "u3" g
                    ∧ (ORDER, VIEW)
                      ∈ row g (_group_to_component_map component_scenario))).
Proof.
  assert (size (dom (_group_to_group_graph_edges component_scenario)) < 10)
    as Hfuel by by_evaluation.
  refine (conj component_scenario_invariants (conj Hfuel _)).
  exact (has_access_to_application_component_correct component_scenario 10
           "u3" ORDER VIEW component_scenario_invariants Hfuel).
Defined.

(** Accessible entities in scenario S4, for user [u2]. *)
Lemma get_accessible_entities_agrees_with_has_access_to_entity_witness :
  global_invariants entity_scenario
  ∧ "u2" ∈ _users entity_scenario
  ∧ _entities entity_scenario !! "ClientAccount"
    = Some {[ "CompanyA"; "CompanyB"; "CompanyC"; "CompanyD" ]}
  ∧ size (dom (_group_to_group_graph_edges entity_scenario)) < 10
  ∧ ∃ accessible,
      get_accessible_entities 10 entity_scenario "u2" "ClientAccount"
        = Some (Returned accessible)
      ∧ ∀ e, e ∈ accessible ↔
             e ∈ ({[ "CompanyA"; "CompanyB"; "CompanyC"; "CompanyD" ]} : gset string)
             ∧ has_access_to_entity 10 entity_scenario "u2" "ClientAccount" e
               = Some (Returned true).
Proof.
  assert ("u2" ∈ _users entity_scenario) as Hu by by_evaluation.
  assert (_entities entity_scenario !! "ClientAccount"
          = Some {[ "CompanyA"; "CompanyB"; "CompanyC"; "CompanyD" ]}) as Ht
    by by_evaluation.
  assert (size (dom (_group_to_group_graph_edges entity_scenario)) < 10)
    as Hfuel by by_evaluation.
  refine (conj entity_scenario_invariants (conj Hu (conj Ht (conj Hfuel _)))).
  exact (get_accessible_entities_agrees_with_has_access_to_entity
           entity_scenario 10 "u2" "ClientAccount" _
           entity_scenario_invariants Hu Ht Hfuel).
Defined.

(** The round trip of the first user-to-group mapping of a user. *)
Lemma add_then_remove_restores_content_witness :
  reachable unjoined
  ∧ corresponding_remove (AddUserToGroupMapping "u" "g" : TestOperation)
    = Some (RemoveUserToGroupMapping "u" "g")
  ∧ call 0 (AddUserToGroupMapping "u" "g") unjoined
    = Some (Returned (),
            set_user_to_group_graph_edges (<["u" := {[ "g" ]}]>) unjoined)
  ∧ ((is_component_mapping (AddUserToGroupMapping "u" "g" : TestOperation) = false →
      ∃ s2, call 0 (RemoveUserToGroupMapping "u" "g")
              (set_user_to_group_graph_edges (<["u" := {[ "g" ]}]>) unjoined)
            = Some (Returned (), s2)
            ∧ same_content s2 unjoined)
     ∧ (writes_existing_row (AddUserToGroupMapping "u" "g") unjoined →
        call 0 (RemoveUserToGroupMapping "u" "g")
          (set_user_to_group_graph_edges (<["u" := {[ "g" ]}]>) unjoined)
        = Some (Returned (), unjoined))).
Proof.
  assert (call 0 (AddUserToGroupMapping "u" "g") unjoined
          = Some (Returned (),
                  set_user_to_group_graph_edges (<["u" := {[ "g" ]}]>) unjoined))
    as Hadd by by_evaluation.
  refine (conj unjoined_reachable (conj eq_refl (conj Hadd _))).
  exact (add_then_remove_restores_content unjoined 0
           (AddUserToGroupMapping "u" "g") (RemoveUserToGroupMapping "u" "g") _
           unjoined_reachable eq_refl Hadd).
Defined.

(** The generators on the empty store. *)
Lemma entity_mapping_generators_raise_on_first_next_witness :
  ("u" ∉ _users (__init__ : TestAccessManager))
  ∧ ("g" ∉ _groups (__init__ : TestAccessManager))
  ∧ ((∃ gen, get_user_to_entity_mappings_for_user "u" (__init__ : TestAccessManager)
             = (Returned gen, __init__)
             ∧ fst (next gen __init__) = Raised (NotFound User "user"))
     ∧ (∃ gen, get_group_to_entity_mappings_for_group "g" (__init__ : TestAccessManager)
               = (Returned gen, __init__)
               ∧ fst (next gen __init__) = Raised (NotFound Group "group"))).
Proof.
  assert ("u" ∉ _users (__init__ : TestAccessManager)) as Hu by by_evaluation.
  assert ("g" ∉ _groups (__init__ : TestAccessManager)) as Hg by by_evaluation.
  refine (conj Hu (conj Hg _)).
  exact (entity_mapping_generators_raise_on_first_next __init__ "u" "g" Hu Hg).
Defined.

(** ** Further theorems at a concrete store *)

Lemma scenarios_reachable :
  reachable diamond ∧ reachable member ∧ reachable single_mapping.
Proof.
  destruct scenarios_built as (Hd & Hm & _ & Hs & _).
  split_and!.
  - exact (calls_reachable 10 _ __init__ _ reachable_init Hd).
  - exact (calls_reachable 10 _ __init__ _ reachable_init Hm).
  - exact (calls_reachable 10 _ __init__ _ reachable_init Hs).
Qed.

Lemma access_scenario_reachable : reachable access_scenario.
Proof.
  apply (calls_reachable 10 access_scenario_calls __init__); [constructor|].
  by_evaluation.
Qed.

Lemma access_scenario_acyclic :
  acyclic (_group_to_group_graph_edges access_scenario).
Proof. apply reachable_acyclic, access_scenario_reachable. Qed.

(** The invariants on the diamond. *)
Lemma reachable_store_keeps_invariants_witness :
  reachable diamond
  ∧ acyclic (_group_to_group_graph_edges diamond)
  ∧ (∀ g, ¬ edge (_group_to_group_graph_edges diamond) g g)
  ∧ mapping_rows_valid diamond.
Proof.
  assert (reachable diamond) as Hs by apply scenarios_reachable.
  exact (conj Hs (reachable_store_keeps_invariants diamond Hs)).
Defined.

(** The names of the entities of scenario S4. *)
Lemma reachable_store_has_valid_names_witness :
  reachable access_scenario ∧ names_valid (_entities access_scenario).
Proof.
  exact (conj access_scenario_reachable
           (reachable_store_has_valid_names access_scenario
              access_scenario_reachable)).
Defined.

(** The one failure that writes: removing the only component mapping of a
    user. *)
Lemma failed_call_writes_only_with_attribute_error_witness :
  call 0 (RemoveUserToComponentMapping "u" ORDER VIEW) single_mapping
  = Some (Raised AttributeError,
          set_user_to_component_map (<["u" := ∅]>) single_mapping)
  ∧ ((AttributeError ≠ AttributeError
      ∧ set_user_to_component_map (<["u" := ∅]>) single_mapping = single_mapping)
     ∨ (AttributeError = AttributeError
        ∧ ((∃ u c a,
              (RemoveUserToComponentMapping "u" ORDER VIEW : TestOperation)
              = RemoveUserToComponentMapping u c a
              ∧ row u (_user_to_component_map single_mapping) = {[ (c, a) ]}
              ∧ set_user_to_component_map (<["u" := ∅]>) single_mapping
                = set_user_to_component_map (<[u := ∅]>) single_mapping)
           ∨ (∃ g c a,
                (RemoveUserToComponentMapping "u" ORDER VIEW : TestOperation)
                = RemoveGroupToComponentMapping g c a
                ∧ row g (_group_to_component_map single_mapping) = {[ (c, a) ]}
                ∧ set_user_to_component_map (<["u" := ∅]>) single_mapping
                  = set_group_to_component_map (<[g := ∅]>) single_mapping)))).
Proof.
  assert (call 0 (RemoveUserToComponentMapping "u" ORDER VIEW) single_mapping
          = Some (Raised AttributeError,
                  set_user_to_component_map (<["u" := ∅]>) single_mapping))
    as Hcall by by_evaluation.
  exact (conj Hcall
           (failed_call_writes_only_with_attribute_error 0 _ single_mapping _ _
              Hcall)).
Defined.

(** Joining a group twice. *)
Lemma repeated_addition_is_rejected_witness :
  is_addition (AddUserToGroupMapping "u" "g" : TestOperation) = true
  ∧ call 0 (AddUserToGroupMapping "u" "g") unjoined
    = Some (Returned (), store_after 0 (AddUserToGroupMapping "u" "g") unjoined)
  ∧ ∃ what,
      call 0 (AddUserToGroupMapping "u" "g")
        (store_after 0 (AddUserToGroupMapping "u" "g") unjoined)
      = Some (Raised (AlreadyExists what),
              store_after 0 (AddUserToGroupMapping "u" "g") unjoined).
Proof.
  assert (call 0 (AddUserToGroupMapping "u" "g") unjoined
          = Some (Returned (),
                  store_after 0 (AddUserToGroupMapping "u" "g") unjoined))
    as Hcall by by_evaluation.
  refine (conj eq_refl (conj Hcall _)).
  exact (repeated_addition_is_rejected 0 0 (AddUserToGroupMapping "u" "g")
           unjoined _ eq_refl Hcall).
Defined.

(** Leaving a group twice. *)
Lemma repeated_removal_is_rejected_witness :
  is_removal (RemoveUserToGroupMapping "u" "g" : TestOperation) = true
  ∧ call 0 (RemoveUserToGroupMapping "u" "g") member
    = Some (Returned (), store_after 0 (RemoveUserToGroupMapping "u" "g") member)
  ∧ ∃ what parameter_name,
      call 0 (RemoveUserToGroupMapping "u" "g")
        (store_after 0 (RemoveUserToGroupMapping "u" "g") member)
      = Some (Raised (NotFound what parameter_name),
              store_after 0 (RemoveUserToGroupMapping "u" "g") member).
Proof.
  assert (call 0 (RemoveUserToGroupMapping "u" "g") member
          = Some (Returned (),
                  store_after 0 (RemoveUserToGroupMapping "u" "g") member))
    as Hcall by by_evaluation.
  refine (conj eq_refl (conj Hcall _)).
  exact (repeated_removal_is_rejected 0 0 (RemoveUserToGroupMapping "u" "g")
           member _ eq_refl Hcall).
Defined.

(** Removing CompanyB, which a user and a group are mapped to. *)
Lemma remove_entity_purges_the_entity_witness :
  remove_entity "ClientAccount" "CompanyB" access_scenario
  = (Returned (),
     store_after 0 (RemoveEntity "ClientAccount" "CompanyB") access_scenario)
  ∧ "CompanyB" ∈ row2 "u2" "ClientAccount" (_user_to_entity_map access_scenario)
  ∧ "CompanyB" ∈ row2 "g3" "ClientAccount" (_group_to_entity_map access_scenario)
  ∧ ("CompanyB"
     ∉ row "ClientAccount"
         (_entities (store_after 0 (RemoveEntity "ClientAccount" "CompanyB")
                       access_scenario)))
  ∧ ("CompanyB"
     ∉ row2 "u2" "ClientAccount"
         (_user_to_entity_map
            (store_after 0 (RemoveEntity "ClientAccount" "CompanyB")
               access_scenario)))
  ∧ ("CompanyB"
     ∉ row2 "g3" "ClientAccount"
         (_group_to_entity_map
            (store_after 0 (RemoveEntity "ClientAccount" "CompanyB")
               access_scenario))).
Proof.
  assert (remove_entity "ClientAccount" "CompanyB" access_scenario
          = (Returned (),
             store_after 0 (RemoveEntity "ClientAccount" "CompanyB")
               access_scenario)) as Hcall by by_evaluation.
  destruct (remove_entity_purges_the_entity access_scenario "ClientAccount"
              "CompanyB" _ Hcall) as (Hent & _ & Huem & Hgem & _).
  refine (conj Hcall _). split_and!.
  - by_evaluation.
  - by_evaluation.
  - intros Hin. destruct (proj1 (Hent _) Hin) as [_ Hne]. exact (Hne eq_refl).
  - intros Hin. destruct (proj1 (Huem _ _ _) Hin) as [_ Hne]. exact (Hne eq_refl).
  - intros Hin. destruct (proj1 (Hgem _ _ _) Hin) as [_ Hne]. exact (Hne eq_refl).
Defined.

(** Removing the type ClientAccount. *)
Lemma remove_entity_type_purges_the_type_witness :
  remove_entity_type "ClientAccount" access_scenario
  = (Returned (), store_after 0 (RemoveEntityType "ClientAccount") access_scenario)
  ∧ _entities (store_after 0 (RemoveEntityType "ClientAccount") access_scenario)
    = delete "ClientAccount" (_entities access_scenario)
  ∧ row2 "u2" "ClientAccount"
      (_user_to_entity_map
         (store_after 0 (RemoveEntityType "ClientAccount") access_scenario))
    = ∅
  ∧ row2 "g2" "BusinessUnit"
      (_group_to_entity_map
         (store_after 0 (RemoveEntityType "ClientAccount") access_scenario))
    = row2 "g2" "BusinessUnit" (_group_to_entity_map access_scenario).
Proof.
  assert (remove_entity_type "ClientAccount" access_scenario
          = (Returned (),
             store_after 0 (RemoveEntityType "ClientAccount") access_scenario))
    as Hcall by by_evaluation.
  destruct (remove_entity_type_purges_the_type access_scenario "ClientAccount"
              _ Hcall) as (Hent & Huem & Hgem & _).
  refine (conj Hcall (conj Hent (conj _ _))).
  - exact (Huem "u2" "ClientAccount").
  - exact (Hgem "g2" "BusinessUnit").
Defined.

(** Entity access of user [u2], who reaches CompanyC through g2 -> g3. *)
Lemma has_access_to_entity_behaviour_witness :
  acyclic (_group_to_group_graph_edges access_scenario)
  ∧ size (dom (_group_to_group_graph_edges access_scenario)) < 10
  ∧ _entities access_scenario !! "ClientAccount"
    = Some {[ "CompanyA"; "CompanyB"; "CompanyC"; "CompanyD" ]}
  ∧ "CompanyC" ∈ ({[ "CompanyA"; "CompanyB"; "CompanyC"; "CompanyD" ]} : gset string)
  ∧ ∃ b, has_access_to_entity 10 access_scenario "u2" "ClientAccount" "CompanyC"
         = Some (Returned b)
         ∧ (b = true ↔
            "u2" ∈ _users access_scenario
            ∧ ("CompanyC"
               ∈ row2 "u2" "ClientAccount" (_user_to_entity_map access_scenario)
               ∨ ∃ g, reachable_from_user access_scenario "u2" g
                      ∧ "CompanyC"
                        ∈ row2 g "ClientAccount"
                            (_group_to_entity_map access_scenario))).
Proof.
  assert (size (dom (_group_to_group_graph_edges access_scenario)) < 10)
    as Hfuel by by_evaluation.
  assert (_entities access_scenario !! "ClientAccount"
          = Some {[ "CompanyA"; "CompanyB"; "CompanyC"; "CompanyD" ]}) as Ht
    by by_evaluation.
  assert ("CompanyC"
          ∈ ({[ "CompanyA"; "CompanyB"; "CompanyC"; "CompanyD" ]} : gset string))
    as He by by_evaluation.
  refine (conj access_scenario_acyclic (conj Hfuel (conj Ht (conj He _)))).
  exact (proj2 (proj2 (has_access_to_entity_behaviour access_scenario 10 "u2"
                         "ClientAccount" "CompanyC" access_scenario_acyclic Hfuel))
           _ Ht He).
Defined.

(** The accessible client accounts of user [u2]. *)
Lemma get_accessible_entities_behaviour_witness :
  acyclic (_group_to_group_graph_edges access_scenario)
  ∧ size (dom (_group_to_group_graph_edges access_scenario)) < 10
  ∧ "u2" ∈ _users access_scenario
  ∧ is_Some (_entities access_scenario !! "ClientAccount")
  ∧ ∃ accessible,
      get_accessible_entities 10 access_scenario "u2" "ClientAccount"
      = Some (Returned accessible)
      ∧ ∀ e, e ∈ accessible ↔
             e ∈ row2 "u2" "ClientAccount" (_user_to_entity_map access_scenario)
             ∨ ∃ g, reachable_from_user access_scenario "u2" g
                    ∧ e ∈ row2 g "ClientAccount"
                            (_group_to_entity_map access_scenario).
Proof.
  assert (size (dom (_group_to_group_graph_edges access_scenario)) < 10)
    as Hfuel by by_evaluation.
  assert ("u2" ∈ _users access_scenario) as Hu by by_evaluation.
  assert (is_Some (_entities access_scenario !! "ClientAccount")) as Ht
    by by_evaluation.
  refine (conj access_scenario_acyclic (conj Hfuel (conj Hu (conj Ht _)))).
  exact (proj2 (proj2 (get_accessible_entities_behaviour access_scenario 10 "u2"
                         "ClientAccount" access_scenario_acyclic Hfuel))
           Hu Ht).
Defined.

(** A new edge g3 -> g1 takes nothing from user [u2]. *)
Lemma addition_keeps_access_witness :
  reachable access_scenario
  ∧ is_addition (AddGroupToGroupMapping "g3" "g1" : TestOperation) = true
  ∧ call 10 (AddGroupToGroupMapping "g3" "g1") access_scenario
    = Some (Returned (),
            store_after 10 (AddGroupToGroupMapping "g3" "g1") access_scenario)
  ∧ size (dom (_group_to_group_graph_edges access_scenario)) < 10
  ∧ size (dom (_group_to_group_graph_edges
                 (store_after 10 (AddGroupToGroupMapping "g3" "g1")
                    access_scenario))) < 10
  ∧ has_access_to_application_component 10 access_scenario "u2" ORDER VIEW
    = Some (Returned true)
  ∧ has_access_to_entity 10 access_scenario "u2" "ClientAccount" "CompanyC"
    = Some (Returned true)
  ∧ has_access_to_application_component 10
      (store_after 10 (AddGroupToGroupMapping "g3" "g1") access_scenario)
      "u2" ORDER VIEW
    = Some (Returned true)
  ∧ has_access_to_entity 10
      (store_after 10 (AddGroupToGroupMapping "g3" "g1") access_scenario)
      "u2" "ClientAccount" "CompanyC"
    = Some (Returned true).
Proof.
  assert (call 10 (AddGroupToGroupMapping "g3" "g1") access_scenario
          = Some (Returned (),
                  store_after 10 (AddGroupToGroupMapping "g3" "g1")
                    access_scenario)) as Hcall by by_evaluation.
  assert (size (dom (_group_to_group_graph_edges access_scenario)) < 10)
    as Hf by by_evaluation.
  assert (size (dom (_group_to_group_graph_edges
                       (store_after 10 (AddGroupToGroupMapping "g3" "g1")
                          access_scenario))) < 10) as Hf' by by_evaluation.
  assert (has_access_to_application_component 10 access_scenario "u2" ORDER VIEW
          = Some (Returned true)) as Hc by by_evaluation.
  assert (has_access_to_entity 10 access_scenario "u2" "ClientAccount" "CompanyC"
          = Some (Returned true)) as He by by_evaluation.
  destruct (addition_keeps_access access_scenario 10
              (AddGroupToGroupMapping "g3" "g1") _ _ 10 10
              access_scenario_reachable eq_refl Hcall Hf Hf') as [Hkc Hke].
  refine (conj access_scenario_reachable
            (conj eq_refl (conj Hcall (conj Hf (conj Hf' (conj Hc (conj He _))))))).
  exact (conj (Hkc _ _ _ Hc) (Hke _ _ _ He)).
Defined.

(** Dropping the direct mapping of [u2] to CompanyA grants nothing. *)
Lemma removal_grants_no_access_witness :
  reachable access_scenario
  ∧ is_removal (RemoveUserToEntityMapping "u2" "ClientAccount" "CompanyA"
                : TestOperation) = true
  ∧ call 0 (RemoveUserToEntityMapping "u2" "ClientAccount" "CompanyA")
      access_scenario
    = Some (Returned (),
            store_after 0
              (RemoveUserToEntityMapping "u2" "ClientAccount" "CompanyA")
              access_scenario)
  ∧ size (dom (_group_to_group_graph_edges access_scenario)) < 10
  ∧ size (dom (_group_to_group_graph_edges
                 (store_after 0
                    (RemoveUserToEntityMapping "u2" "ClientAccount" "CompanyA")
                    access_scenario))) < 10
  ∧ has_access_to_application_component 10
      (store_after 0 (RemoveUserToEntityMapping "u2" "ClientAccount" "CompanyA")
         access_scenario)
      "u2" ORDER VIEW
    = Some (Returned true)
  ∧ has_access_to_entity 10
      (store_after 0 (RemoveUserToEntityMapping "u2" "ClientAccount" "CompanyA")
         access_scenario)
      "u2" "ClientAccount" "CompanyC"
    = Some (Returned true)
  ∧ has_access_to_application_component 10 access_scenario "u2" ORDER VIEW
    = Some (Returned true)
  ∧ has_access_to_entity 10 access_scenario "u2" "ClientAccount" "CompanyC"
    = Some (Returned true).
Proof.
  assert (call 0 (RemoveUserToEntityMapping "u2" "ClientAccount" "CompanyA")
            access_scenario
          = Some (Returned (),
                  store_after 0
                    (RemoveUserToEntityMapping "u2" "ClientAccount" "CompanyA")
                    access_scenario)) as Hcall by by_evaluation.
  assert (size (dom (_group_to_group_graph_edges access_scenario)) < 10)
    as Hf by by_evaluation.
  assert (size (dom (_group_to_group_graph_edges
                       (store_after 0
                          (RemoveUserToEntityMapping "u2" "ClientAccount"
                             "CompanyA")
                          access_scenario))) < 10) as Hf' by by_evaluation.
  assert (has_access_to_application_component 10
            (store_after 0
               (RemoveUserToEntityMapping "u2" "ClientAccount" "CompanyA")
               access_scenario)
            "u2" ORDER VIEW
          = Some (Returned true)) as Hc by by_evaluation.
  assert (has_access_to_entity 10
            (store_after 0
               (RemoveUserToEntityMapping "u2" "ClientAccount" "CompanyA")
               access_scenario)
            "u2" "ClientAccount" "CompanyC"
          = Some (Returned true)) as He by by_evaluation.
  destruct (removal_grants_no_access access_scenario 0
              (RemoveUserToEntityMapping "u2" "ClientAccount" "CompanyA")
              _ _ 10 10
              access_scenario_reachable eq_refl Hcall Hf Hf') as [Hkc Hke].
  refine (conj access_scenario_reachable
            (conj eq_refl (conj Hcall (conj Hf (conj Hf' (conj Hc (conj He _))))))).
  exact (conj (Hkc _ _ _ Hc) (Hke _ _ _ He)).
Defined.

(** The groups visited from user [u] of the diamond. *)
Lemma traversal_visits_exactly_the_reachable_groups_witness :
  acyclic (_group_to_group_graph_edges diamond)
  ∧ size (dom (_group_to_group_graph_edges diamond)) < 10
  ∧ "u" ∈ _users diamond
  ∧ ∃ visits,
      _traverse_user_and_group_graph_from_user 10 diamond "u" record_groups []
      = Some (Returned (), visits)
      ∧ ∀ g, g ∈ visits ↔ reachable_from_user diamond "u" g.
Proof.
  assert (acyclic (_group_to_group_graph_edges diamond)) as Hac
    by apply (inv_acyclic _ diamond_invariants).
  assert (size (dom (_group_to_group_graph_edges diamond)) < 10) as Hfuel
    by by_evaluation.
  assert ("u" ∈ _users diamond) as Hu by by_evaluation.
  refine (conj Hac (conj Hfuel (conj Hu _))).
  exact (traversal_visits_exactly_the_reachable_groups diamond 10 "u"
           Hac Hfuel Hu).
Defined.

(** The entity mappings of user [u2] and of group [g3]. *)
Lemma entity_mapping_generators_yield_each_mapping_once_witness :
  "u2" ∈ _users access_scenario
  ∧ "g3" ∈ _groups access_scenario
  ∧ (∃ g l,
       get_user_to_entity_mappings_for_user "u2" access_scenario
       = (Returned g, access_scenario)
       ∧ (∀ n, length l < n → drain n g access_scenario = (Returned l, Finished))
       ∧ NoDup l
       ∧ ∀ t e, (t, e) ∈ l
                ↔ e ∈ row2 "u2" t (_user_to_entity_map access_scenario))
  ∧ (∃ g l,
       get_group_to_entity_mappings_for_group "g3" access_scenario
       = (Returned g, access_scenario)
       ∧ (∀ n, length l < n → drain n g access_scenario = (Returned l, Finished))
       ∧ NoDup l
       ∧ ∀ t e, (t, e) ∈ l
                ↔ e ∈ row2 "g3" t (_group_to_entity_map access_scenario)).
Proof.
  assert ("u2" ∈ _users access_scenario) as Hu by by_evaluation.
  assert ("g3" ∈ _groups access_scenario) as Hg by by_evaluation.
  refine (conj Hu (conj Hg _)).
  exact (entity_mapping_generators_yield_each_mapping_once access_scenario
           "u2" "g3" Hu Hg).
Defined.

(** Removing user [u1] changes nothing for user [u2]. *)
Lemma other_users_are_unaffected_witness :
  operation_user (RemoveUser "u1" : TestOperation) = Some "u1"
  ∧ "u2" ≠ "u1"
  ∧ call 0 (RemoveUser "u1") access_scenario
    = Some (Returned (), store_after 0 (RemoveUser "u1") access_scenario)
  ∧ ∀ f,
      (∀ c a,
         has_access_to_application_component f
           (store_after 0 (RemoveUser "u1") access_scenario) "u2" c a
         = has_access_to_application_component f access_scenario "u2" c a)
      ∧ (∀ t e,
           has_access_to_entity f
             (store_after 0 (RemoveUser "u1") access_scenario) "u2" t e
           = has_access_to_entity f access_scenario "u2" t e)
      ∧ (∀ t,
           get_accessible_entities f
             (store_after 0 (RemoveUser "u1") access_scenario) "u2" t
           = get_accessible_entities f access_scenario "u2" t).
Proof.
  assert ("u2" ≠ "u1") as Hne by by_evaluation.
  assert (call 0 (RemoveUser "u1") access_scenario
          = Some (Returned (), store_after 0 (RemoveUser "u1") access_scenario))
    as Hcall by by_evaluation.
  refine (conj eq_refl (conj Hne (conj Hcall _))).
  exact (other_users_are_unaffected 0 (RemoveUser "u1") access_scenario _ _
           "u1" "u2" eq_refl Hne Hcall).
Defined.

(** Removing the type ClientAccount leaves component access alone. *)
Lemma entity_operations_keep_component_access_witness :
  is_entity_operation (RemoveEntityType "ClientAccount" : TestOperation) = true
  ∧ call 0 (RemoveEntityType "ClientAccount") access_scenario
    = Some (Returned (),
            store_after 0 (RemoveEntityType "ClientAccount") access_scenario)
  ∧ ∀ f u c a,
      has_access_to_application_component f
        (store_after 0 (RemoveEntityType "ClientAccount") access_scenario) u c a
      = has_access_to_application_component f access_scenario u c a.
Proof.
  assert (call 0 (RemoveEntityType "ClientAccount") access_scenario
          = Some (Returned (),
                  store_after 0 (RemoveEntityType "ClientAccount")
                    access_scenario)) as Hcall by by_evaluation.
  refine (conj eq_refl (conj Hcall _)).
  exact (entity_operations_keep_component_access 0
           (RemoveEntityType "ClientAccount") access_scenario _ _ eq_refl Hcall).
Defined.

(** Mapping group [g3] to another component leaves entity access alone. *)
Lemma component_operations_keep_entity_access_witness :
  is_component_operation
    (AddGroupToComponentMapping "g3" SETTINGS DELETE : TestOperation) = true
  ∧ call 0 (AddGroupToComponentMapping "g3" SETTINGS DELETE) access_scenario
    = Some (Returned (),
            store_after 0 (AddGroupToComponentMapping "g3" SETTINGS DELETE)
              access_scenario)
  ∧ ∀ f u t,
      get_accessible_entities f
        (store_after 0 (AddGroupToComponentMapping "g3" SETTINGS DELETE)
           access_scenario) u t
      = get_accessible_entities f access_scenario u t
      ∧ ∀ e,
          has_access_to_entity f
            (store_after 0 (AddGroupToComponentMapping "g3" SETTINGS DELETE)
               access_scenario) u t e
          = has_access_to_entity f access_scenario u t e.
Proof.
  assert (call 0 (AddGroupToComponentMapping "g3" SETTINGS DELETE) access_scenario
          = Some (Returned (),
                  store_after 0 (AddGroupToComponentMapping "g3" SETTINGS DELETE)
                    access_scenario)) as Hcall by by_evaluation.
  refine (conj eq_refl (conj Hcall _)).
  exact (component_operations_keep_entity_access 0
           (AddGroupToComponentMapping "g3" SETTINGS DELETE) access_scenario _ _
           eq_refl Hcall).
Defined.

(** User [u2] reaches group [g3] in every store that keeps the edges of
    scenario S4. *)
Lemma u2_reaches_g3 (s : TestAccessManager) :
  "g2" ∈ row "u2" (_user_to_group_graph_edges s) →
  "g3" ∈ row "g2" (_group_to_group_graph_edges s) →
  reachable_from_user s "u2" "g3".
Proof.
  intros Hu Hg. exists "g2". split; [done|]. by apply rtc_once, edge_row.
Qed.

(** Four new mappings of scenario S4, each effective at once. *)
Lemma granted_mapping_is_effective_witness :
  (add_user_to_application_component_and_access_level_mapping
     "u2" SETTINGS VIEW access_scenario
   = (Returned (),
      store_after 0 (AddUserToComponentMapping "u2" SETTINGS VIEW) access_scenario)
   ∧ has_access_to_application_component 0
       (store_after 0 (AddUserToComponentMapping "u2" SETTINGS VIEW)
          access_scenario) "u2" SETTINGS VIEW
     = Some (Returned true))
  ∧ (add_user_to_entity_mapping "u2" "ClientAccount" "CompanyD" access_scenario
     = (Returned (),
        store_after 0 (AddUserToEntityMapping "u2" "ClientAccount" "CompanyD")
          access_scenario)
     ∧ has_access_to_entity 0
         (store_after 0 (AddUserToEntityMapping "u2" "ClientAccount" "CompanyD")
            access_scenario) "u2" "ClientAccount" "CompanyD"
       = Some (Returned true))
  ∧ (reachable access_scenario
     ∧ add_group_to_application_component_and_access_level_mapping
         "g3" SETTINGS VIEW access_scenario
       = (Returned (),
          store_after 0 (AddGroupToComponentMapping "g3" SETTINGS VIEW)
            access_scenario)
     ∧ size (dom (_group_to_group_graph_edges
                    (store_after 0 (AddGroupToComponentMapping "g3" SETTINGS VIEW)
                       access_scenario))) < 10
     ∧ "u2" ∈ _users (store_after 0 (AddGroupToComponentMapping "g3" SETTINGS VIEW)
                        access_scenario)
     ∧ reachable_from_user
         (store_after 0 (AddGroupToComponentMapping "g3" SETTINGS VIEW)
            access_scenario) "u2" "g3"
     ∧ has_access_to_application_component 10
         (store_after 0 (AddGroupToComponentMapping "g3" SETTINGS VIEW)
            access_scenario) "u2" SETTINGS VIEW
       = Some (Returned true))
  ∧ (reachable access_scenario
     ∧ add_group_to_entity_mapping "g3" "ClientAccount" "CompanyD" access_scenario
       = (Returned (),
          store_after 0 (AddGroupToEntityMapping "g3" "ClientAccount" "CompanyD")
            access_scenario)
     ∧ size (dom (_group_to_group_graph_edges
                    (store_after 0
                       (AddGroupToEntityMapping "g3" "ClientAccount" "CompanyD")
                       access_scenario))) < 10
     ∧ "u2" ∈ _users (store_after 0
                        (AddGroupToEntityMapping "g3" "ClientAccount" "CompanyD")
                        access_scenario)
     ∧ reachable_from_user
         (store_after 0 (AddGroupToEntityMapping "g3" "ClientAccount" "CompanyD")
            access_scenario) "u2" "g3"
     ∧ has_access_to_entity 10
         (store_after 0 (AddGroupToEntityMapping "g3" "ClientAccount" "CompanyD")
            access_scenario) "u2" "ClientAccount" "CompanyD"
       = Some (Returned true)).
Proof.
  destruct (granted_mapping_is_effective access_scenario)
    as (Huc & Hue & Hgc & Hge).
  refine (conj _ (conj _ (conj _ _))).
  - assert (add_user_to_application_component_and_access_level_mapping
              "u2" SETTINGS VIEW access_scenario
            = (Returned (),
               store_after 0 (AddUserToComponentMapping "u2" SETTINGS VIEW)
                 access_scenario)) as Hcall by by_evaluation.
    exact (conj Hcall (Huc _ _ _ _ 0 Hcall)).
  - assert (add_user_to_entity_mapping "u2" "ClientAccount" "CompanyD"
              access_scenario
            = (Returned (),
               store_after 0
                 (AddUserToEntityMapping "u2" "ClientAccount" "CompanyD")
                 access_scenario)) as Hcall by by_evaluation.
    exact (conj Hcall (Hue _ _ _ _ 0 Hcall)).
  - assert (add_group_to_application_component_and_access_level_mapping
              "g3" SETTINGS VIEW access_scenario
            = (Returned (),
               store_after 0 (AddGroupToComponentMapping "g3" SETTINGS VIEW)
                 access_scenario)) as Hcall by by_evaluation.
    assert (size (dom (_group_to_group_graph_edges
                         (store_after 0
                            (AddGroupToComponentMapping "g3" SETTINGS VIEW)
                            access_scenario))) < 10) as Hf by by_evaluation.
    assert ("u2" ∈ _users (store_after 0
                             (AddGroupToComponentMapping "g3" SETTINGS VIEW)
                             access_scenario)) as Hu by by_evaluation.
    assert (reachable_from_user
              (store_after 0 (AddGroupToComponentMapping "g3" SETTINGS VIEW)
                 access_scenario) "u2" "g3") as Hg
      by (apply u2_reaches_g3; by_evaluation).
    exact (conj access_scenario_reachable
             (conj Hcall (conj Hf (conj Hu (conj Hg
                (Hgc access_scenario_reachable _ _ _ _ 10 "u2" Hcall Hf Hu Hg)))))).
  - assert (add_group_to_entity_mapping "g3" "ClientAccount" "CompanyD"
              access_scenario
            = (Returned (),
               store_after 0
                 (AddGroupToEntityMapping "g3" "ClientAccount" "CompanyD")
                 access_scenario)) as Hcall by by_evaluation.
    assert (size (dom (_group_to_group_graph_edges
                         (store_after 0
                            (AddGroupToEntityMapping "g3" "ClientAccount"
                               "CompanyD")
                            access_scenario))) < 10) as Hf by by_evaluation.
    assert ("u2" ∈ _users (store_after 0
                             (AddGroupToEntityMapping "g3" "ClientAccount"
                                "CompanyD")
                             access_scenario)) as Hu by by_evaluation.
    assert (reachable_from_user
              (store_after 0
                 (AddGroupToEntityMapping "g3" "ClientAccount" "CompanyD")
                 access_scenario) "u2" "g3") as Hg
      by (apply u2_reaches_g3; by_evaluation).
    exact (conj access_scenario_reachable
             (conj Hcall (conj Hf (conj Hu (conj Hg
                (Hge access_scenario_reachable _ _ _ _ 10 "u2" Hcall Hf Hu Hg)))))).
Defined.

(** User [u1] joins group [g2] and has what group [g3] is mapped to; group
    [g3] joins group [g1] and user [u2] has what [g1] is mapped to. *)
Lemma new_membership_conveys_access_witness :
  reachable access_scenario
  ∧ (add_user_to_group_mapping "u1" "g2" access_scenario
     = (Returned (),
        store_after 0 (AddUserToGroupMapping "u1" "g2") access_scenario)
     ∧ size (dom (_group_to_group_graph_edges
                    (store_after 0 (AddUserToGroupMapping "u1" "g2")
                       access_scenario))) < 10
     ∧ rtc (edge (_group_to_group_graph_edges
                    (store_after 0 (AddUserToGroupMapping "u1" "g2")
                       access_scenario))) "g2" "g3"
     ∧ (ORDER, VIEW)
       ∈ row "g3" (_group_to_component_map
                     (store_after 0 (AddUserToGroupMapping "u1" "g2")
                        access_scenario))
     ∧ "CompanyC"
       ∈ row2 "g3" "ClientAccount"
           (_group_to_entity_map
              (store_after 0 (AddUserToGroupMapping "u1" "g2") access_scenario))
     ∧ has_access_to_application_component 10
         (store_after 0 (AddUserToGroupMapping "u1" "g2") access_scenario)
         "u1" ORDER VIEW
       = Some (Returned true)
     ∧ has_access_to_entity 10
         (store_after 0 (AddUserToGroupMapping "u1" "g2") access_scenario)
         "u1" "ClientAccount" "CompanyC"
       = Some (Returned true))
  ∧ (add_group_to_group_mapping 10 "g3" "g1" access_scenario
     = Some (Returned (),
             store_after 10 (AddGroupToGroupMapping "g3" "g1") access_scenario)
     ∧ size (dom (_group_to_group_graph_edges
                    (store_after 10 (AddGroupToGroupMapping "g3" "g1")
                       access_scenario))) < 10
     ∧ "u2" ∈ _users (store_after 10 (AddGroupToGroupMapping "g3" "g1")
                        access_scenario)
     ∧ reachable_from_user
         (store_after 10 (AddGroupToGroupMapping "g3" "g1") access_scenario)
         "u2" "g3"
     ∧ rtc (edge (_group_to_group_graph_edges
                    (store_after 10 (AddGroupToGroupMapping "g3" "g1")
                       access_scenario))) "g1" "g1"
     ∧ (SETTINGS, MODIFY)
       ∈ row "g1" (_group_to_component_map
                     (store_after 10 (AddGroupToGroupMapping "g3" "g1")
                        access_scenario))
     ∧ "CompanyD"
       ∈ row2 "g1" "ClientAccount"
           (_group_to_entity_map
              (store_after 10 (AddGroupToGroupMapping "g3" "g1") access_scenario))
     ∧ has_access_to_application_component 10
         (store_after 10 (AddGroupToGroupMapping "g3" "g1") access_scenario)
         "u2" SETTINGS MODIFY
       = Some (Returned true)
     ∧ has_access_to_entity 10
         (store_after 10 (AddGroupToGroupMapping "g3" "g1") access_scenario)
         "u2" "ClientAccount" "CompanyD"
       = Some (Returned true)).
Proof.
  destruct (new_membership_conveys_access access_scenario
              access_scenario_reachable) as [Huser Hgroup].
  refine (conj access_scenario_reachable (conj _ _)).
  - assert (add_user_to_group_mapping "u1" "g2" access_scenario
            = (Returned (),
               store_after 0 (AddUserToGroupMapping "u1" "g2") access_scenario))
      as Hcall by by_evaluation.
    assert (size (dom (_group_to_group_graph_edges
                         (store_after 0 (AddUserToGroupMapping "u1" "g2")
                            access_scenario))) < 10) as Hf by by_evaluation.
    assert (rtc (edge (_group_to_group_graph_edges
                         (store_after 0 (AddUserToGroupMapping "u1" "g2")
                            access_scenario))) "g2" "g3") as Hh
      by (apply rtc_once, edge_row; by_evaluation).
    assert ((ORDER, VIEW)
            ∈ row "g3" (_group_to_component_map
                          (store_after 0 (AddUserToGroupMapping "u1" "g2")
                             access_scenario))) as Hc by by_evaluation.
    assert ("CompanyC"
            ∈ row2 "g3" "ClientAccount"
                (_group_to_entity_map
                   (store_after 0 (AddUserToGroupMapping "u1" "g2")
                      access_scenario))) as He by by_evaluation.
    destruct (Huser "u1" "g2" _ 10 "g3" Hcall Hf Hh) as [Hkc Hke].
    exact (conj Hcall (conj Hf (conj Hh (conj Hc (conj He
             (conj (Hkc _ _ Hc) (Hke _ _ He))))))).
  - assert (add_group_to_group_mapping 10 "g3" "g1" access_scenario
            = Some (Returned (),
                    store_after 10 (AddGroupToGroupMapping "g3" "g1")
                      access_scenario)) as Hcall by by_evaluation.
    assert (size (dom (_group_to_group_graph_edges
                         (store_after 10 (AddGroupToGroupMapping "g3" "g1")
                            access_scenario))) < 10) as Hf by by_evaluation.
    assert ("u2" ∈ _users (store_after 10 (AddGroupToGroupMapping "g3" "g1")
                             access_scenario)) as Hu by by_evaluation.
    assert (reachable_from_user
              (store_after 10 (AddGroupToGroupMapping "g3" "g1") access_scenario)
              "u2" "g3") as Hg
      by (apply u2_reaches_g3; by_evaluation).
    assert (rtc (edge (_group_to_group_graph_edges
                         (store_after 10 (AddGroupToGroupMapping "g3" "g1")
                            access_scenario))) "g1" "g1") as Hh
      by apply rtc_refl.
    assert ((SETTINGS, MODIFY)
            ∈ row "g1" (_group_to_component_map
                          (store_after 10 (AddGroupToGroupMapping "g3" "g1")
                             access_scenario))) as Hc by by_evaluation.
    assert ("CompanyD"
            ∈ row2 "g1" "ClientAccount"
                (_group_to_entity_map
                   (store_after 10 (AddGroupToGroupMapping "g3" "g1")
                      access_scenario))) as He by by_evaluation.
    destruct (Hgroup 10 "g3" "g1" _ 10 "u2" "g1" Hcall Hf Hu Hg Hh) as [Hkc Hke].
    exact (conj Hcall (conj Hf (conj Hu (conj Hg (conj Hh (conj Hc (conj He
             (conj (Hkc _ _ Hc) (Hke _ _ He))))))))).
Defined.

(** The accessible client accounts of user [u2] are declared ones. *)
Lemma accessible_entities_are_declared_witness :
  reachable access_scenario
  ∧ size (dom (_group_to_group_graph_edges access_scenario)) < 10
  ∧ "u2" ∈ _users access_scenario
  ∧ _entities access_scenario !! "ClientAccount"
    = Some {[ "CompanyA"; "CompanyB"; "CompanyC"; "CompanyD" ]}
  ∧ ∃ accessible,
      get_accessible_entities 10 access_scenario "u2" "ClientAccount"
      = Some (Returned accessible)
      ∧ accessible ⊆ {[ "CompanyA"; "CompanyB"; "CompanyC"; "CompanyD" ]}.
Proof.
  assert (size (dom (_group_to_group_graph_edges access_scenario)) < 10)
    as Hfuel by by_evaluation.
  assert ("u2" ∈ _users access_scenario) as Hu by by_evaluation.
  assert (_entities access_scenario !! "ClientAccount"
          = Some {[ "CompanyA"; "CompanyB"; "CompanyC"; "CompanyD" ]}) as Ht
    by by_evaluation.
  refine (conj access_scenario_reachable (conj Hfuel (conj Hu (conj Ht _)))).
  exact (accessible_entities_are_declared access_scenario 10 "u2" "ClientAccount"
           _ access_scenario_reachable Hfuel Hu Ht).
Defined.
